(** * Parking-lot system: shallow embedding and verification

    The Go program keeps a three-dimensional grid of parking spots and two
    string-keyed maps (current spot and last spot of every vehicle) in one
    [InMemoryParkingRepository]; [ParkingService] validates requests and
    drives the repository.  This development embeds both layers as
    state-passing functions and proves the properties of the written
    specification about them.

    Conventions:
    - Go [int] is modelled as [Z] (a 64-bit platform is assumed; the only
      place where the width is visible is the range check of
      [strconv.ParseInt], written out in [Fmt.ParseInt]);
    - Go [string] is a byte sequence, modelled as [string]; Go [map] is a
      [gmap]; a slice is a [list], and an index out of range panics;
    - an [error] is its message, so a call returns [Ok], [Err msg] or
      [Panic]; methods with a pointer receiver that write take the
      repository and return the new one;
    - every method of the repository holds the repository's lock from
      entry to return, so goroutines that run at the same time are modelled
      by the interleavings of their repository calls. *)

From Stdlib Require Import ZArith String Ascii DecimalString DecimalZ DecimalPos.
From stdpp Require Import base option list gmap strings.

Local Open Scope string_scope.
Local Open Scope Z_scope.

(** ** Results of fallible calls *)

Inductive result (A : Type) : Type :=
| Ok (a : A)
| Err (msg : string)
| Panic.
Arguments Ok {A} a.
Arguments Err {A} msg.
Arguments Panic {A}.

(** ** Package [errors]: the message constants *)

Module Errors.
Definition ErrInvalidLocation : string :=
  "invalid parking spot location: index out of bounds".
Definition ErrInvalidSpotID : string :=
  "invalid spot ID format: must be floor-row-column".
Definition ErrInvalidSpotType : string :=
  "invalid spot type: must be B-1, M-1, A-1, or X-0".
Definition ErrInvalidVehicleType : string :=
  "invalid vehicle type: must be Bicycle, Motorcycle, or Automobile".
Definition ErrVehicleAlreadyParked : string := "vehicle is already parked".
Definition ErrVehicleNotParked : string := "vehicle is not currently parked".
Definition ErrVehicleNotAtSpot : string :=
  "vehicle is not parked at the specified spot".
Definition ErrNoAvailableSpot : string :=
  "no available parking spot for the specified vehicle type".
End Errors.

(** ** The parts of Go's [fmt] and [strconv] the program calls

  [Sprintf "%d-%d-%d"] prints three decimal integers; [Sscanf] with the
  same format scans them back.  The scanner is Go's: before each [%d] it
  skips blanks (a newline is an error), takes an optional sign and the
  longest run of decimal digits, hands the token to [strconv.ParseInt],
  and between the verbs it expects the literal byte ['-'].  It does not
  look at what follows the third integer.  (The scanner's internal limit
  of 2^30 runes per call is not modelled.) *)

Module Fmt.

Definition byte (c : ascii) : Z := Z.of_N (N_of_ascii c).

(** [%d] of [Sprintf]: decimal digits, with a leading minus sign for a
    negative number. *)
Definition formatInt (n : Z) : string := NilZero.string_of_int (Z.to_int n).

(** [fmt.Sprintf("%d-%d-%d", a, b, c)] *)
Definition Sprintf_d_d_d (a b c : Z) : string :=
  formatInt a ++ "-" ++ formatInt b ++ "-" ++ formatInt c.

Definition RuneError : Z := 0xFFFD.

Definition between (lo hi x : Z) : bool := (lo <=? x) && (x <=? hi).

(** [utf8.DecodeRuneInString]: the first rune of the input and the rest;
    an invalid or truncated encoding is [RuneError] of width one. *)
Definition DecodeRune (s : string) : option (Z * string) :=
  match s with
  | EmptyString => None
  | String b0 s1 =>
      let x := byte b0 in
      let invalid := Some (RuneError, s1) in
      if x <? 0x80 then Some (x, s1)
      else if between 0xC2 0xDF x then
        match s1 with
        | String b1 s2 =>
            if between 0x80 0xBF (byte b1)
            then Some (Z.lor (Z.shiftl (Z.land x 0x1F) 6)
                             (Z.land (byte b1) 0x3F), s2)
            else invalid
        | EmptyString => invalid
        end
      else if between 0xE0 0xEF x then
        let lo := if x =? 0xE0 then 0xA0 else 0x80 in
        let hi := if x =? 0xED then 0x9F else 0xBF in
        match s1 with
        | String b1 (String b2 s3) =>
            if between lo hi (byte b1) && between 0x80 0xBF (byte b2)
            then Some (Z.lor (Z.shiftl (Z.land x 0x0F) 12)
                        (Z.lor (Z.shiftl (Z.land (byte b1) 0x3F) 6)
                               (Z.land (byte b2) 0x3F)), s3)
            else invalid
        | _ => invalid
        end
      else if between 0xF0 0xF4 x then
        let lo := if x =? 0xF0 then 0x90 else 0x80 in
        let hi := if x =? 0xF4 then 0x8F else 0xBF in
        match s1 with
        | String b1 (String b2 (String b3 s4)) =>
            if between lo hi (byte b1) && between 0x80 0xBF (byte b2)
               && between 0x80 0xBF (byte b3)
            then Some (Z.lor (Z.shiftl (Z.land x 0x07) 18)
                        (Z.lor (Z.shiftl (Z.land (byte b1) 0x3F) 12)
                          (Z.lor (Z.shiftl (Z.land (byte b2) 0x3F) 6)
                                 (Z.land (byte b3) 0x3F))), s4)
            else invalid
        | _ => invalid
        end
      else invalid
  end.

(** The scanner's table of space runes. *)
Definition isSpace (r : Z) : bool :=
  between 0x0009 0x000D r || (r =? 0x0020) || (r =? 0x0085) || (r =? 0x00A0)
  || (r =? 0x1680) || between 0x2000 0x200A r || between 0x2028 0x2029 r
  || (r =? 0x202F) || (r =? 0x205F) || (r =? 0x3000).

(** [ss.SkipSpace] of a [Sscanf] call (newlines are not spaces there):
    [None] is the "unexpected newline" error, [Some rest] the input from
    the first rune that is not a space.  [fuel] bounds the number of
    runes read; [String.length s] is always enough. *)
Fixpoint SkipSpace_fuel (fuel : nat) (s : string) : option string :=
  match fuel with
  | O => Some s
  | S fuel' =>
      match DecodeRune s with
      | None => Some s
      | Some (r, rest) =>
          if r =? 10 then None
          else if isSpace r then SkipSpace_fuel fuel' rest
          else Some s
      end
  end.

Definition SkipSpace (s : string) : option string :=
  SkipSpace_fuel (String.length s) s.

Definition sign : string := "+-".
Definition decimalDigits : string := "0123456789".

(** [indexRune(ok, c) >= 0] for a one-byte rune. *)
Fixpoint inSet (c : ascii) (ok : string) : bool :=
  match ok with
  | EmptyString => false
  | String d ok' => Ascii.eqb c d || inSet c ok'
  end.

(** [ss.accept]: consume the next rune when it is in [ok]. *)
Definition accept (ok : string) (s : string) : string * string :=
  match s with
  | String c rest => if inSet c ok then (String c "", rest) else ("", s)
  | EmptyString => ("", s)
  end.

(** The loop [for s.accept(digits) {}]: the longest prefix in [ok]. *)
Fixpoint acceptAll (ok : string) (s : string) : string * string :=
  match s with
  | String c rest =>
      if inSet c ok
      then let '(tok, rest') := acceptAll ok rest in (String c tok, rest')
      else ("", s)
  | EmptyString => ("", s)
  end.

(** [strconv.ParseInt(tok, 10, 64)]: optional sign, then one or more
    decimal digits and nothing else; [None] on a syntax or range error. *)
Definition ParseInt (tok : string) : option Z :=
  let '(neg, ds) :=
    match tok with
    | String "+" r => (false, r)
    | String "-" r => (true, r)
    | _ => (false, tok)
    end in
  match NilZero.uint_of_string ds with
  | None => None
  | Some d =>
      let un := Z.of_uint d in
      if neg then (if 2 ^ 63 <? un then None else Some (- un))
      else (if 2 ^ 63 <=? un then None else Some un)
  end.

(** One [%d] verb: [doScanf] skips spaces, then [scanInt] reads the
    number.  Returns the value and the rest of the input. *)
Definition scanInt (s : string) : option (Z * string) :=
  s0 ← SkipSpace s;
  match s0 with
  | EmptyString => None
  | String _ _ =>
      let '(sg, s1) := accept sign s0 in
      let '(ds, s2) := acceptAll decimalDigits s1 in
      match ds with
      | EmptyString => None
      | String _ _ => n ← ParseInt (sg ++ ds); Some (n, s2)
      end
  end.

(** A literal byte of the format. *)
Definition literal (c : ascii) (s : string) : option string :=
  match s with
  | String c' rest => if Ascii.eqb c c' then Some rest else None
  | EmptyString => None
  end.

(** [fmt.Sscanf(s, "%d-%d-%d", &a, &b, &c)]: [Some (a, b, c)] when the
    call returns a nil error. *)
Definition Sscanf_d_d_d (s : string) : option (Z * Z * Z) :=
  '(a, s1) ← scanInt s;
  s2 ← literal "-" s1;
  '(b, s3) ← scanInt s2;
  s4 ← literal "-" s3;
  '(c, _) ← scanInt s4;
  Some (a, b, c).

End Fmt.

(** ** Package [repository] *)

Module Repository.
Import Errors.

Record ParkingSpot : Type := {
  Floor : Z;
  Row : Z;
  Column : Z;
  VehicleType : string;
  IsActive : bool;
  IsOccupied : bool;
  VehicleNumber : string
}.

Record InMemoryParkingRepository : Type := {
  floors : Z;
  rows : Z;
  columns : Z;
  spots : list (list (list ParkingSpot));
  gates : Z;
  vehicleMap : gmap string string;      (* vehicleNumber -> current spotID *)
  vehicleHistory : gmap string string   (* vehicleNumber -> last spotID *)
}.

Definition NewParkingRepository : InMemoryParkingRepository :=
  {| floors := 0; rows := 0; columns := 0; spots := []; gates := 0;
     vehicleMap := ∅; vehicleHistory := ∅ |}.

(** Slice indexing [l[i]]; [None] is the run-time panic. *)
Definition index {A} (l : list A) (i : Z) : option A :=
  if i <? 0 then None else l !! Z.to_nat i.

(** [r.spots[f][row][col]] *)
Definition spotAt (r : InMemoryParkingRepository) (f row col : Z)
  : option ParkingSpot :=
  fl ← index (spots r) f; rw ← index fl row; index rw col.

(** Writing through the pointer [r.spots[f][row][col]]. *)
Definition updateSpot (upd : ParkingSpot → ParkingSpot) (f row col : Z)
    (g : list (list (list ParkingSpot))) : list (list (list ParkingSpot)) :=
  alter (alter (alter upd (Z.to_nat col)) (Z.to_nat row)) (Z.to_nat f) g.

Definition withSpots (r : InMemoryParkingRepository)
    (g : list (list (list ParkingSpot))) : InMemoryParkingRepository :=
  {| floors := floors r; rows := rows r; columns := columns r; spots := g;
     gates := gates r; vehicleMap := vehicleMap r;
     vehicleHistory := vehicleHistory r |}.

(** The two pairs of field assignments the methods make on a spot. *)
Definition setConfig (vehicleType : string) (isActive : bool)
    (spot : ParkingSpot) : ParkingSpot :=
  {| Floor := Floor spot; Row := Row spot; Column := Column spot;
     VehicleType := vehicleType; IsActive := isActive;
     IsOccupied := IsOccupied spot; VehicleNumber := VehicleNumber spot |}.

Definition setOccupant (isOccupied : bool) (vehicleNumber : string)
    (spot : ParkingSpot) : ParkingSpot :=
  {| Floor := Floor spot; Row := Row spot; Column := Column spot;
     VehicleType := VehicleType spot; IsActive := IsActive spot;
     IsOccupied := isOccupied; VehicleNumber := vehicleNumber |}.

Definition newSpot (f row col : Z) : ParkingSpot :=
  {| Floor := f; Row := row; Column := col; VehicleType := "";
     IsActive := false; IsOccupied := false; VehicleNumber := "" |}.

(** [make([]T, n)] panics when [n] is negative or when [n] elements of
    [size] bytes are more than the runtime can address ([maxAlloc], 2^48
    bytes on the 64-bit platforms assumed here).  Below that limit the
    machine is taken to have the memory that is asked for. *)
Definition maxAlloc : Z := 2 ^ 48.

Definition makePanics (size n : Z) : bool :=
  (n <? 0) || (maxAlloc <? size * n).

(** The sizes of the elements of the three levels of the grid: a slice
    header for a floor and for a row, a pointer for a spot. *)
Definition sliceSize : Z := 24.
Definition pointerSize : Z := 8.

(** [InitializeParkingLot] assigns the four dimensions first and then
    builds the grid floor by floor and row by row.  A [make] that panics
    leaves the dimensions assigned and the grid as far as it was built: the
    old grid when the first [make] fails, the empty floors when the rows of
    floor 0 cannot be made, and floor 0 with its empty rows when the
    columns of its row 0 cannot be made.  The two maps are not touched. *)
Definition InitializeParkingLot (floors' rows' columns' gates' : Z)
    (r : InMemoryParkingRepository) : InMemoryParkingRepository * result unit :=
  let assigned g :=
    {| floors := floors'; rows := rows'; columns := columns'; spots := g;
       gates := gates'; vehicleMap := vehicleMap r;
       vehicleHistory := vehicleHistory r |} in
  if makePanics sliceSize floors'
  then (assigned (spots r), Panic)
  else if (0 <? floors') && makePanics sliceSize rows'
  then (assigned (replicate (Z.to_nat floors') []), Panic)
  else if (0 <? floors') && (0 <? rows') && makePanics pointerSize columns'
  then (assigned (replicate (Z.to_nat rows') []
                    :: replicate (Z.to_nat floors' - 1) []), Panic)
  else
    (assigned ((λ f, (λ row, (λ col, newSpot f row col) <$> seqZ 0 columns')
                       <$> seqZ 0 rows') <$> seqZ 0 floors'), Ok tt).

Definition isValidLocation (r : InMemoryParkingRepository)
    (floor row column : Z) : bool :=
  (0 <=? floor) && (floor <? floors r) &&
  (0 <=? row) && (row <? rows r) &&
  (0 <=? column) && (column <? columns r).

Definition IsValidLocation := isValidLocation.

Definition ConfigureSpot (floor row column : Z) (vehicleType : string)
    (isActive : bool) (r : InMemoryParkingRepository)
  : InMemoryParkingRepository * result unit :=
  if negb (isValidLocation r floor row column) then (r, Err ErrInvalidLocation)
  else
    match spotAt r floor row column with
    | None => (r, Panic)
    | Some _ =>
        (withSpots r
           (updateSpot (setConfig vehicleType isActive)
              floor row column (spots r)), Ok tt)
    end.

Definition IsSpotOccupied (r : InMemoryParkingRepository)
    (floor row column : Z) : result bool :=
  if negb (isValidLocation r floor row column) then Err ErrInvalidLocation
  else
    match spotAt r floor row column with
    | None => Panic
    | Some spot => Ok (IsOccupied spot)
    end.

(** A counting loop [for i := 0; i < n; i++] whose body may [return]:
    [Ok (Some a)] is the early return, [Ok None] falling through. *)
Fixpoint forReturn {A} (body : Z → result (option A)) (idx : list Z)
  : result (option A) :=
  match idx with
  | [] => Ok None
  | i :: idx' =>
      match body i with
      | Ok None => forReturn body idx'
      | other => other
      end
  end.

(** The test of the availability scans. *)
Definition available (vehicleType : string) (spot : ParkingSpot) : bool :=
  IsActive spot && String.eqb (VehicleType spot) vehicleType
  && negb (IsOccupied spot).

Definition FindAvailableSpot (r : InMemoryParkingRepository)
    (vehicleType : string) : result string :=
  match
    forReturn (λ f,
      forReturn (λ row,
        forReturn (λ col,
          match spotAt r f row col with
          | None => Panic
          | Some spot =>
              if available vehicleType spot
              then Ok (Some (Fmt.Sprintf_d_d_d f row col))
              else Ok None
          end) (seqZ 0 (columns r))) (seqZ 0 (rows r))) (seqZ 0 (floors r))
  with
  | Ok (Some spotID) => Ok spotID
  | Ok None => Err ErrNoAvailableSpot
  | Err e => Err e
  | Panic => Panic
  end.

Definition parseSpotID (r : InMemoryParkingRepository) (spotID : string)
  : result (Z * Z * Z) :=
  match Fmt.Sscanf_d_d_d spotID with
  | None => Err ErrInvalidSpotID
  | Some (floor, row, column) =>
      if negb (isValidLocation r floor row column) then Err ErrInvalidLocation
      else Ok (floor, row, column)
  end.

Definition ParseSpotID := parseSpotID.

Definition ParkVehicle (spotID vehicleNumber : string)
    (r : InMemoryParkingRepository) : InMemoryParkingRepository * result unit :=
  match parseSpotID r spotID with
  | Err e => (r, Err e)
  | Panic => (r, Panic)
  | Ok (floor, row, col) =>
      match spotAt r floor row col with
      | None => (r, Panic)
      | Some _ =>
          ({| floors := floors r; rows := rows r; columns := columns r;
              spots :=
                updateSpot (setOccupant true vehicleNumber)
                  floor row col (spots r);
              gates := gates r;
              vehicleMap := <[vehicleNumber := spotID]> (vehicleMap r);
              vehicleHistory := vehicleHistory r |}, Ok tt)
      end
  end.

Definition UnparkVehicle (floor row column : Z) (vehicleNumber : string)
    (r : InMemoryParkingRepository) : InMemoryParkingRepository * result unit :=
  if negb (isValidLocation r floor row column) then (r, Err ErrInvalidLocation)
  else
    match spotAt r floor row column with
    | None => (r, Panic)
    | Some spot =>
        if negb (IsOccupied spot)
           || negb (String.eqb (VehicleNumber spot) vehicleNumber)
        then (r, Err (ErrVehicleNotAtSpot ++ ": " ++ vehicleNumber
                        ++ " at spot " ++ Fmt.Sprintf_d_d_d floor row column))
        else
          let spotID := Fmt.Sprintf_d_d_d floor row column in
          ({| floors := floors r; rows := rows r; columns := columns r;
              spots :=
                updateSpot (setOccupant false "")
                  floor row column (spots r);
              gates := gates r;
              vehicleMap := delete vehicleNumber (vehicleMap r);
              vehicleHistory :=
                <[vehicleNumber := spotID]> (vehicleHistory r) |}, Ok tt)
    end.

(** [IsVehicleParked]: a missing key reads as the empty string. *)
Definition IsVehicleParked (r : InMemoryParkingRepository)
    (vehicleNumber : string) : bool * string :=
  match vehicleMap r !! vehicleNumber with
  | Some spotID => (true, spotID)
  | None => (false, "")
  end.

Definition SearchVehicle (r : InMemoryParkingRepository)
    (vehicleNumber : string) : result (string * bool) :=
  match vehicleMap r !! vehicleNumber with
  | Some spotID => Ok (spotID, true)
  | None =>
      match vehicleHistory r !! vehicleNumber with
      | Some lastSpotID => Ok (lastSpotID, false)
      | None => Err ("vehicle " ++ vehicleNumber
                       ++ " has never been parked in this parking lot")
      end
  end.

(** A counting loop without early return, threading the local state. *)
Fixpoint forEach {S} (body : Z → S → result S) (idx : list Z) (acc : S)
  : result S :=
  match idx with
  | [] => Ok acc
  | i :: idx' =>
      match body i acc with
      | Ok acc' => forEach body idx' acc'
      | other => other
      end
  end.

Definition GetAvailableSpots (r : InMemoryParkingRepository)
    (vehicleType : string) : result (list string) :=
  match
    forEach (λ f,
      forEach (λ row,
        forEach (λ col availableSpots,
          match spotAt r f row col with
          | None => Panic
          | Some spot =>
              if available vehicleType spot
              then Ok (availableSpots ++ [Fmt.Sprintf_d_d_d f row col])%list
              else Ok availableSpots
          end) (seqZ 0 (columns r))) (seqZ 0 (rows r))) (seqZ 0 (floors r)) []
  with
  | Ok [] => Err (ErrNoAvailableSpot ++ ": " ++ vehicleType)
  | other => other
  end.

End Repository.

(** ** Package [parking]: the service *)

Module Parking.
Import Errors.
Export Repository.

Definition Bicycle : string := "Bicycle".
Definition Motorcycle : string := "Motorcycle".
Definition Automobile : string := "Automobile".

Definition InitializeParkingLot (floors rows columns gates : Z)
    (r : InMemoryParkingRepository) : InMemoryParkingRepository * result unit :=
  if (floors <? 1) || (8 <? floors)
  then (r, Err "floors must be between 1 and 8")
  else if (rows <? 1) || (1000 <? rows)
  then (r, Err "rows must be between 1 and 1000")
  else if (columns <? 1) || (1000 <? columns)
  then (r, Err "columns must be between 1 and 1000")
  else if gates <? 1
  then (r, Err "gates must be at least 1")
  else Repository.InitializeParkingLot floors rows columns gates r.

Definition ConfigureSpot (floor row column : Z) (spotType : string)
    (r : InMemoryParkingRepository) : InMemoryParkingRepository * result unit :=
  if negb (Repository.IsValidLocation r floor row column)
  then (r, Err ErrInvalidLocation)
  else
    match Repository.IsSpotOccupied r floor row column with
    | Err e => (r, Err e)
    | Panic => (r, Panic)
    | Ok isOccupied =>
        if isOccupied
        then (r, Err "cannot reconfigure an occupied parking spot")
        else if String.eqb spotType "B-1"
        then Repository.ConfigureSpot floor row column Bicycle true r
        else if String.eqb spotType "M-1"
        then Repository.ConfigureSpot floor row column Motorcycle true r
        else if String.eqb spotType "A-1"
        then Repository.ConfigureSpot floor row column Automobile true r
        else if String.eqb spotType "X-0"
        then Repository.ConfigureSpot floor row column "" false r
        else (r, Err ErrInvalidSpotType)
    end.

Definition validateVehicleType (vehicleType : string) : option string :=
  if String.eqb vehicleType Bicycle || String.eqb vehicleType Motorcycle
     || String.eqb vehicleType Automobile
  then None
  else Some ErrInvalidVehicleType.

Definition validateVehicleNumber (vehicleNumber : string) : option string :=
  if String.eqb vehicleNumber "" then Some "vehicle number cannot be empty"
  else None.

Definition Park (vehicleType vehicleNumber : string)
    (r : InMemoryParkingRepository) : InMemoryParkingRepository * result string :=
  match validateVehicleType vehicleType with
  | Some e => (r, Err e)
  | None =>
  match validateVehicleNumber vehicleNumber with
  | Some e => (r, Err e)
  | None =>
      let '(isParked, currentSpotID) :=
        Repository.IsVehicleParked r vehicleNumber in
      if isParked
      then (r, Err (ErrVehicleAlreadyParked ++ ": " ++ vehicleNumber
                      ++ " at spot " ++ currentSpotID))
      else
        match Repository.FindAvailableSpot r vehicleType with
        | Panic => (r, Panic)
        | Err _ => (r, Err ErrNoAvailableSpot)
        | Ok spotID =>
            match Repository.ParkVehicle spotID vehicleNumber r with
            | (r', Ok _) => (r', Ok spotID)
            | (r', Err e) => (r', Err e)
            | (r', Panic) => (r', Panic)
            end
        end
  end end.

Definition Unpark (spotID vehicleNumber : string)
    (r : InMemoryParkingRepository) : InMemoryParkingRepository * result unit :=
  match validateVehicleNumber vehicleNumber with
  | Some e => (r, Err e)
  | None =>
      let '(isParked, currentSpotID) :=
        Repository.IsVehicleParked r vehicleNumber in
      if negb isParked
      then (r, Err (ErrVehicleNotParked ++ ": " ++ vehicleNumber))
      else if negb (String.eqb currentSpotID spotID)
      then (r, Err (ErrVehicleNotAtSpot ++ ": " ++ vehicleNumber
                      ++ " (expected: " ++ spotID ++ ", actual: "
                      ++ currentSpotID ++ ")"))
      else
        match Repository.ParseSpotID r spotID with
        | Err e => (r, Err e)
        | Panic => (r, Panic)
        | Ok (floor, row, column) =>
            Repository.UnparkVehicle floor row column vehicleNumber r
        end
  end.

Definition SearchVehicle (r : InMemoryParkingRepository)
    (vehicleNumber : string) : result (string * bool) :=
  match validateVehicleNumber vehicleNumber with
  | Some e => Err e
  | None => Repository.SearchVehicle r vehicleNumber
  end.

Definition GetAvailableSpots (r : InMemoryParkingRepository)
    (vehicleType : string) : result (list string) :=
  match validateVehicleType vehicleType with
  | Some e => Err e
  | None => Repository.GetAvailableSpots r vehicleType
  end.

End Parking.

Import Parking.

(** * Vocabulary of the specification *)

(** ** Decimal numerals *)

Definition isDigit (c : ascii) : bool := Fmt.inSet c Fmt.decimalDigits.

(** Non-empty runs of decimal digits. *)
Fixpoint allDigits (s : string) : bool :=
  match s with
  | EmptyString => true
  | String c s' => isDigit c && allDigits s'
  end.

Definition isDecimal (s : string) : bool :=
  match s with
  | EmptyString => false
  | String _ _ => allDigits s
  end.

(** The input does not go on with a digit. *)
Definition noDigitAhead (s : string) : bool :=
  match s with
  | EmptyString => true
  | String c _ => negb (isDigit c)
  end.

(** The number a run of digits denotes. *)
Definition digitsValue (s : string) : Z :=
  match NilEmpty.uint_of_string s with
  | Some d => Z.of_uint d
  | None => 0
  end.

(** The wire format of a spot identifier in the words of the
    specification: exactly three non-empty runs of decimal digits joined
    by ['-'], and nothing else. *)
Definition matchesSpotIDPattern (s : string) : bool :=
  let '(d1, s1) := Fmt.acceptAll Fmt.decimalDigits s in
  match d1, s1 with
  | String _ _, String "-" s2 =>
      let '(d2, s3) := Fmt.acceptAll Fmt.decimalDigits s2 in
      match d2, s3 with
      | String _ _, String "-" s4 =>
          let '(d3, s5) := Fmt.acceptAll Fmt.decimalDigits s4 in
          match d3, s5 with
          | String _ _, EmptyString => true
          | _, _ => false
          end
      | _, _ => false
      end
  | _, _ => false
  end.

(** ** The language of the scanner

    What [Sscanf] with the format ["%d-%d-%d"] accepts, said without the
    scanner: blanks are the white space of Unicode other than the newline,
    in UTF-8; an integer is any blanks, an optional sign and a non-empty
    run of decimal digits, and its value fits Go's [int]. *)

(** The string with the given byte values. *)
Definition bytes (l : list Z) : string :=
  foldr (λ b s, String (ascii_of_N (Z.to_N b)) s) "" l.

(** U+0009, U+000B to U+000D, U+0020, U+0085, U+00A0, U+1680, U+2000 to
    U+200A, U+2028, U+2029, U+202F, U+205F and U+3000. *)
Definition blankCodes : list (list Z) :=
  [ [0x09]; [0x0B]; [0x0C]; [0x0D]; [0x20];
    [0xC2; 0x85]; [0xC2; 0xA0]; [0xE1; 0x9A; 0x80];
    [0xE2; 0x80; 0x80]; [0xE2; 0x80; 0x81]; [0xE2; 0x80; 0x82];
    [0xE2; 0x80; 0x83]; [0xE2; 0x80; 0x84]; [0xE2; 0x80; 0x85];
    [0xE2; 0x80; 0x86]; [0xE2; 0x80; 0x87]; [0xE2; 0x80; 0x88];
    [0xE2; 0x80; 0x89]; [0xE2; 0x80; 0x8A];
    [0xE2; 0x80; 0xA8]; [0xE2; 0x80; 0xA9]; [0xE2; 0x80; 0xAF];
    [0xE2; 0x81; 0x9F]; [0xE3; 0x80; 0x80] ].

Inductive blanks : string → Prop :=
| blanks_nil : blanks ""
| blanks_cons code sp :
    code ∈ blankCodes → blanks sp → blanks (bytes code ++ sp).

Definition signs : list string := [""; "+"; "-"].

Definition signedValue (sg ds : string) : Z :=
  if String.eqb sg "-" then - digitsValue ds else digitsValue ds.

(** [t] is the text of an integer with value [n]. *)
Definition integerText (t : string) (n : Z) : Prop :=
  ∃ sp sg ds,
    t = sp ++ sg ++ ds ∧ blanks sp ∧ sg ∈ signs ∧ isDecimal ds = true ∧
    n = signedValue sg ds ∧ - 2 ^ 63 ≤ n < 2 ^ 63.

(** [s] begins with three integers joined by ['-'], and what follows the
    third does not go on with a digit. *)
Definition beginsWithSpotID (s : string) (a b c : Z) : Prop :=
  ∃ t1 t2 t3 rest,
    s = t1 ++ "-" ++ t2 ++ "-" ++ t3 ++ rest ∧
    integerText t1 a ∧ integerText t2 b ∧ integerText t3 c ∧
    noDigitAhead rest = true.

(** ** Kinds of errors

    An error of a kind is a message that starts with the kind's constant
    (the program appends details with [fmt.Errorf]). *)
Definition failsWith {A} (kind : string) (res : result A) : Prop :=
  ∃ detail, res = Err (kind ++ detail).

(** ** Order of the availability scan *)

(** A spot that can be allocated to a vehicle of the given type: active,
    of that type, and not occupied. *)
Definition freeAt (r : InMemoryParkingRepository) (vehicleType : string)
    (f row col : Z) : Prop :=
  ∃ spot, spotAt r f row col = Some spot ∧
          IsActive spot = true ∧ VehicleType spot = vehicleType ∧
          IsOccupied spot = false.

(** The three nested loops of [FindAvailableSpot], from the inside out. *)
Definition scanSpot (r : InMemoryParkingRepository) (vehicleType : string)
    (f row col : Z) : result (option string) :=
  match spotAt r f row col with
  | None => Panic
  | Some spot =>
      if available vehicleType spot
      then Ok (Some (Fmt.Sprintf_d_d_d f row col))
      else Ok None
  end.

Definition scanColumns (r : InMemoryParkingRepository) (vehicleType : string)
    (f row : Z) : result (option string) :=
  forReturn (scanSpot r vehicleType f row) (seqZ 0 (columns r)).

Definition scanRows (r : InMemoryParkingRepository) (vehicleType : string)
    (f : Z) : result (option string) :=
  forReturn (scanColumns r vehicleType f) (seqZ 0 (rows r)).

Definition lexLe (p q : Z * Z * Z) : Prop :=
  let '(f, row, col) := p in
  let '(f', row', col') := q in
  f < f' ∨ (f = f' ∧ (row < row' ∨ (row = row' ∧ col ≤ col'))).

(** ** Well-formed repositories and the invariants of the engine *)

(** The dimensions are values of Go's [int] and the grid has a spot at
    every valid location, so no index of the program is out of range. *)
Record wellFormed (r : InMemoryParkingRepository) : Prop := {
  wf_floors : 0 ≤ floors r < 2 ^ 63;
  wf_rows : 0 ≤ rows r < 2 ^ 63;
  wf_columns : 0 ≤ columns r < 2 ^ 63;
  wf_spots : ∀ f row col,
    isValidLocation r f row col = true → is_Some (spotAt r f row col)
}.

(** A spot is occupied exactly when it names its occupant, and an inactive
    spot is not occupied. *)
Definition spotOK (spot : ParkingSpot) : Prop :=
  (IsOccupied spot = true ↔ VehicleNumber spot ≠ "") ∧
  (IsActive spot = false → IsOccupied spot = false).

Definition gridOK (r : InMemoryParkingRepository) : Prop :=
  ∀ f row col spot, spotAt r f row col = Some spot → spotOK spot.

(** The vehicle [v] is the occupant of the spot at a valid location. *)
Definition occupiedBy (r : InMemoryParkingRepository) (f row col : Z)
    (v : string) : Prop :=
  isValidLocation r f row col = true ∧
  ∃ spot, spotAt r f row col = Some spot ∧
          IsOccupied spot = true ∧ VehicleNumber spot = v.

(** The map of current spots agrees with the grid. *)
Definition currentOK (r : InMemoryParkingRepository) : Prop :=
  ∀ v s, vehicleMap r !! v = Some s ↔
         ∃ f row col, s = Fmt.Sprintf_d_d_d f row col ∧ occupiedBy r f row col v.

Record invariant (r : InMemoryParkingRepository) : Prop := {
  inv_wf : wellFormed r;
  inv_grid : gridOK r;
  inv_current : currentOK r
}.

(** ** Reachable states

    The lot is initialized once, on a new repository; afterwards the
    service handles any sequence of requests, one request at a time.
    (Requests that overlap are the subject of [Concurrent] below.) *)

Inductive Request : Type :=
| ReqConfigureSpot (floor row column : Z) (spotType : string)
| ReqPark (vehicleType vehicleNumber : string)
| ReqUnpark (spotID vehicleNumber : string)
| ReqGetAvailableSpots (vehicleType : string)
| ReqSearchVehicle (vehicleNumber : string).

Definition handle (q : Request) (r : InMemoryParkingRepository)
  : InMemoryParkingRepository :=
  match q with
  | ReqConfigureSpot floor row column spotType =>
      fst (Parking.ConfigureSpot floor row column spotType r)
  | ReqPark vehicleType vehicleNumber =>
      fst (Parking.Park vehicleType vehicleNumber r)
  | ReqUnpark spotID vehicleNumber =>
      fst (Parking.Unpark spotID vehicleNumber r)
  | ReqGetAvailableSpots _ => r
  | ReqSearchVehicle _ => r
  end.

Definition serve (qs : list Request) (r : InMemoryParkingRepository)
  : InMemoryParkingRepository :=
  foldl (λ r q, handle q r) r qs.

Definition initialized (r0 : InMemoryParkingRepository) : Prop :=
  ∃ floors rows columns gates,
    Parking.InitializeParkingLot floors rows columns gates NewParkingRepository
    = (r0, Ok tt).

Definition reachable (r : InMemoryParkingRepository) : Prop :=
  ∃ r0 qs, initialized r0 ∧ r = serve qs r0.

(** ** A small lot

    One floor, one row, two columns, both configured for bicycles: the
    scenario of the specification. *)

Definition lot0 : InMemoryParkingRepository :=
  fst (Parking.InitializeParkingLot 1 1 2 1 NewParkingRepository).

Definition lot : InMemoryParkingRepository :=
  serve [ReqConfigureSpot 0 0 0 "B-1"; ReqConfigureSpot 0 0 1 "B-1"] lot0.

Definition lotBC1 : InMemoryParkingRepository :=
  serve [ReqPark "Bicycle" "BC1"] lot.

(** ** Concurrent requests

    Every method of the repository holds the repository's lock from entry
    to return, so calls of different goroutines take effect one at a time.
    [ParkingService.Park] holds no lock of its own: between its three
    repository calls another goroutine may run.  A goroutine executing
    [Park] is therefore modelled by the point it has reached. *)

Module Concurrent.
Import Errors.

Inductive ParkThread : Type :=
| AtStart (vehicleType vehicleNumber : string)
| AfterCheck (vehicleType vehicleNumber : string)
| AfterFind (spotID vehicleNumber : string)
| Returned (res : result string).

(** One repository call of the thread (with the local code before it). *)
Definition parkStep (t : ParkThread) (r : InMemoryParkingRepository)
  : ParkThread * InMemoryParkingRepository :=
  match t with
  | AtStart vehicleType vehicleNumber =>
      match validateVehicleType vehicleType with
      | Some e => (Returned (Err e), r)
      | None =>
      match validateVehicleNumber vehicleNumber with
      | Some e => (Returned (Err e), r)
      | None =>
          let '(isParked, currentSpotID) :=
            Repository.IsVehicleParked r vehicleNumber in
          if isParked
          then (Returned (Err (ErrVehicleAlreadyParked ++ ": " ++ vehicleNumber
                                 ++ " at spot " ++ currentSpotID)), r)
          else (AfterCheck vehicleType vehicleNumber, r)
      end end
  | AfterCheck vehicleType vehicleNumber =>
      match Repository.FindAvailableSpot r vehicleType with
      | Panic => (Returned Panic, r)
      | Err _ => (Returned (Err ErrNoAvailableSpot), r)
      | Ok spotID => (AfterFind spotID vehicleNumber, r)
      end
  | AfterFind spotID vehicleNumber =>
      match Repository.ParkVehicle spotID vehicleNumber r with
      | (r', Ok _) => (Returned (Ok spotID), r')
      | (r', Err e) => (Returned (Err e), r')
      | (r', Panic) => (Returned Panic, r')
      end
  | Returned res => (Returned res, r)
  end.

(** Two goroutines and the shared repository; a schedule names the
    goroutine that makes the next call ([false] the first, [true] the
    second). *)
Definition System : Type :=
  ParkThread * ParkThread * InMemoryParkingRepository.

Definition schedStep (sys : System) (second : bool) : System :=
  let '(t1, t2, r) := sys in
  if second
  then let '(t2', r') := parkStep t2 r in (t1, t2', r')
  else let '(t1', r') := parkStep t1 r in (t1', t2, r').

Definition runSchedule (schedule : list bool) (sys : System) : System :=
  foldl schedStep sys schedule.

End Concurrent.

(** The small lot after two goroutines have parked the bicycles BC1 and
    BC2 with their repository calls alternating. *)
Definition lotRaced : InMemoryParkingRepository :=
  snd (Concurrent.runSchedule [false; true; false; true; false; true]
         (Concurrent.AtStart "Bicycle" "BC1",
          Concurrent.AtStart "Bicycle" "BC2", lot)).

(** ** Any number of overlapping requests

    The server runs the handler of every request in a goroutine of its
    own.  Like [Park], [ParkingService.Unpark] makes three repository calls
    and holds no lock between them; the queries make one call each and
    write nothing; [ConfigureSpot] is called by [main] only, before the
    server starts. *)

Module Server.
Import Errors.

(** A goroutine executing [Unpark], by the point it has reached. *)
Inductive UnparkThread : Type :=
| UAtStart (spotID vehicleNumber : string)
| UAfterCheck (spotID vehicleNumber : string)
| UAfterParse (floor row column : Z) (vehicleNumber : string)
| UReturned (res : result unit).

(** One repository call of the thread (with the local code before it). *)
Definition unparkStep (t : UnparkThread) (r : InMemoryParkingRepository)
  : UnparkThread * InMemoryParkingRepository :=
  match t with
  | UAtStart spotID vehicleNumber =>
      match validateVehicleNumber vehicleNumber with
      | Some e => (UReturned (Err e), r)
      | None =>
          let '(isParked, currentSpotID) :=
            Repository.IsVehicleParked r vehicleNumber in
          if negb isParked
          then (UReturned (Err (ErrVehicleNotParked ++ ": " ++ vehicleNumber)),
                r)
          else if negb (String.eqb currentSpotID spotID)
          then (UReturned
                  (Err (ErrVehicleNotAtSpot ++ ": " ++ vehicleNumber
                          ++ " (expected: " ++ spotID ++ ", actual: "
                          ++ currentSpotID ++ ")")), r)
          else (UAfterCheck spotID vehicleNumber, r)
      end
  | UAfterCheck spotID vehicleNumber =>
      match Repository.ParseSpotID r spotID with
      | Err e => (UReturned (Err e), r)
      | Panic => (UReturned Panic, r)
      | Ok (floor, row, column) =>
          (UAfterParse floor row column vehicleNumber, r)
      end
  | UAfterParse floor row column vehicleNumber =>
      let '(r', res) :=
        Repository.UnparkVehicle floor row column vehicleNumber r in
      (UReturned res, r')
  | UReturned res => (UReturned res, r)
  end.

Inductive Goroutine : Type :=
| GoPark (t : Concurrent.ParkThread)
| GoUnpark (t : UnparkThread).

Definition step (g : Goroutine) (r : InMemoryParkingRepository)
  : Goroutine * InMemoryParkingRepository :=
  match g with
  | GoPark t => let '(t', r') := Concurrent.parkStep t r in (GoPark t', r')
  | GoUnpark t => let '(t', r') := unparkStep t r in (GoUnpark t', r')
  end.

(** The goroutine of a request that writes. *)
Definition spawn (q : Request) : option Goroutine :=
  match q with
  | ReqPark vehicleType vehicleNumber =>
      Some (GoPark (Concurrent.AtStart vehicleType vehicleNumber))
  | ReqUnpark spotID vehicleNumber =>
      Some (GoUnpark (UAtStart spotID vehicleNumber))
  | _ => None
  end.

(** The goroutines and the shared repository; a schedule lists, call by
    call, the index of the goroutine that makes the next repository call. *)
Definition System : Type := list Goroutine * InMemoryParkingRepository.

Definition schedStep (sys : System) (i : nat) : System :=
  let '(pool, r) := sys in
  match pool !! i with
  | Some g => let '(g', r') := step g r in (<[i := g']> pool, r')
  | None => sys
  end.

Definition run (schedule : list nat) (sys : System) : System :=
  foldl schedStep sys schedule.

End Server.

(** The states of the repository while the server runs: [main] has left a
    reachable state, requests have arrived, and their goroutines have made
    some of their repository calls, in any order. *)
Definition served (r : InMemoryParkingRepository) : Prop :=
  ∃ r0 qs schedule,
    reachable r0 ∧ r = snd (Server.run schedule (omap Server.spawn qs, r0)).

(** * Further parts of the program *)

(** ** Package [parking]: the spot model and its identifier *)

Module Model.

Record ParkingSpotType : Type := {
  VehicleType : string;
  IsActive : bool
}.

(** The field [Type] of the source is [Type_] here. *)
Record ParkingSpot : Type := {
  Floor : Z;
  Row : Z;
  Column : Z;
  Type_ : ParkingSpotType;
  IsOccupied : bool;
  VehicleNumber : string
}.

Definition SpotID (p : ParkingSpot) : string :=
  Fmt.Sprintf_d_d_d (Floor p) (Row p) (Column p).

End Model.

(** ** Package [dto]

    Two structs of the source may not share a field name here, so every
    field carries the name of its struct. *)

Module Dto.

Record ParkRequest : Type := {
  ParkRequest_VehicleType : string;
  ParkRequest_VehicleNumber : string
}.

Record ParkResponse : Type := {
  ParkResponse_SpotID : string;
  ParkResponse_Error : string
}.

Record UnparkRequest : Type := {
  UnparkRequest_SpotID : string;
  UnparkRequest_VehicleNumber : string
}.

Record UnparkResponse : Type := {
  UnparkResponse_Success : bool;
  UnparkResponse_Error : string
}.

Record AvailableSpotResponse : Type := {
  AvailableSpotResponse_Spots : list string;
  AvailableSpotResponse_Error : string
}.

Record SearchVehicleResponse : Type := {
  SearchVehicleResponse_SpotID : string;
  SearchVehicleResponse_IsParked : bool;
  SearchVehicleResponse_WasParked : bool;
  SearchVehicleResponse_Error : string
}.

End Dto.

(** ** Package [handler]

    A handler receives the request method, what the request carries (the
    outcome of decoding the JSON body, or the value of the query
    parameter, empty when it is absent), the response writer and the
    repository behind the service.  The response writer is the one of
    [net/http]: the status code and the headers are fixed by the first
    [WriteHeader] (an [Encode] before any [WriteHeader] fixes them with
    status 200), a header set afterwards is not sent, and a response that
    would go out without a content type gets a sniffed one.  The bytes of a
    JSON encoding are not modelled: the body is the list of encoded
    values.  [None] is a handler that panics. *)

Module Handler.
Import Dto.

Inductive Payload : Type :=
| ErrorMap (message : string)
| OfParkResponse (resp : ParkResponse)
| OfUnparkResponse (resp : UnparkResponse)
| OfAvailableSpotResponse (resp : AvailableSpotResponse)
| OfSearchVehicleResponse (resp : SearchVehicleResponse).

Record ResponseWriter : Type := {
  header : gmap string string;
  wroteHeader : bool;
  statusCode : Z;
  sentHeader : gmap string string;
  body : list Payload
}.

Definition NewResponseWriter : ResponseWriter :=
  {| header := ∅; wroteHeader := false; statusCode := 0; sentHeader := ∅;
     body := [] |}.

(** [w.Header().Set(key, value)] *)
Definition HeaderSet (key value : string) (w : ResponseWriter)
  : ResponseWriter :=
  {| header := <[key := value]> (header w); wroteHeader := wroteHeader w;
     statusCode := statusCode w; sentHeader := sentHeader w; body := body w |}.

(** [w.WriteHeader(code)]: only the first call counts. *)
Definition WriteHeader (code : Z) (w : ResponseWriter) : ResponseWriter :=
  if wroteHeader w then w
  else {| header := header w; wroteHeader := true; statusCode := code;
          sentHeader := header w; body := body w |}.

(** [http.DetectContentType] on the encoding of a payload.  Every payload
    is encoded as a JSON object: text that starts with a brace and holds no
    byte the sniffer takes for binary data, which its table knows as plain
    text only. *)
Definition DetectContentType (v : Payload) : string :=
  "text/plain; charset=utf-8".

(** The server sniffs the content type of a response whose header, as it
    is sent, has no [Content-Type], no [Content-Encoding] and no
    [Transfer-Encoding].  (It does so for a status that allows a body, as
    200, 400 and 405, the ones the handlers send, do.) *)
Definition sniffs (h : gmap string string) : bool :=
  bool_decide (h !! "Content-Type" = None)
  && String.eqb (default "" (h !! "Content-Encoding")) ""
  && String.eqb (default "" (h !! "Transfer-Encoding")) "".

(** [json.NewEncoder(w).Encode(v)]: writes to [w], which fixes the header
    with [http.StatusOK] when no [WriteHeader] has done so.  The header is
    sent with the first bytes of the body, and a content type that is
    missing then is sniffed from them (a later write finds it set). *)
Definition Encode (v : Payload) (w : ResponseWriter) : ResponseWriter :=
  let w' := WriteHeader 200 w in
  {| header := header w'; wroteHeader := wroteHeader w';
     statusCode := statusCode w';
     sentHeader :=
       if sniffs (sentHeader w')
       then <["Content-Type" := DetectContentType v]> (sentHeader w')
       else sentHeader w';
     body := (body w' ++ [v])%list |}.

Definition StatusOK : Z := 200.
Definition StatusBadRequest : Z := 400.
Definition StatusMethodNotAllowed : Z := 405.
Definition MethodGet : string := "GET".
Definition MethodPost : string := "POST".

Definition writeErrorResponse (statusCode : Z) (message : string)
    (w : ResponseWriter) : ResponseWriter :=
  Encode (ErrorMap message)
    (WriteHeader statusCode
       (HeaderSet "Content-Type" "application/json" w)).

Definition handlePark (method : string) (decoded : string + ParkRequest)
    (w : ResponseWriter) (r : InMemoryParkingRepository)
  : option (ResponseWriter * InMemoryParkingRepository) :=
  if negb (String.eqb method MethodPost)
  then Some (writeErrorResponse StatusMethodNotAllowed
               "Only POST method is allowed" w, r)
  else
    match decoded with
    | inl err =>
        Some (writeErrorResponse StatusBadRequest ("Invalid JSON: " ++ err) w,
              r)
    | inr req =>
        match Parking.Park (ParkRequest_VehicleType req)
                (ParkRequest_VehicleNumber req) r with
        | (_, Panic) => None
        | (r', Err e) =>
            Some (Encode (OfParkResponse
                            {| ParkResponse_SpotID := "";
                               ParkResponse_Error := e |})
                    (HeaderSet "Content-Type" "application/json"
                       (WriteHeader StatusBadRequest w)), r')
        | (r', Ok spotID) =>
            Some (Encode (OfParkResponse
                            {| ParkResponse_SpotID := spotID;
                               ParkResponse_Error := "" |})
                    (HeaderSet "Content-Type" "application/json" w), r')
        end
    end.

Definition handleUnpark (method : string) (decoded : string + UnparkRequest)
    (w : ResponseWriter) (r : InMemoryParkingRepository)
  : option (ResponseWriter * InMemoryParkingRepository) :=
  if negb (String.eqb method MethodPost)
  then Some (writeErrorResponse StatusMethodNotAllowed
               "Only POST method is allowed" w, r)
  else
    match decoded with
    | inl err =>
        Some (writeErrorResponse StatusBadRequest ("Invalid JSON: " ++ err) w,
              r)
    | inr req =>
        match Parking.Unpark (UnparkRequest_SpotID req)
                (UnparkRequest_VehicleNumber req) r with
        | (_, Panic) => None
        | (r', Err e) =>
            Some (Encode (OfUnparkResponse
                            {| UnparkResponse_Success := false;
                               UnparkResponse_Error := e |})
                    (HeaderSet "Content-Type" "application/json"
                       (WriteHeader StatusBadRequest w)), r')
        | (r', Ok _) =>
            Some (Encode (OfUnparkResponse
                            {| UnparkResponse_Success := true;
                               UnparkResponse_Error := "" |})
                    (HeaderSet "Content-Type" "application/json" w), r')
        end
    end.

Definition handleAvailableSpots (method : string) (vehicleType : string)
    (w : ResponseWriter) (r : InMemoryParkingRepository)
  : option (ResponseWriter * InMemoryParkingRepository) :=
  if negb (String.eqb method MethodGet)
  then Some (writeErrorResponse StatusMethodNotAllowed
               "Only GET method is allowed" w, r)
  else if String.eqb vehicleType ""
  then Some (writeErrorResponse StatusBadRequest
               "vehicleType query parameter is required" w, r)
  else
    match Parking.GetAvailableSpots r vehicleType with
    | Panic => None
    | Err e =>
        Some (Encode (OfAvailableSpotResponse
                        {| AvailableSpotResponse_Spots := [];
                           AvailableSpotResponse_Error := e |})
                (HeaderSet "Content-Type" "application/json"
                   (WriteHeader StatusBadRequest w)), r)
    | Ok spots =>
        Some (Encode (OfAvailableSpotResponse
                        {| AvailableSpotResponse_Spots := spots;
                           AvailableSpotResponse_Error := "" |})
                (HeaderSet "Content-Type" "application/json" w), r)
    end.

Definition handleSearchVehicle (method : string) (vehicleNumber : string)
    (w : ResponseWriter) (r : InMemoryParkingRepository)
  : option (ResponseWriter * InMemoryParkingRepository) :=
  if negb (String.eqb method MethodGet)
  then Some (writeErrorResponse StatusMethodNotAllowed
               "Only GET method is allowed" w, r)
  else if String.eqb vehicleNumber ""
  then Some (writeErrorResponse StatusBadRequest
               "vehicleNumber query parameter is required" w, r)
  else
    match Parking.SearchVehicle r vehicleNumber with
    | Panic => None
    | Err e =>
        Some (Encode (OfSearchVehicleResponse
                        {| SearchVehicleResponse_SpotID := "";
                           SearchVehicleResponse_IsParked := false;
                           SearchVehicleResponse_WasParked := false;
                           SearchVehicleResponse_Error := e |})
                (HeaderSet "Content-Type" "application/json"
                   (WriteHeader StatusBadRequest w)), r)
    | Ok (spotID, isParked) =>
        Some (Encode (OfSearchVehicleResponse
                        {| SearchVehicleResponse_SpotID := spotID;
                           SearchVehicleResponse_IsParked := isParked;
                           SearchVehicleResponse_WasParked :=
                             negb (String.eqb spotID "");
                           SearchVehicleResponse_Error := "" |})
                (HeaderSet "Content-Type" "application/json" w), r)
    end.

End Handler.

(** ** Further vocabulary *)

(** Values of Go's [int]. *)
Definition isInt (n : Z) : Prop := - 2 ^ 63 ≤ n < 2 ^ 63.

(** The identifiers of all free spots of a type, in the order floor, row,
    column. *)
Definition freeIDs (r : InMemoryParkingRepository) (vehicleType : string)
  : list string :=
  f ← seqZ 0 (floors r);
  row ← seqZ 0 (rows r);
  col ← seqZ 0 (columns r);
  match spotAt r f row col with
  | Some spot =>
      if available vehicleType spot then [Fmt.Sprintf_d_d_d f row col] else []
  | None => []
  end.

(** The same list, by cell, by row and by floor. *)
Definition freeIDsAt (r : InMemoryParkingRepository) (vehicleType : string)
    (f row col : Z) : list string :=
  match spotAt r f row col with
  | Some spot =>
      if available vehicleType spot then [Fmt.Sprintf_d_d_d f row col] else []
  | None => []
  end.

Definition freeIDsRow (r : InMemoryParkingRepository) (vehicleType : string)
    (f row : Z) : list string :=
  seqZ 0 (columns r) ≫= freeIDsAt r vehicleType f row.

Definition freeIDsFloor (r : InMemoryParkingRepository) (vehicleType : string)
    (f : Z) : list string :=
  seqZ 0 (rows r) ≫= freeIDsRow r vehicleType f.

(** The identifier is in the list that [GetAvailableSpots] returns. *)
Definition listed (r : InMemoryParkingRepository) (vehicleType : string)
    (spotID : string) : Prop :=
  ∃ l, Repository.GetAvailableSpots r vehicleType = Ok l ∧ spotID ∈ l.

(** A spot is configured in one of the four ways the service offers. *)
Definition configOK (spot : ParkingSpot) : Prop :=
  (IsActive spot = true ∧
   (VehicleType spot = Bicycle ∨ VehicleType spot = Motorcycle ∨
    VehicleType spot = Automobile)) ∨
  (IsActive spot = false ∧ VehicleType spot = "").

(** The grid has spots at the valid locations only, each spot records its
    own location and is configured in one of the four ways. *)
Definition layoutOK (r : InMemoryParkingRepository) : Prop :=
  ∀ f row col spot, spotAt r f row col = Some spot →
    isValidLocation r f row col = true ∧
    Floor spot = f ∧ Row spot = row ∧ Column spot = col ∧
    configOK spot.

(** The vehicle is known to the repository: parked now or before. *)
Definition known (r : InMemoryParkingRepository) (v : string) : Prop :=
  is_Some (vehicleMap r !! v) ∨ is_Some (vehicleHistory r !! v).

(** The table of the type codes in [ParkingService.ConfigureSpot]. *)
Definition spotTypeOf (spotType : string) : option (string * bool) :=
  if String.eqb spotType "B-1" then Some (Bicycle, true)
  else if String.eqb spotType "M-1" then Some (Motorcycle, true)
  else if String.eqb spotType "A-1" then Some (Automobile, true)
  else if String.eqb spotType "X-0" then Some ("", false)
  else None.

(** Every recorded last spot is the identifier of a valid location. *)
Definition historyOK (r : InMemoryParkingRepository) : Prop :=
  ∀ v s, vehicleHistory r !! v = Some s →
    ∃ f row col, s = Fmt.Sprintf_d_d_d f row col ∧
                 isValidLocation r f row col = true.

(** The vehicle a request is about. *)
Definition vehicleOf (q : Request) : option string :=
  match q with
  | ReqPark _ v => Some v
  | ReqUnpark _ v => Some v
  | _ => None
  end.

(** ** What overlapping requests keep *)

(** Every current spot is the identifier of a valid location. *)
Definition currentIDsOK (r : InMemoryParkingRepository) : Prop :=
  ∀ v s, vehicleMap r !! v = Some s →
    ∃ f row col, s = Fmt.Sprintf_d_d_d f row col ∧
                 isValidLocation r f row col = true.

Record servedOK (r : InMemoryParkingRepository) : Prop := {
  served_wf : wellFormed r;
  served_grid : gridOK r;
  served_layout : layoutOK r;
  served_current : currentIDsOK r;
  served_history : historyOK r
}.

Definition activeAt (r : InMemoryParkingRepository) (f row col : Z) : Prop :=
  ∃ spot, spotAt r f row col = Some spot ∧ IsActive spot = true.

(** What a goroutine has established by the point it has reached. *)
Definition goroutineOK (r : InMemoryParkingRepository)
    (g : Server.Goroutine) : Prop :=
  match g with
  | Server.GoPark (Concurrent.AfterCheck _ v) => v ≠ ""
  | Server.GoPark (Concurrent.AfterFind spotID v) =>
      v ≠ "" ∧
      ∃ f row col, spotID = Fmt.Sprintf_d_d_d f row col ∧
                   isValidLocation r f row col = true ∧ activeAt r f row col
  | Server.GoUnpark (Server.UAfterParse f row col _) =>
      isValidLocation r f row col = true
  | _ => True
  end.

(** What a repository call of one goroutine leaves to the others. *)
Definition sameLot (r r' : InMemoryParkingRepository) : Prop :=
  floors r' = floors r ∧ rows r' = rows r ∧ columns r' = columns r ∧
  ∀ f row col, activeAt r f row col → activeAt r' f row col.

(** * Facts about printing and scanning spot identifiers *)

(** [append] does not unfold under [simpl]; this exposes its equations. *)
Ltac step_append :=
  repeat first
    [ progress change (String ?c ?s ++ ?t) with (String c (s ++ t))
    | progress change (EmptyString ++ ?t) with t ].

Section FmtFacts.
Import Fmt.

Lemma append_assoc (s1 s2 s3 : string) :
  (s1 ++ s2) ++ s3 = s1 ++ (s2 ++ s3).
Proof. induction s1 as [|c s1 IH]; step_append; [done | by f_equal]. Qed.

Lemma append_nil_r (s : string) : s ++ "" = s.
Proof. induction s as [|c s IH]; step_append; [done | by f_equal]. Qed.

Lemma digit_ind (P : ascii → Prop) :
  P "0"%char → P "1"%char → P "2"%char → P "3"%char → P "4"%char →
  P "5"%char → P "6"%char → P "7"%char → P "8"%char → P "9"%char →
  ∀ c, isDigit c = true → P c.
Proof.
  intros ? ? ? ? ? ? ? ? ? ? c Hc.
  unfold isDigit, decimalDigits in Hc. simpl in Hc.
  repeat (apply orb_prop in Hc as [Hc|Hc]);
    try (apply Ascii.eqb_eq in Hc; subst c; assumption).
  discriminate.
Qed.

(** Reading a rune consumes input, so the fuel of [SkipSpace] is never
    used up: more fuel does not change the result. *)
Lemma DecodeRune_shorter s r rest :
  DecodeRune s = Some (r, rest) →
  (String.length rest < String.length s)%nat.
Proof.
  unfold DecodeRune. destruct s as [|b0 s1]; [done|].
  repeat case_match; intros [= <- <-]; subst; cbn [String.length]; lia.
Qed.

Lemma SkipSpace_fuel_enough n s :
  (String.length s ≤ n)%nat → SkipSpace_fuel n s = SkipSpace s.
Proof.
  unfold SkipSpace.
  assert (∀ n m s, (String.length s ≤ n)%nat → (String.length s ≤ m)%nat →
                   SkipSpace_fuel n s = SkipSpace_fuel m s) as Hany.
  { clear. induction n as [|n IH]; intros [|m] s' Hn Hm; try done.
    - destruct s'; [done|]. cbn [String.length] in Hn. lia.
    - destruct s'; [done|]. cbn [String.length] in Hm. lia.
    - cbn [SkipSpace_fuel].
      destruct (DecodeRune s') as [[r rest]|] eqn:Hdec; [|done].
      apply DecodeRune_shorter in Hdec.
      destruct (r =? 10); [done|]. destruct (isSpace r); [|done].
      apply IH; lia. }
  intros Hn. by apply Hany.
Qed.

Lemma SkipSpace_digit c s :
  isDigit c = true → SkipSpace (String c s) = Some (String c s).
Proof.
  intros Hc. revert s. pattern c. revert c Hc.
  apply digit_ind; intros s; reflexivity.
Qed.

Lemma accept_sign_digit c s :
  isDigit c = true → accept sign (String c s) = ("", String c s).
Proof.
  intros Hc. revert s. pattern c. revert c Hc.
  apply digit_ind; intros s; reflexivity.
Qed.

Lemma acceptAll_digits ds rest :
  allDigits ds = true → noDigitAhead rest = true →
  acceptAll decimalDigits (ds ++ rest) = (ds, rest).
Proof.
  intros Hds Hrest. induction ds as [|c ds IH]; step_append.
  - destruct rest as [|c rest]; [done|]. cbn [noDigitAhead] in Hrest.
    unfold isDigit in Hrest. apply negb_true_iff in Hrest.
    cbn [acceptAll]. by rewrite Hrest.
  - cbn [allDigits] in Hds. apply andb_prop in Hds as [Hc Hds].
    unfold isDigit in Hc. cbn [acceptAll]. rewrite Hc, (IH Hds). done.
Qed.

Lemma acceptAll_digits_end ds :
  allDigits ds = true → acceptAll decimalDigits ds = (ds, "").
Proof.
  intros Hds. rewrite <- (append_nil_r ds) at 1. by apply acceptAll_digits.
Qed.

Lemma uint_of_digits ds :
  allDigits ds = true → is_Some (NilEmpty.uint_of_string ds).
Proof.
  induction ds as [|c ds IH]; cbn [allDigits NilEmpty.uint_of_string];
    [by eexists|].
  intros H. apply andb_prop in H as [Hc Hds].
  destruct (IH Hds) as [d ->]. pattern c.
  revert c Hc. apply digit_ind; by eexists.
Qed.

Lemma ParseInt_digits ds :
  isDecimal ds = true → digitsValue ds < 2 ^ 63 →
  ParseInt ds = Some (digitsValue ds).
Proof.
  destruct ds as [|c ds]; [done|]. cbn [isDecimal]. intros Hds.
  destruct (uint_of_digits _ Hds) as [d Hd].
  unfold digitsValue. rewrite Hd. intros Hlt.
  assert (ParseInt (String c ds)
          = match NilZero.uint_of_string (String c ds) with
            | Some d' =>
                if 2 ^ 63 <=? Z.of_uint d' then None else Some (Z.of_uint d')
            | None => None
            end) as ->.
  { cbn [allDigits] in Hds. apply andb_prop in Hds as [Hc _].
    clear Hd Hlt. pattern c. revert c Hc. apply digit_ind; reflexivity. }
  cbn [NilZero.uint_of_string]. rewrite Hd.
  destruct (Z.leb_spec (2 ^ 63) (Z.of_uint d)); [lia | done].
Qed.

(** One [%d] on a run of digits: the run is consumed whole. *)
Lemma scanInt_digits ds rest :
  isDecimal ds = true → noDigitAhead rest = true →
  digitsValue ds < 2 ^ 63 →
  scanInt (ds ++ rest) = Some (digitsValue ds, rest).
Proof.
  intros Hdec Hrest Hlt. pose proof (ParseInt_digits _ Hdec Hlt) as Hparse.
  destruct ds as [|c ds]; [done|].
  cbn [isDecimal] in Hdec. pose proof Hdec as Hall.
  cbn [allDigits] in Hdec. apply andb_prop in Hdec as [Hc Hds].
  unfold scanInt. change (String c ds ++ rest) with (String c (ds ++ rest)).
  rewrite (SkipSpace_digit _ _ Hc). cbn [mbind option_bind].
  rewrite (accept_sign_digit _ _ Hc).
  change (String c (ds ++ rest)) with (String c ds ++ rest).
  rewrite (acceptAll_digits _ _ Hall Hrest).
  change ("" ++ String c ds) with (String c ds). rewrite Hparse. done.
Qed.

(** Three runs of digits joined by ['-'] scan to their values, whatever
    follows the third run. *)
Lemma Sscanf_digits d1 d2 d3 rest :
  isDecimal d1 = true → isDecimal d2 = true → isDecimal d3 = true →
  digitsValue d1 < 2 ^ 63 → digitsValue d2 < 2 ^ 63 →
  digitsValue d3 < 2 ^ 63 → noDigitAhead rest = true →
  Sscanf_d_d_d (d1 ++ "-" ++ d2 ++ "-" ++ d3 ++ rest)
  = Some (digitsValue d1, digitsValue d2, digitsValue d3).
Proof.
  intros H1 H2 H3 V1 V2 V3 Hrest. unfold Sscanf_d_d_d.
  rewrite (scanInt_digits d1) by done. step_append.
  cbn [mbind option_bind literal].
  change (Ascii.eqb "-" "-") with true. cbn [mbind option_bind].
  rewrite (scanInt_digits d2) by done. step_append.
  cbn [mbind option_bind literal].
  change (Ascii.eqb "-" "-") with true. cbn [mbind option_bind].
  rewrite (scanInt_digits d3) by done. done.
Qed.

Lemma string_of_uint_digits d :
  allDigits (NilEmpty.string_of_uint d) = true.
Proof. induction d; simpl; auto. Qed.

(** What [%d] prints for a natural number is a run of digits that
    denotes it. *)
Lemma formatInt_decimal n :
  0 ≤ n → isDecimal (formatInt n) = true ∧ digitsValue (formatInt n) = n.
Proof.
  intros Hn. destruct n as [|p|p]; [done| |lia].
  unfold formatInt. cbn [Z.to_int NilZero.string_of_int].
  pose proof (Unsigned.to_uint_nonnil p) as Hnil.
  assert (NilZero.string_of_uint (Pos.to_uint p)
          = NilEmpty.string_of_uint (Pos.to_uint p)) as ->.
  { by destruct (Pos.to_uint p). }
  split.
  - pose proof (string_of_uint_digits (Pos.to_uint p)) as Hall.
    destruct (Pos.to_uint p); done.
  - unfold digitsValue. rewrite NilEmpty.usu. unfold Z.of_uint.
    by rewrite Unsigned.of_to.
Qed.

(** Scanning a printed identifier gives the coordinates back, also when
    text that does not start with a digit follows. *)
Lemma Sscanf_Sprintf_app a b c rest :
  0 ≤ a < 2 ^ 63 → 0 ≤ b < 2 ^ 63 → 0 ≤ c < 2 ^ 63 →
  noDigitAhead rest = true →
  Sscanf_d_d_d (Sprintf_d_d_d a b c ++ rest) = Some (a, b, c).
Proof.
  intros Ha Hb Hc Hrest. unfold Sprintf_d_d_d.
  destruct (formatInt_decimal a) as [Da Va]; [lia|].
  destruct (formatInt_decimal b) as [Db Vb]; [lia|].
  destruct (formatInt_decimal c) as [Dc Vc]; [lia|].
  rewrite !append_assoc.
  rewrite (Sscanf_digits (formatInt a) (formatInt b) (formatInt c) rest);
    try done; try lia.
  by rewrite Va, Vb, Vc.
Qed.

Lemma Sscanf_Sprintf a b c :
  0 ≤ a < 2 ^ 63 → 0 ≤ b < 2 ^ 63 → 0 ≤ c < 2 ^ 63 →
  Sscanf_d_d_d (Sprintf_d_d_d a b c) = Some (a, b, c).
Proof.
  intros Ha Hb Hc. rewrite <- (append_nil_r (Sprintf_d_d_d a b c)).
  by apply Sscanf_Sprintf_app.
Qed.

Lemma Sprintf_inj a b c a' b' c' :
  0 ≤ a < 2 ^ 63 → 0 ≤ b < 2 ^ 63 → 0 ≤ c < 2 ^ 63 →
  0 ≤ a' < 2 ^ 63 → 0 ≤ b' < 2 ^ 63 → 0 ≤ c' < 2 ^ 63 →
  Sprintf_d_d_d a b c = Sprintf_d_d_d a' b' c' →
  a = a' ∧ b = b' ∧ c = c'.
Proof.
  intros Ha Hb Hc Ha' Hb' Hc' Heq.
  pose proof (Sscanf_Sprintf a b c Ha Hb Hc) as H1.
  rewrite Heq, (Sscanf_Sprintf a' b' c' Ha' Hb' Hc') in H1.
  by inversion H1.
Qed.

End FmtFacts.

(** * The language of the scanner *)

Section ScannerLanguage.
Import Fmt.

Lemma byte_ascii b : ascii_of_N (Z.to_N (byte b)) = b.
Proof. unfold byte. by rewrite N2Z.id, ascii_N_embedding. Qed.

Lemma byte_range b : 0 ≤ byte b < 256.
Proof.
  unfold byte. pose proof (N_ascii_bounded b) as H.
  split; [apply N2Z.is_nonneg|]. change 256 with (Z.of_N 256). lia.
Qed.

Lemma between_spec lo hi x : between lo hi x = true ↔ lo ≤ x ≤ hi.
Proof. unfold between. rewrite andb_true_iff, !Z.leb_le. done. Qed.

Lemma isSpace_small r : isSpace r = true → r ≤ 0x3000.
Proof.
  unfold isSpace. rewrite !orb_true_iff, !between_spec, !Z.eqb_eq. lia.
Qed.

(** The runes of one, two and three bytes that are blanks, by
    enumeration of the well-formed encodings. *)
Lemma blank_of_one_byte x :
  0 ≤ x < 0x80 → isSpace x = true → (x =? 10) = false → [x] ∈ blankCodes.
Proof.
  intros Hx Hsp Hnl.
  assert (forallb (λ x, if isSpace x && negb (x =? 10)
                        then bool_decide ([x] ∈ blankCodes) else true)
            (seqZ 0 0x80) = true) as Hall by (vm_compute; reflexivity).
  rewrite forallb_forall in Hall. specialize (Hall x).
  rewrite Hsp, Hnl in Hall. cbn [andb negb] in Hall.
  eapply bool_decide_eq_true, Hall, list_elem_of_In, elem_of_seqZ. lia.
Qed.

Lemma blank_of_two_bytes x y :
  between 0xC2 0xDF x = true → between 0x80 0xBF y = true →
  isSpace (Z.lor (Z.shiftl (Z.land x 0x1F) 6) (Z.land y 0x3F)) = true →
  [x; y] ∈ blankCodes.
Proof.
  intros Hx Hy Hsp. apply between_spec in Hx, Hy.
  assert (forallb (λ x, forallb (λ y,
            if isSpace (Z.lor (Z.shiftl (Z.land x 0x1F) 6) (Z.land y 0x3F))
            then bool_decide ([x; y] ∈ blankCodes) else true)
            (seqZ 0x80 64)) (seqZ 0xC2 30) = true) as Hall
    by (vm_compute; reflexivity).
  rewrite forallb_forall in Hall. specialize (Hall x).
  rewrite forallb_forall in Hall. specialize (λ H, Hall H y).
  rewrite Hsp in Hall.
  eapply bool_decide_eq_true, Hall; apply list_elem_of_In, elem_of_seqZ; lia.
Qed.

Lemma blank_of_three_bytes x y z :
  between 0xE0 0xEF x = true →
  between (if x =? 0xE0 then 0xA0 else 0x80)
          (if x =? 0xED then 0x9F else 0xBF) y = true →
  between 0x80 0xBF z = true →
  isSpace (Z.lor (Z.shiftl (Z.land x 0x0F) 12)
             (Z.lor (Z.shiftl (Z.land y 0x3F) 6) (Z.land z 0x3F))) = true →
  [x; y; z] ∈ blankCodes.
Proof.
  intros Hx Hy Hz Hsp.
  assert (0x80 ≤ y ≤ 0xBF) as Hy'.
  { apply between_spec in Hy. by repeat case_match; lia. }
  apply between_spec in Hx, Hz.
  assert (forallb (λ x, forallb (λ y, forallb (λ z,
            if between (if x =? 0xE0 then 0xA0 else 0x80)
                       (if x =? 0xED then 0x9F else 0xBF) y
            then if isSpace (Z.lor (Z.shiftl (Z.land x 0x0F) 12)
                               (Z.lor (Z.shiftl (Z.land y 0x3F) 6)
                                      (Z.land z 0x3F)))
                 then bool_decide ([x; y; z] ∈ blankCodes) else true
            else true)
            (seqZ 0x80 64)) (seqZ 0x80 64)) (seqZ 0xE0 16) = true) as Hall
    by (vm_compute; reflexivity).
  rewrite forallb_forall in Hall. specialize (Hall x).
  rewrite forallb_forall in Hall. specialize (λ H, Hall H y).
  rewrite forallb_forall in Hall. specialize (λ H1 H2, Hall H1 H2 z).
  rewrite Hy, Hsp in Hall.
  eapply bool_decide_eq_true, Hall; apply list_elem_of_In, elem_of_seqZ; lia.
Qed.

(** A rune of four bytes is above U+FFFF, hence no blank. *)
Lemma no_blank_of_four_bytes x y z w :
  between 0xF0 0xF4 x = true →
  between (if x =? 0xF0 then 0x90 else 0x80)
          (if x =? 0xF4 then 0x8F else 0xBF) y = true →
  isSpace (Z.lor (Z.shiftl (Z.land x 0x07) 18)
             (Z.lor (Z.shiftl (Z.land y 0x3F) 12)
                (Z.lor (Z.shiftl (Z.land z 0x3F) 6) (Z.land w 0x3F))))
  = false.
Proof.
  intros Hx Hy.
  assert (0x80 ≤ y ≤ 0xBF) as Hy'.
  { apply between_spec in Hy. by repeat case_match; lia. }
  apply between_spec in Hx.
  assert (forallb (λ x, forallb (λ y,
            if between (if x =? 0xF0 then 0x90 else 0x80)
                       (if x =? 0xF4 then 0x8F else 0xBF) y
            then 16 <=? Z.log2 (Z.lor (Z.shiftl (Z.land x 0x07) 18)
                                  (Z.shiftl (Z.land y 0x3F) 12))
            else true) (seqZ 0x80 64)) (seqZ 0xF0 5) = true) as Hall
    by (vm_compute; reflexivity).
  rewrite forallb_forall in Hall. specialize (Hall x).
  rewrite forallb_forall in Hall. specialize (λ H, Hall H y).
  rewrite Hy in Hall.
  assert (16 ≤ Z.log2 (Z.lor (Z.shiftl (Z.land x 0x07) 18)
                         (Z.shiftl (Z.land y 0x3F) 12))) as Hlog.
  { apply Z.leb_le, Hall; apply list_elem_of_In, elem_of_seqZ; lia. }
  clear Hall. rewrite Z.lor_assoc.
  set (q := Z.lor (Z.shiftl (Z.land x 0x07) 18) (Z.shiftl (Z.land y 0x3F) 12))
    in *.
  set (t := Z.lor (Z.shiftl (Z.land z 0x3F) 6) (Z.land w 0x3F)).
  assert (0 ≤ q) as Hq.
  { apply Z.lor_nonneg. split; apply Z.shiftl_nonneg, Z.land_nonneg; lia. }
  assert (0 ≤ t) as Ht.
  { apply Z.lor_nonneg. split; [apply Z.shiftl_nonneg|];
      apply Z.land_nonneg; lia. }
  destruct (isSpace (Z.lor q t)) eqn:Hsp; [|done]. exfalso.
  apply isSpace_small in Hsp.
  assert (16 ≤ Z.log2 (Z.lor q t)) as Hlog'.
  { rewrite Z.log2_lor by done. lia. }
  assert (0 < Z.lor q t) as Hpos.
  { destruct (Z.lor q t) eqn:E; try lia. by vm_compute in Hlog'.
    pose proof (proj2 (Z.lor_nonneg q t) (conj Hq Ht)). lia. }
  apply Z.log2_le_pow2 in Hlog'; [|done]. lia.
Qed.


Lemma bytes_app code t :
  bytes code ++ t = foldr (λ b s, String (ascii_of_N (Z.to_N b)) s) t code.
Proof. induction code as [|b code IH]; [done|]. cbn [bytes foldr]. step_append. by f_equal. Qed.

(** A decoded blank is one of the listed encodings. *)
Lemma DecodeRune_blank s r rest :
  DecodeRune s = Some (r, rest) → isSpace r = true → (r =? 10) = false →
  ∃ code, code ∈ blankCodes ∧ s = bytes code ++ rest.
Proof.
  assert (isSpace RuneError = false) as Hinvalid by reflexivity.
  destruct s as [|b0 s1]; [done|]. cbn [DecodeRune].
  pose proof (byte_range b0) as Hb0.
  destruct (Z.ltb_spec (byte b0) 0x80).
  { intros [= <- <-] Hsp Hnl. exists [byte b0]. split.
    - apply blank_of_one_byte; [lia|done..].
    - cbn [bytes foldr]. by rewrite byte_ascii. }
  destruct (between 0xC2 0xDF (byte b0)) eqn:H2.
  { destruct s1 as [|b1 s2]; [intros [= <- <-]; congruence|].
    destruct (between 0x80 0xBF (byte b1)) eqn:Hb1;
      [|intros [= <- <-]; congruence].
    intros [= <- <-] Hsp _. exists [byte b0; byte b1]. split.
    - by apply blank_of_two_bytes.
    - cbn [bytes foldr]. by rewrite !byte_ascii. }
  destruct (between 0xE0 0xEF (byte b0)) eqn:H3.
  { destruct s1 as [|b1 [|b2 s3]]; try (intros [= <- <-]; congruence).
    destruct (between _ _ (byte b1)) eqn:Hb1; cbn [andb];
      [|intros [= <- <-]; congruence].
    destruct (between 0x80 0xBF (byte b2)) eqn:Hb2;
      [|intros [= <- <-]; congruence].
    intros [= <- <-] Hsp _. exists [byte b0; byte b1; byte b2]. split.
    - by apply blank_of_three_bytes.
    - cbn [bytes foldr]. by rewrite !byte_ascii. }
  destruct (between 0xF0 0xF4 (byte b0)) eqn:H4;
    [|intros [= <- <-]; congruence].
  destruct s1 as [|b1 [|b2 [|b3 s4]]]; try (intros [= <- <-]; congruence).
  destruct (between _ _ (byte b1)) eqn:Hb1; cbn [andb];
    [|intros [= <- <-]; congruence].
  destruct (_ && _); [|intros [= <- <-]; congruence].
  intros [= <- <-] Hsp _.
  by rewrite no_blank_of_four_bytes in Hsp.
Qed.

(** Each listed encoding decodes to a blank. *)
Lemma DecodeRune_blankCodes code :
  code ∈ blankCodes →
  ∃ r, (∀ t, DecodeRune (bytes code ++ t) = Some (r, t)) ∧
       isSpace r = true ∧ (r =? 10) = false.
Proof.
  unfold blankCodes. rewrite !elem_of_cons, elem_of_nil.
  intros H. repeat destruct H as [->|H]; try done;
    (eexists; split; [intros t; reflexivity|split; reflexivity]).
Qed.

Lemma SkipSpace_step s r rest :
  DecodeRune s = Some (r, rest) →
  SkipSpace s =
    if r =? 10 then None else if isSpace r then SkipSpace rest else Some s.
Proof.
  intros Hdec. pose proof (DecodeRune_shorter _ _ _ Hdec) as Hlen.
  unfold SkipSpace at 1. destruct s as [|b s1]; [done|].
  cbn [String.length SkipSpace_fuel]. rewrite Hdec.
  destruct (r =? 10); [done|]. destruct (isSpace r); [|done].
  apply SkipSpace_fuel_enough. cbn [String.length] in Hlen. lia.
Qed.

Lemma SkipSpace_nil : SkipSpace "" = Some "".
Proof. reflexivity. Qed.

(** What [SkipSpace] skips are blanks. *)
Lemma SkipSpace_inv s s0 :
  SkipSpace s = Some s0 → ∃ sp, blanks sp ∧ s = sp ++ s0.
Proof.
  remember (String.length s) as n eqn:Hn. revert s Hn.
  induction n as [n IH] using lt_wf_ind. intros s -> Hskip.
  destruct (DecodeRune s) as [[r rest]|] eqn:Hdec.
  - rewrite (SkipSpace_step s r rest Hdec) in Hskip.
    destruct (r =? 10) eqn:Hnl; [done|].
    destruct (isSpace r) eqn:Hsp.
    + destruct (DecodeRune_blank s r rest Hdec Hsp Hnl) as (code & Hcode & ->).
      apply DecodeRune_shorter in Hdec.
      destruct (IH _ Hdec rest eq_refl Hskip) as (sp & Hsp' & ->).
      exists (bytes code ++ sp). split; [by constructor|].
      by rewrite append_assoc.
    + injection Hskip as <-. exists "". split; [constructor|done].
  - destruct s; [|by destruct s; cbn in Hdec; repeat case_match].
    injection Hskip as <-. exists "". split; [constructor|done].
Qed.

(** Blanks are skipped up to input at which [SkipSpace] stops. *)
Lemma SkipSpace_blanks sp s0 :
  blanks sp → SkipSpace s0 = Some s0 → SkipSpace (sp ++ s0) = Some s0.
Proof.
  intros Hsp Hstop. induction Hsp as [|code sp Hcode _ IH]; [done|].
  destruct (DecodeRune_blankCodes code Hcode) as (r & Hdec & Hspace & Hnl).
  rewrite append_assoc, (SkipSpace_step _ r (sp ++ s0) (Hdec _)).
  by rewrite Hnl, Hspace.
Qed.


Lemma SkipSpace_stops c s :
  inSet c sign || inSet c decimalDigits = true →
  SkipSpace (String c s) = Some (String c s).
Proof.
  cbn [inSet sign decimalDigits]. rewrite !orb_true_iff, !Ascii.eqb_eq.
  intros H. repeat destruct H as [H|H]; subst; done.
Qed.

Lemma accept_sign_inv s0 sg s1 :
  accept sign s0 = (sg, s1) → sg ∈ signs ∧ s0 = sg ++ s1.
Proof.
  unfold accept, signs. destruct s0 as [|c s0]; [intros [= <- <-]; set_solver|].
  destruct (inSet c sign) eqn:Hc; [|intros [= <- <-]; set_solver].
  intros [= <- <-]. split; [|done]. revert Hc. cbn [inSet sign].
  rewrite !orb_true_iff, !Ascii.eqb_eq. intros [->|[->|?]]; set_solver.
Qed.

Lemma accept_sign c s :
  accept sign (String c s) =
    if inSet c sign then (String c "", s) else ("", String c s).
Proof. done. Qed.

Lemma acceptAll_inv s ds rest :
  acceptAll decimalDigits s = (ds, rest) →
  allDigits ds = true ∧ s = ds ++ rest ∧ noDigitAhead rest = true.
Proof.
  revert ds. induction s as [|c s IH]; intros ds; cbn [acceptAll].
  { by intros [= <- <-]. }
  destruct (inSet c decimalDigits) eqn:Hc.
  - destruct (acceptAll decimalDigits s) as [tok rest'].
    intros [= <- <-]. destruct (IH tok eq_refl) as (Hall & -> & Hno).
    cbn [allDigits]. unfold isDigit. by rewrite Hc, Hall.
  - intros [= <- <-]. split_and!; [done..|].
    cbn [noDigitAhead]. unfold isDigit. by rewrite Hc.
Qed.

(** [ParseInt] on a sign and a run of digits: the signed value, when it
    fits 64 bits. *)
Lemma ParseInt_signed sg ds n :
  sg ∈ signs → isDecimal ds = true →
  ParseInt (sg ++ ds) = Some n ↔
  n = signedValue sg ds ∧ - 2 ^ 63 ≤ n < 2 ^ 63.
Proof.
  intros Hsg Hdec. destruct ds as [|c ds]; [done|]. cbn [isDecimal] in Hdec.
  destruct (uint_of_digits _ Hdec) as [d Hd].
  assert (0 ≤ Z.of_uint d) as Hpos.
  { unfold Z.of_uint. lia. }
  assert (ParseInt (sg ++ String c ds) =
          if String.eqb sg "-"
          then (if 2 ^ 63 <? Z.of_uint d then None else Some (- Z.of_uint d))
          else (if 2 ^ 63 <=? Z.of_uint d then None else Some (Z.of_uint d)))
    as ->.
  { unfold signs in Hsg. rewrite !elem_of_cons, elem_of_nil in Hsg.
    destruct Hsg as [->|[->|[->|[]]]]; step_append.
    - cbn [allDigits] in Hdec. apply andb_prop in Hdec as [Hc _].
      transitivity
        (match NilZero.uint_of_string (String c ds) with
         | Some d' =>
             if 2 ^ 63 <=? Z.of_uint d' then None else Some (Z.of_uint d')
         | None => None
         end).
      + clear Hd. pattern c. revert c Hc. apply digit_ind; reflexivity.
      + cbn [NilZero.uint_of_string]. by rewrite Hd.
    - unfold ParseInt. cbn [NilZero.uint_of_string]. by rewrite Hd.
    - unfold ParseInt. cbn [NilZero.uint_of_string]. by rewrite Hd. }
  unfold signedValue, digitsValue. rewrite Hd.
  destruct (String.eqb sg "-").
  - destruct (Z.ltb_spec (2 ^ 63) (Z.of_uint d)).
    + split; [done|]. intros [-> ?]. lia.
    + split; [intros [= <-]; lia|]. by intros [-> _].
  - destruct (Z.leb_spec (2 ^ 63) (Z.of_uint d)).
    + split; [done|]. intros [-> ?]. lia.
    + split; [intros [= <-]; lia|]. by intros [-> _].
Qed.

Lemma isDecimal_head ds :
  isDecimal ds = true → ∃ c ds', ds = String c ds' ∧ isDigit c = true.
Proof.
  destruct ds as [|c ds]; [done|]. cbn [isDecimal allDigits].
  intros H. apply andb_prop in H as [Hc _]. by exists c, ds.
Qed.

(** One [%d]: the scanner reads exactly the texts of integers. *)
Lemma scanInt_spec s n rest :
  scanInt s = Some (n, rest) ↔
  ∃ t, s = t ++ rest ∧ integerText t n ∧ noDigitAhead rest = true.
Proof.
  unfold scanInt. split.
  - destruct (SkipSpace s) as [s0|] eqn:Hskip; [|done]. cbn [mbind option_bind].
    apply SkipSpace_inv in Hskip as (sp & Hsp & ->).
    destruct s0 as [|c0 s0]; [done|].
    destruct (accept sign (String c0 s0)) as [sg s1] eqn:Hsg.
    apply accept_sign_inv in Hsg as [Hsg Heq]. rewrite Heq. clear Heq.
    destruct (acceptAll decimalDigits s1) as [ds s2] eqn:Hds.
    apply acceptAll_inv in Hds as (Hall & -> & Hno).
    destruct ds as [|c ds]; [done|].
    destruct (ParseInt (sg ++ String c ds)) as [m|] eqn:Hparse; [|done].
    cbn [mbind option_bind]. intros [= <- <-].
    apply ParseInt_signed in Hparse as [-> Hrange]; [|done..].
    exists (sp ++ sg ++ String c ds). split; [by rewrite !append_assoc|].
    split; [|done]. by exists sp, sg, (String c ds).
  - intros (t & -> & (sp & sg & ds & -> & Hsp & Hsg & Hdec & -> & Hrange) & Hno).
    destruct (isDecimal_head ds Hdec) as (c & ds' & -> & Hc).
    assert (∃ c0 s0, sg ++ String c ds' ++ rest = String c0 s0 ∧
              inSet c0 sign || inSet c0 decimalDigits = true ∧
              accept sign (String c0 s0) = (sg, String c ds' ++ rest))
      as (c0 & s0 & Heq & Hstop & Hacc).
    { unfold signs in Hsg. rewrite !elem_of_cons, elem_of_nil in Hsg.
      destruct Hsg as [->|[->|[->|[]]]]; step_append; eexists _, _;
        (split; [reflexivity|]); try by (split; reflexivity).
      split; [by rewrite orb_true_iff; right|].
      by apply accept_sign_digit. }
    rewrite !append_assoc, Heq.
    rewrite (SkipSpace_blanks sp _ Hsp (SkipSpace_stops _ _ Hstop)).
    cbn [mbind option_bind]. rewrite Hacc.
    change (String c ds' ++ rest) with (String c (ds' ++ rest)) at 1.
    change (String c (ds' ++ rest)) with (String c ds' ++ rest).
    rewrite (acceptAll_digits (String c ds') rest) by done.
    pose proof (proj2 (ParseInt_signed sg (String c ds') _ Hsg Hdec)
                  (conj eq_refl Hrange)) as ->.
    done.
Qed.

Lemma literal_inv c s rest : literal c s = Some rest ↔ s = String c rest.
Proof.
  unfold literal. destruct s as [|c' s]; [done|].
  destruct (Ascii.eqb_spec c c') as [->|Hne]; split; intros [= ?]; subst; done.
Qed.

Lemma literal_dash s : literal "-" ("-" ++ s) = Some s.
Proof. done. Qed.

(** The whole format: the scan succeeds exactly on the strings that begin
    with three integers joined by ['-'], and gives their values. *)
Lemma Sscanf_spec s a b c :
  Sscanf_d_d_d s = Some (a, b, c) ↔ beginsWithSpotID s a b c.
Proof.
  unfold Sscanf_d_d_d, beginsWithSpotID. split.
  - destruct (scanInt s) as [[a' s1]|] eqn:H1; [|done]. cbn [mbind option_bind].
    destruct (literal "-" s1) as [s2|] eqn:L1; [|done]. cbn [mbind option_bind].
    destruct (scanInt s2) as [[b' s3]|] eqn:H2; [|done]. cbn [mbind option_bind].
    destruct (literal "-" s3) as [s4|] eqn:L2; [|done]. cbn [mbind option_bind].
    destruct (scanInt s4) as [[c' s5]|] eqn:H3; [|done]. cbn [mbind option_bind].
    intros [= <- <- <-].
    apply literal_inv in L1 as ->. apply literal_inv in L2 as ->.
    apply scanInt_spec in H1 as (t1 & -> & Ht1 & _).
    apply scanInt_spec in H2 as (t2 & -> & Ht2 & _).
    apply scanInt_spec in H3 as (t3 & -> & Ht3 & Hno).
    by exists t1, t2, t3, s5.
  - intros (t1 & t2 & t3 & rest & -> & Ht1 & Ht2 & Ht3 & Hno).
    pose proof (proj2 (scanInt_spec (t1 ++ "-" ++ t2 ++ "-" ++ t3 ++ rest) a
                         ("-" ++ t2 ++ "-" ++ t3 ++ rest))) as ->;
      [|by exists t1].
    cbn [mbind option_bind]. rewrite literal_dash. cbn [mbind option_bind].
    pose proof (proj2 (scanInt_spec (t2 ++ "-" ++ t3 ++ rest) b
                         ("-" ++ t3 ++ rest))) as ->; [|by exists t2].
    cbn [mbind option_bind]. rewrite literal_dash. cbn [mbind option_bind].
    pose proof (proj2 (scanInt_spec (t3 ++ rest) c rest)) as ->;
      [|by exists t3].
    done.
Qed.

(** A run of digits is read whole, and rejected when its value does not
    fit. *)
Lemma scanInt_decimal ds rest :
  isDecimal ds = true → noDigitAhead rest = true →
  scanInt (ds ++ rest) =
    if digitsValue ds <? 2 ^ 63 then Some (digitsValue ds, rest) else None.
Proof.
  intros Hdec Hrest.
  destruct (Z.ltb_spec (digitsValue ds) (2 ^ 63)); [by apply scanInt_digits|].
  destruct (scanInt (ds ++ rest)) as [[n rest']|] eqn:Hscan; [|done].
  exfalso. revert Hscan. unfold scanInt.
  destruct (isDecimal_head ds Hdec) as (c & ds' & -> & Hc).
  change (String c ds' ++ rest) with (String c (ds' ++ rest)).
  rewrite (SkipSpace_digit _ _ Hc). cbn [mbind option_bind].
  rewrite (accept_sign_digit _ _ Hc).
  change (String c (ds' ++ rest)) with (String c ds' ++ rest).
  rewrite (acceptAll_digits (String c ds') rest) by done.
  destruct (ParseInt ("" ++ String c ds')) as [m|] eqn:Hparse; [|done].
  apply ParseInt_signed in Hparse as [-> Hrange];
    [|unfold signs; rewrite elem_of_cons; by left|done].
  unfold signedValue in Hrange. cbn [String.eqb] in Hrange. lia.
Qed.

End ScannerLanguage.

(** * Facts about the grid *)

Section GridFacts.

Lemma index_Some {A} (l : list A) (i : Z) (x : A) :
  index l i = Some x ↔ 0 ≤ i ∧ l !! Z.to_nat i = Some x.
Proof.
  unfold index. destruct (Z.ltb_spec i 0); split.
  - done.
  - intros [? _]; lia.
  - auto.
  - by intros [_ ?].
Qed.

Lemma spotAt_nonneg r f row col sp :
  spotAt r f row col = Some sp → 0 ≤ f ∧ 0 ≤ row ∧ 0 ≤ col.
Proof.
  unfold spotAt. intros H.
  apply bind_Some in H as (fl & Hf & H).
  apply bind_Some in H as (rw & Hr & Hc).
  apply index_Some in Hf, Hr, Hc. lia.
Qed.

Lemma isValidLocation_spec r f row col :
  isValidLocation r f row col = true ↔
  0 ≤ f < floors r ∧ 0 ≤ row < rows r ∧ 0 ≤ col < columns r.
Proof. unfold isValidLocation. rewrite !andb_true_iff. lia. Qed.

(** Reading the grid after a write through [r.spots[f][row][col]]. *)
Lemma spotAt_updateSpot r g upd f row col f' row' col' :
  spots r = updateSpot upd f row col g →
  0 ≤ f → 0 ≤ row → 0 ≤ col →
  spotAt r f' row' col' =
    if decide (f = f' ∧ row = row' ∧ col = col')
    then upd <$> (fl ← index g f; rw ← index fl row; index rw col)
    else fl ← index g f'; rw ← index fl row'; index rw col'.
Proof.
  intros Hg Hf Hrow Hcol. unfold spotAt. rewrite Hg. unfold updateSpot, index.
  destruct (Z.ltb_spec f' 0) as [Hf'|Hf'].
  { rewrite decide_False by lia. done. }
  destruct (decide (f = f')) as [<-|Hne].
  2:{ rewrite list_lookup_alter_ne by lia. rewrite decide_False by lia. done. }
  rewrite list_lookup_alter_eq.
  destruct (Z.ltb_spec f 0); [lia|].
  destruct (g !! Z.to_nat f) as [fl|]; cbn [fmap option_fmap option_map mbind option_bind];
    [|by case_decide].
  destruct (Z.ltb_spec row' 0) as [Hr'|Hr'].
  { rewrite decide_False by lia. done. }
  destruct (decide (row = row')) as [<-|Hne].
  2:{ rewrite list_lookup_alter_ne by lia. rewrite decide_False by lia. done. }
  rewrite list_lookup_alter_eq.
  destruct (Z.ltb_spec row 0); [lia|].
  destruct (fl !! Z.to_nat row) as [rw|]; cbn [fmap option_fmap option_map mbind option_bind];
    [|by case_decide].
  destruct (Z.ltb_spec col' 0) as [Hc'|Hc'].
  { rewrite decide_False by lia. done. }
  destruct (decide (col = col')) as [<-|Hne].
  2:{ rewrite list_lookup_alter_ne by lia. rewrite decide_False by lia. done. }
  rewrite list_lookup_alter_eq.
  destruct (Z.ltb_spec col 0); [lia|].
  rewrite decide_True by done. done.
Qed.

(** The grid built by [InitializeParkingLot]. *)
Lemma spotAt_initial r f' r' c' g f row col :
  spots r = (λ f, (λ row, (λ col, newSpot f row col) <$> seqZ 0 c')
                    <$> seqZ 0 r') <$> seqZ 0 f' →
  0 ≤ f < f' → 0 ≤ row < r' → 0 ≤ col < c' →
  g = newSpot f row col →
  spotAt r f row col = Some g.
Proof.
  intros Hs Hf Hr Hc ->. unfold spotAt, index. rewrite Hs.
  destruct (Z.ltb_spec f 0); [lia|].
  rewrite list_lookup_fmap, lookup_seqZ_lt by lia.
  cbn [fmap option_fmap option_map mbind option_bind].
  destruct (Z.ltb_spec row 0); [lia|].
  rewrite list_lookup_fmap, lookup_seqZ_lt by lia.
  cbn [fmap option_fmap option_map mbind option_bind].
  destruct (Z.ltb_spec col 0); [lia|].
  rewrite list_lookup_fmap, lookup_seqZ_lt by lia.
  cbn [fmap option_fmap option_map]. do 2 f_equal; lia.
Qed.

(** The loop with early return stops at the first index whose body does
    not fall through. *)
Lemma forReturn_seqZ {A} (body : Z → result (option A)) (n : Z) :
  (forReturn body (seqZ 0 n) = Ok None ∧
   ∀ j, 0 ≤ j < n → body j = Ok None) ∨
  (∃ i, 0 ≤ i < n ∧ body i ≠ Ok None ∧
        forReturn body (seqZ 0 n) = body i ∧
        ∀ j, 0 ≤ j < i → body j = Ok None).
Proof.
  assert (∀ l : list Z,
    (forReturn body l = Ok None ∧ ∀ k j, l !! k = Some j → body j = Ok None)
    ∨ (∃ k i, l !! k = Some i ∧ body i ≠ Ok None ∧
              forReturn body l = body i ∧
              ∀ k' j, (k' < k)%nat → l !! k' = Some j → body j = Ok None))
    as Hlist.
  { induction l as [|x l IH]; [left; split; [done|]; intros k j; by destruct k|].
    cbn [forReturn].
    destruct (body x) as [[a|]|e|] eqn:Hx.
    2:{ destruct IH as [[Hall Hl]|(k & i & Hk & Hi & Hres & Hpre)].
        - left. split; [done|]. intros [|k] j Hj; simplify_eq/=; eauto.
        - right. exists (S k), i. split_and!; try done.
          intros [|k'] j Hlt Hj; simplify_eq/=; [done|].
          eapply Hpre; [|done]. lia. }
    all: right; exists 0%nat, x; rewrite Hx; split_and!; try done; intros; lia. }
  destruct (Hlist (seqZ 0 n)) as [[Hres Hall]|(k & i & Hk & Hi & Hres & Hpre)].
  - left. split; [done|]. intros j Hj. apply (Hall (Z.to_nat j)).
    apply lookup_seqZ. lia.
  - right. apply lookup_seqZ in Hk as [-> Hk]. exists (0 + Z.of_nat k).
    split_and!; try done; [lia|].
    intros j Hj. apply (Hpre (Z.to_nat j)); [lia|]. apply lookup_seqZ. lia.
Qed.

End GridFacts.

(** * The availability scan *)

Section FindFacts.
Variable r : InMemoryParkingRepository.
Variable vehicleType : string.
Hypothesis Hwf : wellFormed r.

Lemma available_spec spot :
  available vehicleType spot = true ↔
  IsActive spot = true ∧ VehicleType spot = vehicleType ∧
  IsOccupied spot = false.
Proof.
  unfold available. rewrite !andb_true_iff, negb_true_iff, String.eqb_eq.
  tauto.
Qed.

Lemma scanSpot_cases f row col :
  0 ≤ f < floors r → 0 ≤ row < rows r → 0 ≤ col < columns r →
  (scanSpot r vehicleType f row col = Ok None ∧ ¬ freeAt r vehicleType f row col) ∨
  (scanSpot r vehicleType f row col = Ok (Some (Fmt.Sprintf_d_d_d f row col)) ∧
   freeAt r vehicleType f row col).
Proof.
  intros Hf Hrow Hcol. unfold scanSpot, freeAt.
  destruct (wf_spots r Hwf f row col) as [spot Hspot].
  { apply isValidLocation_spec. lia. }
  rewrite Hspot. destruct (available vehicleType spot) eqn:Hav.
  - right. split; [done|]. exists spot. by apply available_spec in Hav.
  - left. split; [done|]. intros (spot' & Hs & Hfree).
    apply available_spec in Hfree. congruence.
Qed.

Lemma scanColumns_cases f row :
  0 ≤ f < floors r → 0 ≤ row < rows r →
  (scanColumns r vehicleType f row = Ok None ∧
   ∀ col, 0 ≤ col < columns r → ¬ freeAt r vehicleType f row col) ∨
  (∃ col, 0 ≤ col < columns r ∧
     scanColumns r vehicleType f row = Ok (Some (Fmt.Sprintf_d_d_d f row col)) ∧
     freeAt r vehicleType f row col ∧
     ∀ col', 0 ≤ col' < col → ¬ freeAt r vehicleType f row col').
Proof.
  intros Hf Hrow. unfold scanColumns.
  destruct (forReturn_seqZ (scanSpot r vehicleType f row) (columns r))
    as [[Hres Hall]|(col & Hcol & Hne & Hres & Hpre)].
  - left. split; [done|]. intros col Hcol.
    destruct (scanSpot_cases f row col) as [[_ ?]|[Hb _]]; try done.
    rewrite Hall in Hb by done. discriminate.
  - right. exists col.
    destruct (scanSpot_cases f row col) as [[Hb _]|[Hb Hfree]]; try done.
    split_and!; try done; try lia; [congruence|].
    intros col' Hcol'.
    destruct (scanSpot_cases f row col') as [[_ ?]|[Hb' _]]; try done; [lia|].
    rewrite Hpre in Hb' by done. discriminate.
Qed.

Lemma scanRows_cases f :
  0 ≤ f < floors r →
  (scanRows r vehicleType f = Ok None ∧
   ∀ row col, 0 ≤ row < rows r → 0 ≤ col < columns r → ¬ freeAt r vehicleType f row col) ∨
  (∃ row col, 0 ≤ row < rows r ∧ 0 ≤ col < columns r ∧
     scanRows r vehicleType f = Ok (Some (Fmt.Sprintf_d_d_d f row col)) ∧
     freeAt r vehicleType f row col ∧
     ∀ row' col', 0 ≤ row' < rows r → 0 ≤ col' < columns r →
       freeAt r vehicleType f row' col' → row < row' ∨ (row = row' ∧ col ≤ col')).
Proof.
  intros Hf. unfold scanRows.
  destruct (forReturn_seqZ (scanColumns r vehicleType f) (rows r))
    as [[Hres Hall]|(row & Hrow & Hne & Hres & Hpre)].
  - left. split; [done|]. intros row col Hrow Hcol.
    destruct (scanColumns_cases f row) as [[_ Hno]|(c & _ & Hs & _)]; try done.
    + by apply Hno.
    + rewrite Hall in Hs by done. discriminate.
  - right. exists row.
    destruct (scanColumns_cases f row) as [[Hs _]|(col & Hcol & Hs & Hfree & Hmin)];
      try done.
    exists col. split_and!; try done; try lia; [congruence|].
    intros row' col' Hrow' Hcol' Hfree'.
    destruct (Z.lt_trichotomy row' row) as [Hlt|[->|Hgt]]; [|  |lia].
    + exfalso.
      destruct (scanColumns_cases f row' Hf Hrow') as [[_ Hno]|(c & _ & Hs' & _)];
        [by eapply Hno|].
      rewrite Hpre in Hs' by lia. discriminate.
    + right. split; [done|].
      destruct (Z.le_gt_cases col col') as [|Hlt]; [done|].
      exfalso. apply (Hmin col'); [lia|done].
Qed.

(** Under [wellFormed], [FindAvailableSpot] returns the identifier of the
    first free spot in the order floor, row, column, and reports
    [ErrNoAvailableSpot] when there is none. *)
Lemma FindAvailableSpot_cases :
  (FindAvailableSpot r vehicleType = Err Errors.ErrNoAvailableSpot ∧
   ∀ f row col, isValidLocation r f row col = true → ¬ freeAt r vehicleType f row col) ∨
  (∃ f row col,
     isValidLocation r f row col = true ∧
     FindAvailableSpot r vehicleType = Ok (Fmt.Sprintf_d_d_d f row col) ∧
     freeAt r vehicleType f row col ∧
     ∀ f' row' col', isValidLocation r f' row' col' = true →
       freeAt r vehicleType f' row' col' → lexLe (f, row, col) (f', row', col')).
Proof.
  assert (FindAvailableSpot r vehicleType =
          match forReturn (scanRows r vehicleType) (seqZ 0 (floors r)) with
          | Ok (Some spotID) => Ok spotID
          | Ok None => Err Errors.ErrNoAvailableSpot
          | Err e => Err e
          | Panic => Panic
          end) as -> by reflexivity.
  destruct (forReturn_seqZ (scanRows r vehicleType) (floors r))
    as [[Hres Hall]|(f & Hf & Hne & Hres & Hpre)].
  - left. rewrite Hres. split; [done|]. intros f row col Hv.
    apply isValidLocation_spec in Hv as (Hf & Hrow & Hcol).
    destruct (scanRows_cases f) as [[_ Hno]|(r' & c' & _ & _ & Hs & _)];
      try done.
    + by apply Hno.
    + rewrite Hall in Hs by done. discriminate.
  - right. exists f.
    destruct (scanRows_cases f)
      as [[Hs _]|(row & col & Hrow & Hcol & Hs & Hfree & Hmin)]; try done.
    exists row, col. rewrite Hres, Hs. split_and!; try done; try lia.
    { apply isValidLocation_spec. lia. }
    intros f' row' col' Hv Hfree'.
    apply isValidLocation_spec in Hv as (Hf' & Hrow' & Hcol').
    unfold lexLe.
    destruct (Z.lt_trichotomy f' f) as [Hlt|[->|Hgt]]; [|  |lia].
    + exfalso.
      destruct (scanRows_cases f' Hf') as [[_ Hno]|(r' & c' & _ & _ & Hs' & _)];
        [by eapply Hno|].
      rewrite Hpre in Hs' by lia. discriminate.
    + right. split; [done|]. by apply Hmin.
Qed.

End FindFacts.

(** * The invariants are kept by every operation of the service *)

Section Updates.
Variables r r' : InMemoryParkingRepository.
Variable upd : ParkingSpot → ParkingSpot.
Variables f row col : Z.
Variable spot0 : ParkingSpot.
Hypothesis Hfloors : floors r' = floors r.
Hypothesis Hrows : rows r' = rows r.
Hypothesis Hcolumns : columns r' = columns r.
Hypothesis Hspots : spots r' = updateSpot upd f row col (spots r).
Hypothesis Hspot0 : spotAt r f row col = Some spot0.

Lemma isValidLocation_update f' row' col' :
  isValidLocation r' f' row' col' = isValidLocation r f' row' col'.
Proof. unfold isValidLocation. by rewrite Hfloors, Hrows, Hcolumns. Qed.

Lemma spotAt_update f' row' col' :
  spotAt r' f' row' col' =
    if decide (f = f' ∧ row = row' ∧ col = col')
    then Some (upd spot0) else spotAt r f' row' col'.
Proof.
  destruct (spotAt_nonneg _ _ _ _ _ Hspot0) as (? & ? & ?).
  rewrite (spotAt_updateSpot r' (spots r) upd f row col) by done.
  case_decide; [|done].
  change (upd <$> spotAt r f row col = Some (upd spot0)). by rewrite Hspot0.
Qed.

Lemma wellFormed_update : wellFormed r → wellFormed r'.
Proof.
  intros [Hf Hr Hc Hs]. split; rewrite ?Hfloors, ?Hrows, ?Hcolumns; try done.
  intros f' row' col' Hv. rewrite spotAt_update.
  case_decide; [by eexists|]. apply Hs. by rewrite <- isValidLocation_update.
Qed.

Lemma gridOK_update : spotOK (upd spot0) → gridOK r → gridOK r'.
Proof.
  intros Hnew Hgrid f' row' col' spot. rewrite spotAt_update.
  case_decide; [by intros [= <-]|]. apply Hgrid.
Qed.

(** Occupants elsewhere are not affected by the write. *)
Lemma occupiedBy_update f' row' col' v :
  occupiedBy r' f' row' col' v ↔
  if decide (f = f' ∧ row = row' ∧ col = col')
  then isValidLocation r f row col = true ∧
       IsOccupied (upd spot0) = true ∧ VehicleNumber (upd spot0) = v
  else occupiedBy r f' row' col' v.
Proof.
  unfold occupiedBy. rewrite isValidLocation_update, spotAt_update.
  case_decide as Hd; [|done].
  destruct Hd as (<- & <- & <-). split.
  - by intros (? & spot & [= <-] & ? & ?).
  - intros (? & ? & ?). eauto.
Qed.

End Updates.

Section Operations.
Import Errors.

Lemma coordinates_in_range r f row col :
  wellFormed r → isValidLocation r f row col = true →
  0 ≤ f < 2 ^ 63 ∧ 0 ≤ row < 2 ^ 63 ∧ 0 ≤ col < 2 ^ 63.
Proof.
  intros [Hf Hr Hc _] Hv. apply isValidLocation_spec in Hv. lia.
Qed.

(** A printed identifier of a valid location parses to that location. *)
Lemma parseSpotID_Sprintf r f row col :
  wellFormed r → isValidLocation r f row col = true →
  parseSpotID r (Fmt.Sprintf_d_d_d f row col) = Ok (f, row, col).
Proof.
  intros Hwf Hv. unfold parseSpotID.
  destruct (coordinates_in_range r f row col Hwf Hv) as (? & ? & ?).
  rewrite Sscanf_Sprintf by done. by rewrite Hv.
Qed.

(** Identifiers of valid locations are distinct. *)
Lemma Sprintf_valid_inj r f row col f' row' col' :
  wellFormed r →
  isValidLocation r f row col = true → isValidLocation r f' row' col' = true →
  Fmt.Sprintf_d_d_d f row col = Fmt.Sprintf_d_d_d f' row' col' →
  f = f' ∧ row = row' ∧ col = col'.
Proof.
  intros Hwf Hv Hv' Heq.
  destruct (coordinates_in_range r f row col Hwf Hv) as (? & ? & ?).
  destruct (coordinates_in_range r f' row' col' Hwf Hv') as (? & ? & ?).
  by apply Sprintf_inj.
Qed.

(** ** Initialization *)

Lemma spotAt_initial_inv r F R C f row col spot :
  spots r = (λ f, (λ row, (λ col, newSpot f row col) <$> seqZ 0 C)
                    <$> seqZ 0 R) <$> seqZ 0 F →
  spotAt r f row col = Some spot → spot = newSpot f row col.
Proof.
  intros Hs H. unfold spotAt in H. rewrite Hs in H.
  apply bind_Some in H as (fl & Hf & H).
  apply bind_Some in H as (rw & Hr & Hc).
  apply index_Some in Hf as [? Hf]. rewrite list_lookup_fmap in Hf.
  apply fmap_Some in Hf as (f0 & Hf0 & ->). apply lookup_seqZ in Hf0 as [-> _].
  apply index_Some in Hr as [? Hr]. rewrite list_lookup_fmap in Hr.
  apply fmap_Some in Hr as (r0 & Hr0 & ->). apply lookup_seqZ in Hr0 as [-> _].
  apply index_Some in Hc as [? Hc]. rewrite list_lookup_fmap in Hc.
  apply fmap_Some in Hc as (c0 & Hc0 & ->). apply lookup_seqZ in Hc0 as [-> _].
  f_equal; lia.
Qed.

Lemma makePanics_false size n :
  0 ≤ n → size * n ≤ 2 ^ 48 → makePanics size n = false.
Proof.
  intros Hn Hsize. unfold makePanics, maxAlloc.
  destruct (Z.ltb_spec n 0); [lia|].
  destruct (Z.ltb_spec (2 ^ 48) (size * n)); [lia|done].
Qed.

Lemma Repository_InitializeParkingLot_ok F R C G r r' :
  Repository.InitializeParkingLot F R C G r = (r', Ok tt) →
  floors r' = F ∧ rows r' = R ∧ columns r' = C ∧ gates r' = G ∧
  spots r' = ((λ f, (λ row, (λ col, newSpot f row col) <$> seqZ 0 C)
                      <$> seqZ 0 R) <$> seqZ 0 F) ∧
  vehicleMap r' = vehicleMap r ∧ vehicleHistory r' = vehicleHistory r.
Proof.
  unfold Repository.InitializeParkingLot.
  repeat case_match; try discriminate. by intros [= <-].
Qed.

Lemma Parking_InitializeParkingLot_ok F R C G r r' :
  Parking.InitializeParkingLot F R C G r = (r', Ok tt) →
  1 ≤ F ≤ 8 ∧ 1 ≤ R ≤ 1000 ∧ 1 ≤ C ≤ 1000 ∧ 1 ≤ G ∧
  Repository.InitializeParkingLot F R C G r = (r', Ok tt).
Proof.
  unfold Parking.InitializeParkingLot.
  destruct (Z.ltb_spec F 1), (Z.ltb_spec 8 F); try discriminate.
  destruct (Z.ltb_spec R 1), (Z.ltb_spec 1000 R); try discriminate.
  destruct (Z.ltb_spec C 1), (Z.ltb_spec 1000 C); try discriminate.
  destruct (Z.ltb_spec G 1); try discriminate.
  cbn [orb]. intros Hres. split_and!; try done; lia.
Qed.

Lemma initialized_invariant r0 : initialized r0 → invariant r0.
Proof.
  intros (F & R & C & G & Hinit).
  apply Parking_InitializeParkingLot_ok in Hinit as (HF & HR & HC & _ & Hinit).
  apply Repository_InitializeParkingLot_ok in Hinit
    as (Hf & Hr & Hc & _ & Hs & Hm & _).
  assert (∀ f row col spot,
            spotAt r0 f row col = Some spot → IsOccupied spot = false ∧
            VehicleNumber spot = "") as Hempty.
  { intros f row col spot H.
    by rewrite (spotAt_initial_inv r0 F R C f row col spot Hs H). }
  split.
  - split; rewrite ?Hf, ?Hr, ?Hc; try lia.
    intros f row col Hv. apply isValidLocation_spec in Hv.
    rewrite Hf, Hr, Hc in Hv. eexists.
    apply (spotAt_initial r0 F R C _ f row col Hs); try lia. done.
  - intros f row col spot H. destruct (Hempty _ _ _ _ H) as [Ho Hn].
    unfold spotOK. rewrite Ho, Hn. split; [split|]; done.
  - intros v s. rewrite Hm. cbn [NewParkingRepository vehicleMap].
    rewrite lookup_empty. split; [done|].
    intros (f & row & col & _ & _ & spot & H & Ho & _).
    destruct (Hempty _ _ _ _ H) as [Ho' _]. congruence.
Qed.

(** ** ConfigureSpot *)

Lemma Parking_ConfigureSpot_cases floor row column spotType r :
  let '(r', res) := Parking.ConfigureSpot floor row column spotType r in
  (r' = r ∧ res ≠ Ok tt) ∨
  (∃ spot vehicleType isActive,
     isValidLocation r floor row column = true ∧
     spotAt r floor row column = Some spot ∧ IsOccupied spot = false ∧
     r' = withSpots r (updateSpot (setConfig vehicleType isActive)
                         floor row column (spots r)) ∧
     res = Ok tt).
Proof.
  unfold Parking.ConfigureSpot, Repository.IsValidLocation,
    Repository.IsSpotOccupied, Repository.ConfigureSpot.
  destruct (isValidLocation r floor row column) eqn:Hv; cbn [negb];
    [|by left].
  destruct (spotAt r floor row column) as [spot|] eqn:Hspot; [|by left].
  destruct (IsOccupied spot) eqn:Hocc; [by left|].
  repeat (destruct (String.eqb spotType _);
          [right; eexists spot, _, _; by split_and!|]).
  by left.
Qed.

Lemma ConfigureSpot_invariant floor row column spotType r :
  invariant r →
  invariant (fst (Parking.ConfigureSpot floor row column spotType r)).
Proof.
  intros Hinv.
  pose proof (Parking_ConfigureSpot_cases floor row column spotType r) as H.
  destruct (Parking.ConfigureSpot floor row column spotType r) as [r' res].
  destruct H as [[-> _]|(spot & vt & act & Hv & Hspot & Hocc & -> & _)];
    [done|].
  cbn [fst]. destruct Hinv as [Hwf Hgrid Hcur].
  set (r' := withSpots r _).
  assert (floors r' = floors r) as E1 by done.
  assert (rows r' = rows r) as E2 by done.
  assert (columns r' = columns r) as E3 by done.
  assert (spots r' = updateSpot (setConfig vt act) floor row column (spots r))
    as E4 by done.
  split.
  - by eapply wellFormed_update.
  - eapply gridOK_update; try done.
    destruct (Hgrid _ _ _ _ Hspot) as [Hiff _]. unfold spotOK.
    cbn [setConfig IsOccupied VehicleNumber IsActive]. split; [done|].
    by intros _.
  - intros v s. change (vehicleMap r') with (vehicleMap r).
    unfold currentOK in Hcur. rewrite Hcur.
    do 3 (apply exist_proper; intros ?). apply and_iff_compat_l.
    rewrite (occupiedBy_update r r' _ floor row column spot E1 E2 E3 E4 Hspot).
    case_decide as Hd; [|done]. destruct Hd as (<- & <- & <-).
    cbn [setConfig IsOccupied VehicleNumber]. rewrite Hocc.
    split; [|by intros (_ & ? & _)].
    intros (_ & spot' & ? & ? & _). congruence.
Qed.

(** ** Park *)

Lemma validateVehicleNumber_None v : validateVehicleNumber v = None ↔ v ≠ "".
Proof.
  unfold validateVehicleNumber. by destruct (String.eqb_spec v "").
Qed.

Lemma Park_cases vehicleType v r :
  wellFormed r →
  let '(r', res) := Parking.Park vehicleType v r in
  (r' = r ∧ ∀ id, res ≠ Ok id) ∨
  (∃ f row col spot,
     res = Ok (Fmt.Sprintf_d_d_d f row col) ∧
     validateVehicleType vehicleType = None ∧ v ≠ "" ∧
     vehicleMap r !! v = None ∧
     isValidLocation r f row col = true ∧
     spotAt r f row col = Some spot ∧
     IsActive spot = true ∧ VehicleType spot = vehicleType ∧
     IsOccupied spot = false ∧
     (∀ f' row' col', isValidLocation r f' row' col' = true →
        freeAt r vehicleType f' row' col' →
        lexLe (f, row, col) (f', row', col')) ∧
     floors r' = floors r ∧ rows r' = rows r ∧ columns r' = columns r ∧
     spots r' = updateSpot (setOccupant true v) f row col (spots r) ∧
     vehicleMap r' = <[v := Fmt.Sprintf_d_d_d f row col]> (vehicleMap r) ∧
     vehicleHistory r' = vehicleHistory r).
Proof.
  intros Hwf. unfold Parking.Park.
  destruct (validateVehicleType vehicleType) eqn:HT; [by left|].
  destruct (validateVehicleNumber v) eqn:Hv; [by left|].
  apply validateVehicleNumber_None in Hv.
  unfold Repository.IsVehicleParked.
  destruct (vehicleMap r !! v) eqn:Hm; [by left|]. cbn iota.
  destruct (FindAvailableSpot_cases r vehicleType Hwf)
    as [[-> _]|(f & row & col & Hval & -> &
                 (spot & Hspot & Hact & Htype & Hfree) & Hmin)];
    [by left|].
  unfold Repository.ParkVehicle. rewrite parseSpotID_Sprintf by done.
  rewrite Hspot. right. exists f, row, col, spot. by split_and!.
Qed.

Lemma Park_invariant vehicleType v r :
  invariant r → invariant (fst (Parking.Park vehicleType v r)).
Proof.
  intros Hinv. pose proof (Park_cases vehicleType v r (inv_wf r Hinv)) as H.
  destruct (Parking.Park vehicleType v r) as [r' res]. cbn [fst].
  destruct H as [[-> _]|(f & row & col & spot & _ & _ & Hv & Hnone & Hval &
    Hspot & Hact & _ & Hfree & _ & E1 & E2 & E3 & E4 & Emap & _)]; [done|].
  destruct Hinv as [Hwf Hgrid Hcur].
  split.
  - by eapply wellFormed_update.
  - eapply gridOK_update; try done. unfold spotOK.
    cbn [setOccupant IsOccupied VehicleNumber IsActive].
    split; [done|]. congruence.
  - intros v' s. rewrite Emap.
    assert (∀ f' row' col',
      occupiedBy r' f' row' col' v' ↔
      (f = f' ∧ row = row' ∧ col = col' ∧ v = v') ∨
      (¬ (f = f' ∧ row = row' ∧ col = col') ∧ occupiedBy r f' row' col' v'))
      as Hocc.
    { intros f' row' col'.
      rewrite (occupiedBy_update r r' _ f row col spot E1 E2 E3 E4 Hspot).
      case_decide as Hd; [|tauto].
      destruct Hd as (<- & <- & <-).
      cbn [setOccupant IsOccupied VehicleNumber]. tauto. }
    destruct (decide (v = v')) as [<-|Hne].
    + rewrite lookup_insert_eq. split.
      * intros [= <-]. exists f, row, col. split; [done|]. apply Hocc. tauto.
      * intros (f' & row' & col' & -> & Ho). apply Hocc in Ho as [Ho|[_ Ho]].
        { by destruct Ho as (<- & <- & <- & _). }
        exfalso. assert (vehicleMap r !! v = Some (Fmt.Sprintf_d_d_d f' row' col'))
          as Hsome by (apply Hcur; eauto). congruence.
    + rewrite lookup_insert_ne by done. unfold currentOK in Hcur. rewrite Hcur.
      do 3 (apply exist_proper; intros ?). apply and_iff_compat_l.
      rewrite Hocc. split; [|tauto].
      intros Ho. right. split; [|done]. intros (<- & <- & <-).
      destruct Ho as (_ & spot' & ? & ? & _). congruence.
Qed.

(** ** Unpark *)

Lemma Unpark_cases s v r :
  invariant r →
  let '(r', res) := Parking.Unpark s v r in
  (r' = r ∧ res ≠ Ok tt ∧ vehicleMap r !! v ≠ Some s) ∨
  (∃ f row col spot,
     res = Ok tt ∧ v ≠ "" ∧ vehicleMap r !! v = Some s ∧
     s = Fmt.Sprintf_d_d_d f row col ∧
     isValidLocation r f row col = true ∧
     spotAt r f row col = Some spot ∧
     IsOccupied spot = true ∧ VehicleNumber spot = v ∧
     floors r' = floors r ∧ rows r' = rows r ∧ columns r' = columns r ∧
     spots r' = updateSpot (setOccupant false "") f row col (spots r) ∧
     vehicleMap r' = delete v (vehicleMap r) ∧
     vehicleHistory r' = <[v := s]> (vehicleHistory r)).
Proof.
  intros [Hwf Hgrid Hcur]. unfold Parking.Unpark.
  unfold Repository.IsVehicleParked.
  destruct (vehicleMap r !! v) as [cur|] eqn:Hm.
  2:{ destruct (validateVehicleNumber v); cbn [negb]; by left. }
  destruct (String.eqb_spec cur s) as [->|Hne].
  2:{ destruct (validateVehicleNumber v); cbn [negb]; left;
        split_and!; try done; congruence. }
  pose proof Hm as Hm'.
  apply Hcur in Hm' as (f & row & col & -> & Hval & spot & Hspot & Hocc & Hnum).
  assert (v ≠ "") as Hv.
  { destruct (Hgrid _ _ _ _ Hspot) as [Hiff _]. rewrite <- Hnum. by apply Hiff. }
  apply validateVehicleNumber_None in Hv as Hvalid. rewrite Hvalid.
  cbn [negb]. unfold Repository.ParseSpotID.
  rewrite parseSpotID_Sprintf by done.
  unfold Repository.UnparkVehicle. rewrite Hval, Hspot, Hocc, Hnum.
  rewrite String.eqb_refl. cbn [negb orb].
  right. exists f, row, col, spot. by split_and!.
Qed.

Lemma Unpark_invariant s v r :
  invariant r → invariant (fst (Parking.Unpark s v r)).
Proof.
  intros Hinv. pose proof (Unpark_cases s v r Hinv) as H.
  destruct (Parking.Unpark s v r) as [r' res]. cbn [fst].
  destruct H as [[-> _]|(f & row & col & spot & _ & Hv & Hm & -> & Hval &
    Hspot & Hoccupied & Hnum & E1 & E2 & E3 & E4 & Emap & _)]; [done|].
  destruct Hinv as [Hwf Hgrid Hcur].
  split.
  - by eapply wellFormed_update.
  - by eapply gridOK_update.
  - intros v' s. rewrite Emap.
    assert (∀ f' row' col',
      occupiedBy r' f' row' col' v' ↔
      ¬ (f = f' ∧ row = row' ∧ col = col') ∧ occupiedBy r f' row' col' v')
      as Hocc.
    { intros f' row' col'.
      rewrite (occupiedBy_update r r' _ f row col spot E1 E2 E3 E4 Hspot).
      case_decide as Hd; [|tauto].
      cbn [setOccupant IsOccupied VehicleNumber]. split; [|tauto].
      by intros (_ & ? & _). }
    destruct (decide (v = v')) as [<-|Hne].
    + rewrite lookup_delete_eq. split; [done|].
      intros (f' & row' & col' & -> & Ho). apply Hocc in Ho as [Hdiff Ho].
      exfalso. apply Hdiff.
      assert (vehicleMap r !! v = Some (Fmt.Sprintf_d_d_d f' row' col'))
        as Hsome by (apply Hcur; eauto).
      rewrite Hm in Hsome. injection Hsome as Heq.
      destruct Ho as [Hval' _]. by eapply Sprintf_valid_inj.
    + rewrite lookup_delete_ne by done. unfold currentOK in Hcur. rewrite Hcur.
      do 3 (apply exist_proper; intros ?). apply and_iff_compat_l.
      rewrite Hocc. split; [|tauto].
      intros Ho. split; [|done]. intros (<- & <- & <-).
      destruct Ho as (_ & spot' & ? & _ & ?). congruence.
Qed.

(** ** Every reachable state satisfies the invariants *)

Lemma handle_invariant q r : invariant r → invariant (handle q r).
Proof.
  destruct q; cbn [handle]; try done.
  - apply ConfigureSpot_invariant.
  - apply Park_invariant.
  - apply Unpark_invariant.
Qed.

Lemma serve_invariant qs r : invariant r → invariant (serve qs r).
Proof.
  revert r. induction qs as [|q qs IH]; intros r Hinv; [done|].
  cbn [serve foldl]. apply IH. by apply handle_invariant.
Qed.

Lemma reachable_invariant r : reachable r → invariant r.
Proof.
  intros (r0 & qs & Hinit & ->).
  apply serve_invariant. by apply initialized_invariant.
Qed.

End Operations.

(** * The properties of the specification *)

Section Claims.
Import Errors.

Lemma lot0_initialized : initialized lot0.
Proof. by exists 1, 1, 2, 1. Qed.

Lemma lot_reachable : reachable lot.
Proof.
  exists lot0, [ReqConfigureSpot 0 0 0 "B-1"; ReqConfigureSpot 0 0 1 "B-1"].
  split; [apply lot0_initialized|done].
Qed.

Lemma lotBC1_reachable : reachable lotBC1.
Proof.
  exists lot0,
    [ReqConfigureSpot 0 0 0 "B-1"; ReqConfigureSpot 0 0 1 "B-1";
     ReqPark "Bicycle" "BC1"].
  split; [apply lot0_initialized|done].
Qed.

(** C1: when [Park] succeeds in a reachable state, the identifier it
    returns names a valid location whose spot was active, of the requested
    type and unoccupied before the call; after the call [IsSpotOccupied]
    answers true for that location and [SearchVehicle] answers the
    identifier with [true].  (Success already implies that the type is one
    of the three kinds, that the number is not empty and that the vehicle
    was not parked.) *)
Theorem park_returns_free_matching_spot r vehicleType v r' spotID :
  reachable r →
  Parking.Park vehicleType v r = (r', Ok spotID) →
  ∃ f row col spot,
    spotID = Fmt.Sprintf_d_d_d f row col ∧
    parseSpotID r spotID = Ok (f, row, col) ∧
    spotAt r f row col = Some spot ∧
    IsActive spot = true ∧ VehicleType spot = vehicleType ∧
    IsOccupied spot = false ∧
    Repository.IsSpotOccupied r' f row col = Ok true ∧
    Parking.SearchVehicle r' v = Ok (spotID, true).
Proof.
  intros Hreach Hpark. apply reachable_invariant in Hreach as [Hwf _ _].
  pose proof (Park_cases vehicleType v r Hwf) as H. rewrite Hpark in H.
  destruct H as [[_ Hne]|(f & row & col & spot & [= ->] & _ & Hv & _ & Hval &
    Hspot & Hact & Htype & Hfree & _ & E1 & E2 & E3 & E4 & Emap & _)];
    [by destruct (Hne spotID)|].
  exists f, row, col, spot. split_and!; try done.
  - by apply parseSpotID_Sprintf.
  - unfold Repository.IsSpotOccupied.
    rewrite (isValidLocation_update r r') by done. rewrite Hval.
    rewrite (spotAt_update r r' _ f row col spot) by done.
    by rewrite decide_True.
  - unfold Parking.SearchVehicle, Repository.SearchVehicle.
    apply validateVehicleNumber_None in Hv as ->.
    by rewrite Emap, lookup_insert_eq.
Qed.

Lemma park_returns_free_matching_spot_witness :
  ∃ f row col spot,
    "0-0-0" = Fmt.Sprintf_d_d_d f row col ∧
    parseSpotID lot "0-0-0" = Ok (f, row, col) ∧
    spotAt lot f row col = Some spot ∧
    IsActive spot = true ∧ VehicleType spot = "Bicycle" ∧
    IsOccupied spot = false ∧
    Repository.IsSpotOccupied lotBC1 f row col = Ok true ∧
    Parking.SearchVehicle lotBC1 "BC1" = Ok ("0-0-0", true).
Proof.
  apply (park_returns_free_matching_spot lot "Bicycle" "BC1" lotBC1 "0-0-0").
  - apply lot_reachable.
  - vm_compute. reflexivity.
Defined.

Lemma Park_not_parked_result vehicleType v r :
  wellFormed r → vehicleMap r !! v = None →
  (∃ spotID, snd (Parking.Park vehicleType v r) = Ok spotID) ∨
  snd (Parking.Park vehicleType v r) = Err ErrInvalidVehicleType ∨
  snd (Parking.Park vehicleType v r) = Err "vehicle number cannot be empty" ∨
  snd (Parking.Park vehicleType v r) = Err ErrNoAvailableSpot.
Proof.
  intros Hwf Hnone. unfold Parking.Park.
  unfold validateVehicleType, validateVehicleNumber.
  destruct (_ || _); [|by right; left].
  destruct (String.eqb v ""); [by right; right; left|].
  unfold Repository.IsVehicleParked. rewrite Hnone.
  destruct (FindAvailableSpot_cases r vehicleType Hwf)
    as [[-> _]|(f & row & col & Hval & -> & (spot & Hspot & _) & _)];
    [by right; right; right|].
  unfold Repository.ParkVehicle. rewrite parseSpotID_Sprintf by done.
  rewrite Hspot. left. by eexists.
Qed.

(** Requests handled one at a time: in a state they reach, where [v] is
    parked at [s], [Unpark s v] succeeds; afterwards [SearchVehicle v]
    answers [(s, false)], the spot that [s] names is unoccupied, [v] is no
    longer in the map of current spots, and no [Park] for [v] fails with
    [ErrVehicleAlreadyParked].  (After requests that overlapped this fails,
    see below.) *)
Lemma sequential_unpark_of_parked_vehicle r s v :
  reachable r →
  vehicleMap r !! v = Some s →
  ∃ r' f row col,
    Parking.Unpark s v r = (r', Ok tt) ∧
    Parking.SearchVehicle r' v = Ok (s, false) ∧
    parseSpotID r' s = Ok (f, row, col) ∧
    Repository.IsSpotOccupied r' f row col = Ok false ∧
    Repository.IsVehicleParked r' v = (false, "") ∧
    ∀ vehicleType,
      ¬ failsWith ErrVehicleAlreadyParked (snd (Parking.Park vehicleType v r')).
Proof.
  intros Hreach Hm. apply reachable_invariant in Hreach as Hinv.
  pose proof (Unpark_cases s v r Hinv) as H.
  pose proof (Unpark_invariant s v r Hinv) as Hinv'.
  destruct (Parking.Unpark s v r) as [r' res]. cbn [fst] in Hinv'.
  destruct H as [(_ & _ & Hne)|(f & row & col & spot & -> & Hv & _ & -> & Hval &
    Hspot & Hocc & Hnum & E1 & E2 & E3 & E4 & Emap & Ehist)]; [done|].
  assert (vehicleMap r' !! v = None) as Hnone
    by (rewrite Emap; apply lookup_delete_eq).
  exists r', f, row, col. split_and!; try done.
  - unfold Parking.SearchVehicle, Repository.SearchVehicle.
    apply validateVehicleNumber_None in Hv as ->.
    by rewrite Hnone, Ehist, lookup_insert_eq.
  - apply parseSpotID_Sprintf; [apply Hinv'|].
    by rewrite (isValidLocation_update r r').
  - unfold Repository.IsSpotOccupied.
    rewrite (isValidLocation_update r r') by done. rewrite Hval.
    rewrite (spotAt_update r r' _ f row col spot) by done.
    by rewrite decide_True.
  - unfold Repository.IsVehicleParked. by rewrite Hnone.
  - intros vehicleType [detail Hfail].
    destruct (Park_not_parked_result vehicleType v r' (inv_wf _ Hinv') Hnone)
      as [[id Hr]|[Hr|[Hr|Hr]]]; rewrite Hr in Hfail; discriminate.
Qed.

Lemma sequential_unpark_of_parked_vehicle_witness :
  ∃ r' f row col,
    Parking.Unpark "0-0-0" "BC1" lotBC1 = (r', Ok tt) ∧
    Parking.SearchVehicle r' "BC1" = Ok ("0-0-0", false) ∧
    parseSpotID r' "0-0-0" = Ok (f, row, col) ∧
    Repository.IsSpotOccupied r' f row col = Ok false ∧
    Repository.IsVehicleParked r' "BC1" = (false, "") ∧
    ∀ vehicleType,
      ¬ failsWith ErrVehicleAlreadyParked
          (snd (Parking.Park vehicleType "BC1" r')).
Proof.
  apply (sequential_unpark_of_parked_vehicle lotBC1 "0-0-0" "BC1").
  - apply lotBC1_reachable.
  - vm_compute. reflexivity.
Defined.

(** C3: for a non-empty vehicle number, [Unpark] fails with
    [ErrVehicleNotParked] when the vehicle has no current entry and with
    [ErrVehicleNotAtSpot] when its current spot is not the one given; and
    whenever [Unpark] does not succeed, the repository (grid, current map
    and history) is the one before the call.  This holds in every state. *)
Theorem unpark_failures_leave_state r s v :
  v ≠ "" →
  (vehicleMap r !! v = None →
   Parking.Unpark s v r = (r, Err (ErrVehicleNotParked ++ ": " ++ v)) ∧
   failsWith ErrVehicleNotParked (snd (Parking.Unpark s v r))) ∧
  (∀ cur, vehicleMap r !! v = Some cur → cur ≠ s →
   Parking.Unpark s v r =
     (r, Err (ErrVehicleNotAtSpot ++ ": " ++ v ++ " (expected: " ++ s
                ++ ", actual: " ++ cur ++ ")")) ∧
   failsWith ErrVehicleNotAtSpot (snd (Parking.Unpark s v r))) ∧
  (∀ r' res, Parking.Unpark s v r = (r', res) → res ≠ Ok tt →
   r' = r ∧ spots r' = spots r ∧ vehicleMap r' = vehicleMap r ∧
   vehicleHistory r' = vehicleHistory r).
Proof.
  intros Hv. apply validateVehicleNumber_None in Hv as Hvalid.
  unfold Parking.Unpark, Repository.IsVehicleParked,
    Repository.ParseSpotID, Repository.UnparkVehicle. rewrite Hvalid.
  split_and!.
  - intros ->. cbn [negb]. split; [done|]. by eexists.
  - intros cur -> Hne. cbn [negb].
    destruct (String.eqb_spec cur s); [done|]. cbn [negb].
    split; [done|]. by eexists.
  - intros r' res.
    destruct (vehicleMap r !! v) as [cur|]; cbn [negb];
      [|by intros [= <- <-]].
    destruct (String.eqb cur s); cbn [negb]; [|by intros [= <- <-]].
    destruct (parseSpotID r s) as [[[f row] col]| |]; try by intros [= <- <-].
    destruct (isValidLocation r f row col); cbn [negb];
      [|by intros [= <- <-]].
    destruct (spotAt r f row col) as [spot|]; [|by intros [= <- <-]].
    destruct (_ || _); [by intros [= <- <-]|].
    by intros [= <- <-].
Qed.

Lemma unpark_failures_leave_state_witness :
  Parking.Unpark "0-0-1" "BC1" lotBC1 =
    (lotBC1, Err (ErrVehicleNotAtSpot ++ ": " ++ "BC1" ++ " (expected: "
                    ++ "0-0-1" ++ ", actual: " ++ "0-0-0" ++ ")")) ∧
  failsWith ErrVehicleNotAtSpot (snd (Parking.Unpark "0-0-1" "BC1" lotBC1)).
Proof.
  apply (unpark_failures_leave_state lotBC1 "0-0-1" "BC1"); [done| |done].
  vm_compute. reflexivity.
Defined.

Lemma lexLe_antisym p q : lexLe p q → lexLe q p → p = q.
Proof.
  destruct p as [[f row] col], q as [[f' row'] col']. unfold lexLe.
  intros H1 H2. f_equal; [f_equal|]; lia.
Qed.

(** C4: on a well-formed grid [FindAvailableSpot] returns an identifier
    exactly when it is the one of the first valid location, in the order
    floor, row, column, whose spot is active, of the requested type and
    unoccupied; it fails with [ErrNoAvailableSpot] exactly when there is no
    such location, and it has no other outcome; the result depends on the
    dimensions and the grid only, so it is the same whenever these are. *)
Theorem findAvailableSpot_first_in_scan_order r vehicleType :
  wellFormed r →
  (∀ spotID,
     FindAvailableSpot r vehicleType = Ok spotID ↔
     ∃ f row col,
       spotID = Fmt.Sprintf_d_d_d f row col ∧
       isValidLocation r f row col = true ∧
       freeAt r vehicleType f row col ∧
       ∀ f' row' col', isValidLocation r f' row' col' = true →
         freeAt r vehicleType f' row' col' →
         lexLe (f, row, col) (f', row', col')) ∧
  (FindAvailableSpot r vehicleType = Err ErrNoAvailableSpot ↔
   ∀ f row col, isValidLocation r f row col = true →
     ¬ freeAt r vehicleType f row col) ∧
  ((∃ spotID, FindAvailableSpot r vehicleType = Ok spotID) ∨
   FindAvailableSpot r vehicleType = Err ErrNoAvailableSpot) ∧
  (∀ r2, floors r2 = floors r → rows r2 = rows r → columns r2 = columns r →
     spots r2 = spots r →
     FindAvailableSpot r2 vehicleType = FindAvailableSpot r vehicleType).
Proof.
  intros Hwf.
  destruct (FindAvailableSpot_cases r vehicleType Hwf)
    as [[Hres Hnone]|(f & row & col & Hval & Hres & Hfree & Hmin)].
  - split_and!.
    + intros spotID. rewrite Hres. split; [done|].
      intros (f & row & col & _ & Hval & Hfree & _). by destruct (Hnone f row col).
    + done.
    + by right.
    + intros r2 E1 E2 E3 E4. unfold FindAvailableSpot, spotAt.
      by rewrite E1, E2, E3, E4.
  - split_and!.
    + intros spotID. rewrite Hres. split.
      * intros [= <-]. by exists f, row, col.
      * intros (f' & row' & col' & -> & Hval' & Hfree' & Hmin').
        assert ((f, row, col) = (f', row', col')) as [= -> -> ->]; [|done].
        apply lexLe_antisym; [by apply Hmin|by apply Hmin'].
    + rewrite Hres. split; [done|]. intros Hnone. by destruct (Hnone f row col).
    + left. by eexists.
    + intros r2 E1 E2 E3 E4. unfold FindAvailableSpot, spotAt.
      by rewrite E1, E2, E3, E4.
Qed.

Lemma findAvailableSpot_first_in_scan_order_witness :
  (∀ spotID,
     FindAvailableSpot lotBC1 "Bicycle" = Ok spotID ↔
     ∃ f row col,
       spotID = Fmt.Sprintf_d_d_d f row col ∧
       isValidLocation lotBC1 f row col = true ∧
       freeAt lotBC1 "Bicycle" f row col ∧
       ∀ f' row' col', isValidLocation lotBC1 f' row' col' = true →
         freeAt lotBC1 "Bicycle" f' row' col' →
         lexLe (f, row, col) (f', row', col')) ∧
  (FindAvailableSpot lotBC1 "Bicycle" = Err ErrNoAvailableSpot ↔
   ∀ f row col, isValidLocation lotBC1 f row col = true →
     ¬ freeAt lotBC1 "Bicycle" f row col) ∧
  ((∃ spotID, FindAvailableSpot lotBC1 "Bicycle" = Ok spotID) ∨
   FindAvailableSpot lotBC1 "Bicycle" = Err ErrNoAvailableSpot) ∧
  (∀ r2, floors r2 = floors lotBC1 → rows r2 = rows lotBC1 →
     columns r2 = columns lotBC1 → spots r2 = spots lotBC1 →
     FindAvailableSpot r2 "Bicycle" = FindAvailableSpot lotBC1 "Bicycle").
Proof.
  apply (findAvailableSpot_first_in_scan_order lotBC1 "Bicycle").
  exact (inv_wf lotBC1 (reachable_invariant lotBC1 lotBC1_reachable)).
Defined.

(** C7: in every reachable state every spot of the grid is occupied
    exactly when its vehicle number is not empty, and no inactive spot is
    occupied. *)
Theorem occupancy_invariant r f row col spot :
  reachable r →
  spotAt r f row col = Some spot →
  (IsOccupied spot = true ↔ VehicleNumber spot ≠ "") ∧
  (IsActive spot = false → IsOccupied spot = false).
Proof.
  intros Hreach Hspot. apply reachable_invariant in Hreach as [_ Hgrid _].
  exact (Hgrid f row col spot Hspot).
Qed.

Lemma occupancy_invariant_witness :
  (IsOccupied (setOccupant true "BC1" (setConfig "Bicycle" true (newSpot 0 0 0)))
   = true ↔
   VehicleNumber (setOccupant true "BC1" (setConfig "Bicycle" true (newSpot 0 0 0)))
   ≠ "") ∧
  (IsActive (setOccupant true "BC1" (setConfig "Bicycle" true (newSpot 0 0 0)))
   = false →
   IsOccupied (setOccupant true "BC1" (setConfig "Bicycle" true (newSpot 0 0 0)))
   = false).
Proof.
  apply (occupancy_invariant lotBC1 0 0 0).
  - apply lotBC1_reachable.
  - vm_compute. reflexivity.
Defined.

(** C8: for a valid location whose spot is occupied, the service's
    [ConfigureSpot] fails with the message "cannot reconfigure an occupied
    parking spot" whatever the type code, and returns the repository
    unchanged, so the spot keeps its type and its active flag. *)
Theorem configure_occupied_spot_rejected r floor row column spot spotType :
  isValidLocation r floor row column = true →
  spotAt r floor row column = Some spot →
  IsOccupied spot = true →
  Parking.ConfigureSpot floor row column spotType r =
    (r, Err "cannot reconfigure an occupied parking spot") ∧
  spotAt (fst (Parking.ConfigureSpot floor row column spotType r))
    floor row column = Some spot.
Proof.
  intros Hval Hspot Hocc.
  assert (Parking.ConfigureSpot floor row column spotType r =
            (r, Err "cannot reconfigure an occupied parking spot")) as ->.
  { unfold Parking.ConfigureSpot, Repository.IsValidLocation,
      Repository.IsSpotOccupied. by rewrite Hval, Hspot, Hocc. }
  done.
Qed.

Lemma configure_occupied_spot_rejected_witness :
  Parking.ConfigureSpot 0 0 0 "X-0" lotBC1 =
    (lotBC1, Err "cannot reconfigure an occupied parking spot") ∧
  spotAt (fst (Parking.ConfigureSpot 0 0 0 "X-0" lotBC1)) 0 0 0 =
    Some (setOccupant true "BC1" (setConfig "Bicycle" true (newSpot 0 0 0))).
Proof.
  apply (configure_occupied_spot_rejected lotBC1 0 0 0); vm_compute; reflexivity.
Defined.

(** Requests handled one at a time: in a state they reach the map of
    current spots agrees with the grid: [v] maps to [s] exactly when [s] is
    the identifier of a valid location whose spot is occupied by [v]; hence
    two vehicles never map to the same identifier and the occupant of every
    occupied spot is a key of the map.  (After requests that overlapped
    this fails, see below.) *)
Lemma sequential_current_map_matches_grid r :
  reachable r →
  (∀ v s, vehicleMap r !! v = Some s ↔
          ∃ f row col, s = Fmt.Sprintf_d_d_d f row col ∧
                       occupiedBy r f row col v) ∧
  (∀ v1 v2 s, vehicleMap r !! v1 = Some s → vehicleMap r !! v2 = Some s →
              v1 = v2) ∧
  (∀ f row col v, occupiedBy r f row col v →
                  vehicleMap r !! v = Some (Fmt.Sprintf_d_d_d f row col)).
Proof.
  intros Hreach. apply reachable_invariant in Hreach as [Hwf Hgrid Hcur].
  split_and!.
  - exact Hcur.
  - intros v1 v2 s H1 H2.
    apply Hcur in H1 as (f1 & row1 & col1 & -> & Hv1 & spot1 & Hs1 & _ & <-).
    apply Hcur in H2 as (f2 & row2 & col2 & Heq & Hv2 & spot2 & Hs2 & _ & <-).
    destruct (Sprintf_valid_inj r _ _ _ _ _ _ Hwf Hv1 Hv2 Heq) as (-> & -> & ->).
    congruence.
  - intros f row col v Hocc. apply Hcur. eauto.
Qed.

Lemma sequential_current_map_matches_grid_witness :
  (∀ v s, vehicleMap lotBC1 !! v = Some s ↔
          ∃ f row col, s = Fmt.Sprintf_d_d_d f row col ∧
                       occupiedBy lotBC1 f row col v) ∧
  (∀ v1 v2 s, vehicleMap lotBC1 !! v1 = Some s →
              vehicleMap lotBC1 !! v2 = Some s → v1 = v2) ∧
  (∀ f row col v, occupiedBy lotBC1 f row col v →
                  vehicleMap lotBC1 !! v = Some (Fmt.Sprintf_d_d_d f row col)).
Proof.
  apply (sequential_current_map_matches_grid lotBC1). apply lotBC1_reachable.
Defined.

(** C10: [InitializeParkingLot] builds a new grid in which no spot is
    occupied and leaves both vehicle maps as they were, so a vehicle that
    was parked at [s] is still reported at [(s, true)] by [SearchVehicle]. *)
Theorem initialize_keeps_vehicle_maps F R C G r r' :
  Repository.InitializeParkingLot F R C G r = (r', Ok tt) →
  vehicleMap r' = vehicleMap r ∧
  vehicleHistory r' = vehicleHistory r ∧
  (∀ v s, vehicleMap r !! v = Some s →
          Repository.SearchVehicle r' v = Ok (s, true)) ∧
  (∀ f row col spot, spotAt r' f row col = Some spot →
                     IsOccupied spot = false).
Proof.
  intros Hinit.
  apply Repository_InitializeParkingLot_ok in Hinit
    as (_ & _ & _ & _ & Hs & Hm & Hh).
  split_and!; try done.
  - intros v s Hv. unfold Repository.SearchVehicle. by rewrite Hm, Hv.
  - intros f row col spot Hspot.
    by rewrite (spotAt_initial_inv r' F R C f row col spot Hs Hspot).
Qed.

Lemma initialize_keeps_vehicle_maps_witness :
  vehicleMap (fst (Repository.InitializeParkingLot 1 1 2 1 lotBC1))
    = vehicleMap lotBC1 ∧
  vehicleHistory (fst (Repository.InitializeParkingLot 1 1 2 1 lotBC1))
    = vehicleHistory lotBC1 ∧
  (∀ v s, vehicleMap lotBC1 !! v = Some s →
          Repository.SearchVehicle
            (fst (Repository.InitializeParkingLot 1 1 2 1 lotBC1)) v
          = Ok (s, true)) ∧
  (∀ f row col spot,
     spotAt (fst (Repository.InitializeParkingLot 1 1 2 1 lotBC1)) f row col
     = Some spot → IsOccupied spot = false).
Proof.
  apply (initialize_keeps_vehicle_maps 1 1 2 1 lotBC1). reflexivity.
Defined.

(** ** Concurrent [Park] calls *)

(** The three calls of a goroutine, run without interruption, are [Park]. *)
Lemma parkThread_sequential vehicleType v r :
  let '(t1, r1) := Concurrent.parkStep (Concurrent.AtStart vehicleType v) r in
  let '(t2, r2) := Concurrent.parkStep t1 r1 in
  let '(t3, r3) := Concurrent.parkStep t2 r2 in
  (r3, t3) = (fst (Parking.Park vehicleType v r),
              Concurrent.Returned (snd (Parking.Park vehicleType v r))).
Proof.
  unfold Parking.Park. cbn [Concurrent.parkStep].
  destruct (validateVehicleType vehicleType); [done|].
  destruct (validateVehicleNumber v); [done|].
  destruct (Repository.IsVehicleParked r v) as [[] cur]; [done|].
  cbn [Concurrent.parkStep].
  destruct (Repository.FindAvailableSpot r vehicleType) as [spotID| |];
    [|done|done].
  cbn [Concurrent.parkStep].
  by destruct (Repository.ParkVehicle spotID v r) as [r' [[]| |]].
Qed.

(** C5 (fails on the code): two goroutines call [Park] for the same
    vehicle in a reachable state where it is not parked.  When their
    repository calls alternate, both pass the [IsVehicleParked] check
    before either calls [ParkVehicle], and both return the same spot
    identifier without error. *)
Theorem concurrent_park_same_vehicle_both_succeed :
  reachable lot ∧
  vehicleMap lot !! "BC1" = None ∧
  Concurrent.runSchedule [false; true; false; true; false; true]
    (Concurrent.AtStart "Bicycle" "BC1", Concurrent.AtStart "Bicycle" "BC1",
     lot)
  = (Concurrent.Returned (Ok "0-0-0"), Concurrent.Returned (Ok "0-0-0"),
     lotBC1).
Proof.
  split; [apply lot_reachable|]. split; vm_compute; reflexivity.
Qed.

(** The same interleaving with two vehicles gives both the same spot. *)
Lemma concurrent_park_two_vehicles_same_spot :
  ∃ r',
    Concurrent.runSchedule [false; true; false; true; false; true]
      (Concurrent.AtStart "Bicycle" "BC1", Concurrent.AtStart "Bicycle" "BC2",
       lot)
    = (Concurrent.Returned (Ok "0-0-0"), Concurrent.Returned (Ok "0-0-0"), r')
    ∧ vehicleMap r' !! "BC1" = Some "0-0-0"
    ∧ vehicleMap r' !! "BC2" = Some "0-0-0"
    ∧ (VehicleNumber <$> spotAt r' 0 0 0) = Some "BC2".
Proof. eexists. split_and!; vm_compute; reflexivity. Qed.

(** C2 (fails on the code): two goroutines park the bicycles BC1 and BC2
    in a reachable state and their repository calls alternate as in C5:
    both are given the spot 0-0-0, which ends up naming BC2.  For
    [IsVehicleParked] and [SearchVehicle] BC1 is then parked at that spot,
    yet [Unpark] of BC1 from it fails with [ErrVehicleNotAtSpot]; it still
    fails after BC2 has left the spot, and [Park] for BC1 is rejected with
    [ErrVehicleAlreadyParked] all the while. *)
Theorem unpark_fails_after_overlapping_parks :
  reachable lot ∧
  Concurrent.runSchedule [false; true; false; true; false; true]
    (Concurrent.AtStart "Bicycle" "BC1", Concurrent.AtStart "Bicycle" "BC2",
     lot)
  = (Concurrent.Returned (Ok "0-0-0"), Concurrent.Returned (Ok "0-0-0"),
     lotRaced) ∧
  Repository.IsVehicleParked lotRaced "BC1" = (true, "0-0-0") ∧
  Parking.SearchVehicle lotRaced "BC1" = Ok ("0-0-0", true) ∧
  Parking.Unpark "0-0-0" "BC1" lotRaced =
    (lotRaced, Err (ErrVehicleNotAtSpot ++ ": BC1 at spot 0-0-0")) ∧
  snd (Parking.Unpark "0-0-0" "BC2" lotRaced) = Ok tt ∧
  snd (Parking.Unpark "0-0-0" "BC1"
         (fst (Parking.Unpark "0-0-0" "BC2" lotRaced))) =
    Err (ErrVehicleNotAtSpot ++ ": BC1 at spot 0-0-0") ∧
  snd (Parking.Park "Bicycle" "BC1"
         (fst (Parking.Unpark "0-0-0" "BC2" lotRaced))) =
    Err (ErrVehicleAlreadyParked ++ ": BC1 at spot 0-0-0").
Proof.
  split; [apply lot_reachable|]. split_and!; vm_compute; reflexivity.
Qed.

Lemma lotRaced_not_occupied_by_BC1 f row col :
  ¬ occupiedBy lotRaced f row col "BC1".
Proof.
  intros (Hval & spot & Hspot & _ & Hnum).
  apply isValidLocation_spec in Hval.
  change (floors lotRaced) with 1 in Hval.
  change (rows lotRaced) with 1 in Hval.
  change (columns lotRaced) with 2 in Hval.
  assert (f = 0) as -> by lia. assert (row = 0) as -> by lia.
  assert (col = 0 ∨ col = 1) as [-> | ->] by lia;
    vm_compute in Hspot; injection Hspot as <-; discriminate.
Qed.

(** C9 (fails on the code): in the state that the two overlapping [Park]
    calls of C2 leave, BC1 and BC2 are both mapped to the identifier of
    the spot (0,0,0); the spot is occupied by BC2, and BC1, though in the
    map, occupies no spot: the map of current spots does not agree with
    the grid. *)
Theorem current_map_disagrees_after_overlapping_parks :
  reachable lot ∧
  Concurrent.runSchedule [false; true; false; true; false; true]
    (Concurrent.AtStart "Bicycle" "BC1", Concurrent.AtStart "Bicycle" "BC2",
     lot)
  = (Concurrent.Returned (Ok "0-0-0"), Concurrent.Returned (Ok "0-0-0"),
     lotRaced) ∧
  vehicleMap lotRaced !! "BC1" = Some "0-0-0" ∧
  vehicleMap lotRaced !! "BC2" = Some "0-0-0" ∧
  "0-0-0" = Fmt.Sprintf_d_d_d 0 0 0 ∧
  occupiedBy lotRaced 0 0 0 "BC2" ∧
  (∀ f row col, ¬ occupiedBy lotRaced f row col "BC1") ∧
  ¬ currentOK lotRaced.
Proof.
  split; [apply lot_reachable|]. split_and!; try (vm_compute; reflexivity).
  - split; [vm_compute; reflexivity|]. eexists.
    split_and!; vm_compute; reflexivity.
  - apply lotRaced_not_occupied_by_BC1.
  - intros Hcur.
    assert (vehicleMap lotRaced !! "BC1" = Some "0-0-0") as Hm
      by (vm_compute; reflexivity).
    apply Hcur in Hm as (f & row & col & _ & Hocc).
    by apply (lotRaced_not_occupied_by_BC1 f row col).
Qed.

(** ** Parsing spot identifiers *)

Lemma matchesSpotIDPattern_digits d1 d2 d3 :
  isDecimal d1 = true → isDecimal d2 = true → isDecimal d3 = true →
  matchesSpotIDPattern (d1 ++ "-" ++ d2 ++ "-" ++ d3) = true.
Proof.
  intros H1 H2 H3. unfold matchesSpotIDPattern.
  destruct d1 as [|c1 d1]; [done|]. destruct d2 as [|c2 d2]; [done|].
  destruct d3 as [|c3 d3]; [done|]. cbn [isDecimal] in *.
  rewrite (acceptAll_digits (String c1 d1)) by done.
  change ("-" ++ ?x) with (String "-" x). cbv iota beta.
  rewrite (acceptAll_digits (String c2 d2)) by done. cbv iota beta.
  change ("-" ++ ?x) with (String "-" x). cbv iota beta.
  rewrite (acceptAll_digits_end (String c3 d3)) by done. done.
Qed.

(** C6 as stated fails, in three ways: text after the third number is
    ignored, so a string that is not of the pattern floor-row-column is
    accepted; so is one with blanks and signs before the numbers; and a
    string of the pattern whose first number does not fit Go's [int] is
    rejected as malformed. *)
Lemma parseSpotID_is_not_strict :
  (matchesSpotIDPattern "0-0-1xyz" = false ∧
   parseSpotID lot "0-0-1xyz" = Ok (0, 0, 1)) ∧
  (matchesSpotIDPattern " +0- 0-  +1" = false ∧
   parseSpotID lot " +0- 0-  +1" = Ok (0, 0, 1)) ∧
  (matchesSpotIDPattern "9223372036854775808-0-0" = true ∧
   parseSpotID lot "9223372036854775808-0-0" = Err ErrInvalidSpotID).
Proof. split_and!; vm_compute; reflexivity. Qed.

(** C6, amended: [parseSpotID] fails with [ErrInvalidSpotID] exactly when
    the string does not begin with three integers joined by ['-'] (an
    integer being any blanks, an optional sign and the whole run of decimal
    digits that follows, with a value that fits Go's [int]); when it does,
    [parseSpotID] fails with [ErrInvalidLocation] if the three values are
    out of bounds and returns them otherwise.  In particular three
    non-empty runs of digits joined by ['-'] are read as their three
    numbers when each is below 2^63, and rejected with [ErrInvalidSpotID]
    when one is not; and all this is so whatever text follows the third
    number. *)
Theorem parseSpotID_scans_three_integers r s :
  (parseSpotID r s = Err ErrInvalidSpotID ↔
   ∀ a b c, ¬ beginsWithSpotID s a b c) ∧
  (∀ a b c, beginsWithSpotID s a b c →
     parseSpotID r s =
       if isValidLocation r a b c then Ok (a, b, c)
       else Err ErrInvalidLocation) ∧
  (∀ d1 d2 d3 rest,
     isDecimal d1 = true → isDecimal d2 = true → isDecimal d3 = true →
     noDigitAhead rest = true →
     s = d1 ++ "-" ++ d2 ++ "-" ++ d3 ++ rest →
     matchesSpotIDPattern (d1 ++ "-" ++ d2 ++ "-" ++ d3) = true ∧
     if (digitsValue d1 <? 2 ^ 63) && (digitsValue d2 <? 2 ^ 63)
        && (digitsValue d3 <? 2 ^ 63)
     then beginsWithSpotID s (digitsValue d1) (digitsValue d2) (digitsValue d3)
     else parseSpotID r s = Err ErrInvalidSpotID).
Proof.
  split_and!.
  - unfold parseSpotID.
    destruct (Fmt.Sscanf_d_d_d s) as [[[a b] c]|] eqn:Hscan.
    + split.
      * by destruct (isValidLocation r a b c).
      * intros Hno. apply Sscanf_spec in Hscan. by destruct (Hno a b c).
    + split; [|done]. intros _ a b c Hb. apply Sscanf_spec in Hb. congruence.
  - intros a b c Hb. apply Sscanf_spec in Hb. unfold parseSpotID.
    rewrite Hb. by destruct (isValidLocation r a b c).
  - intros d1 d2 d3 rest H1 H2 H3 Hrest ->.
    split; [by apply matchesSpotIDPattern_digits|].
    assert (Fmt.Sscanf_d_d_d (d1 ++ "-" ++ d2 ++ "-" ++ d3 ++ rest) =
            if (digitsValue d1 <? 2 ^ 63) && (digitsValue d2 <? 2 ^ 63)
               && (digitsValue d3 <? 2 ^ 63)
            then Some (digitsValue d1, digitsValue d2, digitsValue d3)
            else None) as Hscan.
    { unfold Fmt.Sscanf_d_d_d. rewrite (scanInt_decimal d1) by done.
      destruct (digitsValue d1 <? 2 ^ 63); [|done].
      cbn [mbind option_bind andb]. rewrite literal_dash.
      cbn [mbind option_bind]. rewrite (scanInt_decimal d2) by done.
      destruct (digitsValue d2 <? 2 ^ 63); [|done].
      cbn [mbind option_bind andb]. rewrite literal_dash.
      cbn [mbind option_bind]. rewrite (scanInt_decimal d3) by done.
      by destruct (digitsValue d3 <? 2 ^ 63). }
    destruct (_ && _).
    + by apply Sscanf_spec.
    + unfold parseSpotID. by rewrite Hscan.
Qed.

Lemma parseSpotID_scans_three_integers_witness :
  parseSpotID lot " +0- 00-  +1xyz" =
    (if isValidLocation lot 0 0 1 then Ok (0, 0, 1)
     else Err ErrInvalidLocation) ∧
  matchesSpotIDPattern ("0" ++ "-" ++ "00" ++ "-" ++ "1") = true ∧
  beginsWithSpotID ("0" ++ "-" ++ "00" ++ "-" ++ "1" ++ "xyz")
    (digitsValue "0") (digitsValue "00") (digitsValue "1").
Proof.
  split.
  - apply (parseSpotID_scans_three_integers lot " +0- 00-  +1xyz").
    exists " +0", " 00", "  +1", "xyz". split; [reflexivity|].
    assert (∀ sp, blanks sp → blanks (" " ++ sp)) as Hblank.
    { intros sp Hsp. apply (blanks_cons [0x20] sp); [|done].
      unfold blankCodes. rewrite !elem_of_cons. tauto. }
    split_and!; [| | |reflexivity].
    + exists " ", "+", "0". split_and!; try reflexivity; try done.
      * apply (Hblank ""), blanks_nil.
      * unfold signs. rewrite !elem_of_cons. tauto.
    + exists " ", "", "00". split_and!; try reflexivity; try done.
      * apply (Hblank ""), blanks_nil.
      * unfold signs. rewrite !elem_of_cons. tauto.
    + exists "  ", "+", "1". split_and!; try reflexivity; try done.
      * apply (Hblank " "), (Hblank ""), blanks_nil.
      * unfold signs. rewrite !elem_of_cons. tauto.
  - exact (proj2 (proj2 (parseSpotID_scans_three_integers lot
                           ("0" ++ "-" ++ "00" ++ "-" ++ "1" ++ "xyz")))
             "0" "00" "1" "xyz" eq_refl eq_refl eq_refl eq_refl eq_refl).
Defined.

End Claims.

(** * Further properties of the program *)

(** ** Identifiers of arbitrary coordinates *)

Section Identifiers.
Import Fmt Errors.

Lemma formatInt_neg p : formatInt (Z.neg p) = String "-" (formatInt (Z.pos p)).
Proof. reflexivity. Qed.

Lemma scanInt_formatInt n rest :
  isInt n → noDigitAhead rest = true →
  scanInt (formatInt n ++ rest) = Some (n, rest).
Proof.
  intros Hn Hrest. unfold isInt in Hn. destruct (Z.le_gt_cases 0 n) as [Hpos|Hneg].
  - destruct (formatInt_decimal n Hpos) as [Hdec Hval].
    rewrite scanInt_digits by (try done; lia). by rewrite Hval.
  - destruct n as [|p|p]; [lia|lia|].
    destruct (formatInt_decimal (Z.pos p)) as [Hdec Hval]; [lia|].
    rewrite formatInt_neg. set (ds := formatInt (Z.pos p)) in *.
    step_append. unfold scanInt.
    change (SkipSpace (String "-" (ds ++ rest)))
      with (Some (String "-" (ds ++ rest))).
    cbn [mbind option_bind].
    change (accept sign (String "-" (ds ++ rest))) with ("-", ds ++ rest).
    destruct ds as [|c ds]; [done|]. cbn [isDecimal] in Hdec.
    rewrite (acceptAll_digits (String c ds) rest Hdec Hrest).
    change ("-" ++ String c ds) with (String "-" (String c ds)).
    destruct (uint_of_digits _ Hdec) as [d Hd].
    unfold digitsValue in Hval. rewrite Hd in Hval.
    assert (ParseInt (String "-" (String c ds))
            = if 2 ^ 63 <? Z.of_uint d then None else Some (- Z.of_uint d))
      as ->.
    { unfold ParseInt. cbn [NilZero.uint_of_string]. by rewrite Hd. }
    rewrite Hval. destruct (Z.ltb_spec (2 ^ 63) (Z.pos p)); [lia|done].
Qed.

(** Scanning what [%d-%d-%d] printed gives the three numbers back, for
    every triple of Go integers, negative ones included. *)
Lemma Sscanf_Sprintf_int a b c rest :
  isInt a → isInt b → isInt c → noDigitAhead rest = true →
  Sscanf_d_d_d (Sprintf_d_d_d a b c ++ rest) = Some (a, b, c).
Proof.
  intros Ha Hb Hc Hrest. unfold Sprintf_d_d_d, Sscanf_d_d_d.
  rewrite !append_assoc.
  rewrite (scanInt_formatInt a) by done. step_append.
  cbn [mbind option_bind literal].
  change (Ascii.eqb "-" "-") with true. cbn [mbind option_bind].
  rewrite (scanInt_formatInt b) by done. step_append.
  cbn [mbind option_bind literal].
  change (Ascii.eqb "-" "-") with true. cbn [mbind option_bind].
  rewrite (scanInt_formatInt c) by done. done.
Qed.

(** X1: the identifier that [SpotID] prints scans back to the coordinates
    of the spot, whatever Go integers they are; so [parseSpotID] never
    calls such an identifier malformed (it returns the coordinates when
    they are a valid location and [ErrInvalidLocation] otherwise), and
    two spots with the same identifier have the same coordinates. *)
Theorem SpotID_round_trip r (p q : Model.ParkingSpot) :
  isInt (Model.Floor p) → isInt (Model.Row p) → isInt (Model.Column p) →
  Sscanf_d_d_d (Model.SpotID p)
    = Some (Model.Floor p, Model.Row p, Model.Column p) ∧
  parseSpotID r (Model.SpotID p)
    = (if isValidLocation r (Model.Floor p) (Model.Row p) (Model.Column p)
       then Ok (Model.Floor p, Model.Row p, Model.Column p)
       else Err ErrInvalidLocation) ∧
  (isInt (Model.Floor q) → isInt (Model.Row q) → isInt (Model.Column q) →
   Model.SpotID p = Model.SpotID q →
   Model.Floor p = Model.Floor q ∧ Model.Row p = Model.Row q ∧
   Model.Column p = Model.Column q).
Proof.
  intros Hf Hr Hc.
  assert (∀ p', isInt (Model.Floor p') → isInt (Model.Row p') →
                isInt (Model.Column p') →
                Sscanf_d_d_d (Model.SpotID p')
                = Some (Model.Floor p', Model.Row p', Model.Column p')) as Hscan.
  { intros p' ? ? ?. unfold Model.SpotID.
    rewrite <- (append_nil_r (Sprintf_d_d_d _ _ _)).
    by apply Sscanf_Sprintf_int. }
  split_and!.
  - by apply Hscan.
  - unfold parseSpotID. rewrite Hscan by done.
    by destruct (isValidLocation r _ _ _).
  - intros Hf' Hr' Hc' Heq. pose proof (Hscan p Hf Hr Hc) as H1.
    rewrite Heq, (Hscan q Hf' Hr' Hc') in H1. by injection H1.
Qed.

Lemma SpotID_round_trip_witness :
  let p := {| Model.Floor := -3; Model.Row := 0; Model.Column := 12;
              Model.Type_ := {| Model.VehicleType := "Bicycle";
                                Model.IsActive := true |};
              Model.IsOccupied := false; Model.VehicleNumber := "" |} in
  Sscanf_d_d_d (Model.SpotID p) = Some (-3, 0, 12) ∧
  parseSpotID lot (Model.SpotID p)
    = (if isValidLocation lot (-3) 0 12 then Ok (-3, 0, 12)
       else Err ErrInvalidLocation) ∧
  (isInt (Model.Floor p) → isInt (Model.Row p) → isInt (Model.Column p) →
   Model.SpotID p = Model.SpotID p →
   Model.Floor p = Model.Floor p ∧ Model.Row p = Model.Row p ∧
   Model.Column p = Model.Column p).
Proof.
  intros p. apply (SpotID_round_trip lot p p); unfold isInt; cbn; lia.
Defined.

End Identifiers.

(** ** Initialization *)

Section Initialization.
Import Errors.

(** X2: the service initializes the lot exactly when the dimensions are in
    range (1..8 floors, 1..1000 rows and columns, at least one gate); it
    never panics, and a rejected call returns the repository unchanged. *)
Theorem initialize_validates_dimensions F R C G r :
  (snd (Parking.InitializeParkingLot F R C G r) = Ok tt ↔
   1 ≤ F ≤ 8 ∧ 1 ≤ R ≤ 1000 ∧ 1 ≤ C ≤ 1000 ∧ 1 ≤ G) ∧
  snd (Parking.InitializeParkingLot F R C G r) ≠ Panic ∧
  (snd (Parking.InitializeParkingLot F R C G r) ≠ Ok tt →
   fst (Parking.InitializeParkingLot F R C G r) = r).
Proof.
  unfold Parking.InitializeParkingLot, Repository.InitializeParkingLot.
  destruct (Z.ltb_spec F 1); cbn [orb snd fst];
    [split_and!; [split; [done|lia]|done|done]|].
  destruct (Z.ltb_spec 8 F); cbn [orb snd fst];
    [split_and!; [split; [done|lia]|done|done]|].
  destruct (Z.ltb_spec R 1); cbn [orb snd fst];
    [split_and!; [split; [done|lia]|done|done]|].
  destruct (Z.ltb_spec 1000 R); cbn [orb snd fst];
    [split_and!; [split; [done|lia]|done|done]|].
  destruct (Z.ltb_spec C 1); cbn [orb snd fst];
    [split_and!; [split; [done|lia]|done|done]|].
  destruct (Z.ltb_spec 1000 C); cbn [orb snd fst];
    [split_and!; [split; [done|lia]|done|done]|].
  destruct (Z.ltb_spec G 1); cbn [orb snd fst];
    [split_and!; [split; [done|lia]|done|done]|].
  rewrite !makePanics_false by (unfold sliceSize, pointerSize; lia).
  rewrite !andb_false_r. cbn [snd fst].
  split_and!; [split; [lia|done]|done|done].
Qed.

Lemma initialize_validates_dimensions_witness :
  fst (Parking.InitializeParkingLot 9 5 10 2 lotBC1) = lotBC1.
Proof.
  apply (initialize_validates_dimensions 9 5 10 2 lotBC1). vm_compute. done.
Defined.

Lemma spotAt_initial_valid r F R C f row col spot :
  spots r = (λ f, (λ row, (λ col, newSpot f row col) <$> seqZ 0 C)
                    <$> seqZ 0 R) <$> seqZ 0 F →
  spotAt r f row col = Some spot →
  0 ≤ f < F ∧ 0 ≤ row < R ∧ 0 ≤ col < C.
Proof.
  intros Hs H. unfold spotAt in H. rewrite Hs in H.
  apply bind_Some in H as (fl & Hf & H).
  apply bind_Some in H as (rw & Hr & Hc).
  apply index_Some in Hf as [? Hf]. rewrite list_lookup_fmap in Hf.
  apply fmap_Some in Hf as (f0 & Hf0 & ->). apply lookup_seqZ in Hf0 as [_ ?].
  apply index_Some in Hr as [? Hr]. rewrite list_lookup_fmap in Hr.
  apply fmap_Some in Hr as (r0 & Hr0 & ->). apply lookup_seqZ in Hr0 as [_ ?].
  apply index_Some in Hc as [? Hc]. rewrite list_lookup_fmap in Hc.
  apply fmap_Some in Hc as (c0 & Hc0 & ->). apply lookup_seqZ in Hc0 as [_ ?].
  lia.
Qed.

Lemma initialized_lot_is_blank_aux F R C G r r' :
  Parking.InitializeParkingLot F R C G r = (r', Ok tt) →
  floors r' = F ∧ rows r' = R ∧ columns r' = C ∧ gates r' = G ∧
  (∀ f row col,
     spotAt r' f row col =
       if isValidLocation r' f row col then Some (newSpot f row col)
       else None) ∧
  (∀ vehicleType,
     FindAvailableSpot r' vehicleType = Err ErrNoAvailableSpot).
Proof.
  intros Hinit.
  apply Parking_InitializeParkingLot_ok in Hinit as (HF & HR & HC & _ & Hinit).
  apply Repository_InitializeParkingLot_ok in Hinit
    as (Hf & Hr & Hc & Hg & Hs & _ & _).
  assert (∀ f row col,
     spotAt r' f row col =
       if isValidLocation r' f row col then Some (newSpot f row col)
       else None) as Hgrid.
  { intros f row col.
    destruct (isValidLocation r' f row col) eqn:Hval.
    - apply isValidLocation_spec in Hval. rewrite Hf, Hr, Hc in Hval.
      apply (spotAt_initial r' F R C _ f row col Hs); [lia..|done].
    - destruct (spotAt r' f row col) as [spot|] eqn:Hspot; [|done].
      apply (spotAt_initial_valid r' F R C) in Hspot; [|done].
      assert (isValidLocation r' f row col = true); [|congruence].
      apply isValidLocation_spec. by rewrite Hf, Hr, Hc. }
  split_and!; try done.
  intros vehicleType.
  assert (wellFormed r') as Hwf.
  { split; rewrite ?Hf, ?Hr, ?Hc; try lia.
    intros f row col Hval. rewrite Hgrid, Hval. by eexists. }
  destruct (FindAvailableSpot_cases r' vehicleType Hwf)
    as [[Hres _]|(f & row & col & Hval & _ & (spot & Hspot & Hact & _) & _)];
    [done|].
  rewrite Hgrid, Hval in Hspot. injection Hspot as <-. discriminate.
Qed.

(** X3: after a successful initialization, whatever the repository held
    before, the grid has a spot exactly at the valid locations, and each
    one records its location and is unconfigured, inactive and unoccupied;
    so no spot can be found for any vehicle type. *)
Theorem initialized_lot_is_blank F R C G r r' :
  Parking.InitializeParkingLot F R C G r = (r', Ok tt) →
  floors r' = F ∧ rows r' = R ∧ columns r' = C ∧ gates r' = G ∧
  (∀ f row col,
     spotAt r' f row col =
       if isValidLocation r' f row col then Some (newSpot f row col)
       else None) ∧
  (∀ vehicleType,
     FindAvailableSpot r' vehicleType = Err ErrNoAvailableSpot).
Proof. exact (initialized_lot_is_blank_aux F R C G r r'). Qed.

Lemma initialized_lot_is_blank_witness :
  floors lot0 = 1 ∧ rows lot0 = 1 ∧ columns lot0 = 2 ∧ gates lot0 = 1 ∧
  (∀ f row col,
     spotAt lot0 f row col =
       if isValidLocation lot0 f row col then Some (newSpot f row col)
       else None) ∧
  (∀ vehicleType,
     FindAvailableSpot lot0 vehicleType = Err ErrNoAvailableSpot).
Proof.
  apply (initialized_lot_is_blank 1 1 2 1 NewParkingRepository lot0).
  reflexivity.
Defined.

End Initialization.

(** ** The layout of the grid and the history *)

Section Layout.
Import Errors.

Lemma Parking_ConfigureSpot_effect floor row column spotType r :
  Parking.ConfigureSpot floor row column spotType r =
    if negb (isValidLocation r floor row column)
    then (r, Err ErrInvalidLocation)
    else
      match spotAt r floor row column with
      | None => (r, Panic)
      | Some spot =>
          if IsOccupied spot
          then (r, Err "cannot reconfigure an occupied parking spot")
          else
            match spotTypeOf spotType with
            | None => (r, Err ErrInvalidSpotType)
            | Some (vehicleType, isActive) =>
                (withSpots r (updateSpot (setConfig vehicleType isActive)
                                floor row column (spots r)), Ok tt)
            end
      end.
Proof.
  unfold Parking.ConfigureSpot, Repository.IsValidLocation,
    Repository.IsSpotOccupied, Repository.ConfigureSpot, spotTypeOf.
  destruct (isValidLocation r floor row column) eqn:Hv; cbn [negb]; [|done].
  destruct (spotAt r floor row column) as [spot|] eqn:Hspot; [|done].
  destruct (IsOccupied spot); [done|].
  by repeat destruct (String.eqb spotType _).
Qed.

Lemma spotTypeOf_configOK spotType vehicleType isActive spot :
  spotTypeOf spotType = Some (vehicleType, isActive) →
  configOK (setConfig vehicleType isActive spot).
Proof.
  unfold spotTypeOf, configOK. cbn [setConfig IsActive VehicleType].
  repeat destruct (String.eqb spotType _); intros [= <- <-]; auto.
Qed.

Lemma layoutOK_update r r' upd f row col spot0 :
  floors r' = floors r → rows r' = rows r → columns r' = columns r →
  spots r' = updateSpot upd f row col (spots r) →
  spotAt r f row col = Some spot0 →
  Floor (upd spot0) = Floor spot0 → Row (upd spot0) = Row spot0 →
  Column (upd spot0) = Column spot0 → configOK (upd spot0) →
  layoutOK r → layoutOK r'.
Proof.
  intros E1 E2 E3 E4 Hspot0 Hf Hr Hc Hcfg Hlay f' row' col' spot.
  rewrite (isValidLocation_update r r') by done.
  rewrite (spotAt_update r r' upd f row col spot0) by done.
  case_decide as Hd; [|apply Hlay].
  destruct Hd as (<- & <- & <-). intros [= <-].
  destruct (Hlay _ _ _ _ Hspot0) as (? & ? & ? & ? & _).
  rewrite Hf, Hr, Hc. by split_and!.
Qed.

Lemma historyOK_same r r' :
  floors r' = floors r → rows r' = rows r → columns r' = columns r →
  vehicleHistory r' = vehicleHistory r → historyOK r → historyOK r'.
Proof.
  intros E1 E2 E3 E4 Hhist v s. rewrite E4. intros Hv.
  destruct (Hhist v s Hv) as (f & row & col & -> & Hval).
  exists f, row, col. split; [done|]. unfold isValidLocation.
  by rewrite E1, E2, E3.
Qed.

Lemma initialized_layout r0 : initialized r0 → layoutOK r0 ∧ historyOK r0.
Proof.
  intros (F & R & C & G & Hinit).
  destruct (initialized_lot_is_blank_aux _ _ _ _ _ _ Hinit)
    as (_ & _ & _ & _ & Hgrid & _).
  apply Parking_InitializeParkingLot_ok in Hinit as (_ & _ & _ & _ & Hinit).
  apply Repository_InitializeParkingLot_ok in Hinit
    as (_ & _ & _ & _ & _ & _ & Hh).
  split.
  - intros f row col spot. rewrite Hgrid.
    destruct (isValidLocation r0 f row col); [|done].
    intros [= <-]. split_and!; try done. right. by split.
  - intros v s. rewrite Hh. cbn [NewParkingRepository vehicleHistory].
    by rewrite lookup_empty.
Qed.

Lemma handle_layout q r :
  invariant r → layoutOK r ∧ historyOK r →
  layoutOK (handle q r) ∧ historyOK (handle q r).
Proof.
  intros Hinv [Hlay Hhist]. destruct q as [f row col code|T v|s v| |];
    cbn [handle]; try done.
  - rewrite Parking_ConfigureSpot_effect.
    destruct (isValidLocation r f row col) eqn:Hval; cbn [negb fst]; [|done].
    destruct (spotAt r f row col) as [spot|] eqn:Hspot; [|done].
    destruct (IsOccupied spot); [done|].
    destruct (spotTypeOf code) as [[vt act]|] eqn:Hcode; [|done].
    cbn [fst]. split.
    + eapply (layoutOK_update r _ (setConfig vt act) f row col spot);
        try done. by eapply spotTypeOf_configOK.
    + by apply (historyOK_same r).
  - pose proof (Park_cases T v r (inv_wf r Hinv)) as H.
    destruct (Parking.Park T v r) as [r' res]. cbn [fst].
    destruct H as [[-> _]|(f & row & col & spot & _ & _ & _ & _ & Hval &
      Hspot & _ & _ & _ & _ & E1 & E2 & E3 & E4 & _ & Eh)]; [done|].
    split.
    + eapply (layoutOK_update r r' (setOccupant true v) f row col spot);
        try done. by destruct (Hlay _ _ _ _ Hspot) as (_ & _ & _ & _ & ?).
    + by apply (historyOK_same r).
  - pose proof (Unpark_cases s v r Hinv) as H.
    destruct (Parking.Unpark s v r) as [r' res]. cbn [fst].
    destruct H as [[-> _]|(f & row & col & spot & _ & _ & _ & -> & Hval &
      Hspot & _ & _ & E1 & E2 & E3 & E4 & _ & Eh)]; [done|].
    split.
    + eapply (layoutOK_update r r' (setOccupant false "") f row col spot);
        try done. by destruct (Hlay _ _ _ _ Hspot) as (_ & _ & _ & _ & ?).
    + intros v' s'. rewrite Eh.
      assert (∀ f' row' col', isValidLocation r' f' row' col'
                              = isValidLocation r f' row' col') as Hsame.
      { intros. unfold isValidLocation. by rewrite E1, E2, E3. }
      destruct (decide (v = v')) as [<-|Hne].
      * rewrite lookup_insert_eq. intros [= <-].
        exists f, row, col. by rewrite Hsame.
      * rewrite lookup_insert_ne by done. intros Hv'.
        destruct (Hhist v' s' Hv') as (f' & row' & col' & -> & ?).
        exists f', row', col'. by rewrite Hsame.
Qed.

Lemma reachable_layout r : reachable r → layoutOK r ∧ historyOK r.
Proof.
  intros (r0 & qs & Hinit & ->).
  pose proof (initialized_invariant r0 Hinit) as Hinv.
  pose proof (initialized_layout r0 Hinit) as Hlay. clear Hinit.
  revert r0 Hinv Hlay. induction qs as [|q qs IH]; intros r0 Hinv Hlay; [done|].
  cbn [serve foldl]. apply IH.
  - by apply handle_invariant.
  - by apply handle_layout.
Qed.

(** No request changes the dimensions of the lot; this holds in every
    state. *)
Lemma handle_dimensions q r :
  floors (handle q r) = floors r ∧ rows (handle q r) = rows r ∧
  columns (handle q r) = columns r ∧ gates (handle q r) = gates r.
Proof.
  destruct q as [f row col code|T v|s v| |]; cbn [handle]; try done.
  - rewrite Parking_ConfigureSpot_effect.
    by repeat case_match.
  - unfold Parking.Park, Repository.ParkVehicle.
    repeat case_match; simplify_eq; done.
  - unfold Parking.Unpark, Repository.UnparkVehicle.
    repeat case_match; simplify_eq; done.
Qed.

(** X4: requests never change the dimensions of the lot, whatever the
    state they start from; and in every reachable state the grid has a
    spot exactly at the valid locations, each spot recording its own floor,
    row and column. *)
Theorem grid_layout_is_fixed r qs f row col :
  (floors (serve qs r) = floors r ∧ rows (serve qs r) = rows r ∧
   columns (serve qs r) = columns r ∧ gates (serve qs r) = gates r) ∧
  (reachable r →
   (is_Some (spotAt r f row col) ↔ isValidLocation r f row col = true) ∧
   (∀ spot, spotAt r f row col = Some spot →
            Floor spot = f ∧ Row spot = row ∧ Column spot = col)).
Proof.
  split.
  - revert r. induction qs as [|q qs IH]; intros r; [done|].
    change (serve (q :: qs) r) with (serve qs (handle q r)).
    destruct (IH (handle q r)) as (-> & -> & -> & ->).
    apply handle_dimensions.
  - intros Hreach. split; [split|].
    + intros [spot Hspot].
      by destruct (proj1 (reachable_layout r Hreach) _ _ _ _ Hspot).
    + apply (wf_spots r (inv_wf r (reachable_invariant r Hreach))).
    + intros spot Hspot.
      destruct (proj1 (reachable_layout r Hreach) _ _ _ _ Hspot)
        as (_ & ? & ? & ? & _). done.
Qed.

Lemma grid_layout_is_fixed_witness :
  (floors (serve [ReqUnpark "0-0-0" "BC1"] lotRaced) = floors lotRaced ∧
   rows (serve [ReqUnpark "0-0-0" "BC1"] lotRaced) = rows lotRaced ∧
   columns (serve [ReqUnpark "0-0-0" "BC1"] lotRaced) = columns lotRaced ∧
   gates (serve [ReqUnpark "0-0-0" "BC1"] lotRaced) = gates lotRaced) ∧
  (is_Some (spotAt lotBC1 0 0 2) ↔ isValidLocation lotBC1 0 0 2 = true) ∧
  (∀ spot, spotAt lotBC1 0 0 2 = Some spot →
           Floor spot = 0 ∧ Row spot = 0 ∧ Column spot = 2).
Proof.
  split.
  - exact (proj1 (grid_layout_is_fixed lotRaced [ReqUnpark "0-0-0" "BC1"]
                    0 0 0)).
  - exact (proj2 (grid_layout_is_fixed lotBC1 [] 0 0 2) lotBC1_reachable).
Defined.

(** X5: in every reachable state each spot is configured in one of the
    four ways of the type codes: active with type Bicycle, Motorcycle or
    Automobile, or inactive with the empty type. *)
Theorem spot_configuration_invariant r f row col spot :
  reachable r →
  spotAt r f row col = Some spot →
  (IsActive spot = true ∧
   (VehicleType spot = "Bicycle" ∨ VehicleType spot = "Motorcycle" ∨
    VehicleType spot = "Automobile")) ∨
  (IsActive spot = false ∧ VehicleType spot = "").
Proof.
  intros Hreach Hspot.
  by destruct (proj1 (reachable_layout r Hreach) _ _ _ _ Hspot)
    as (_ & _ & _ & _ & ?).
Qed.

Lemma spot_configuration_invariant_witness :
  (IsActive (setConfig "Bicycle" true (newSpot 0 0 1)) = true ∧
   (VehicleType (setConfig "Bicycle" true (newSpot 0 0 1)) = "Bicycle" ∨
    VehicleType (setConfig "Bicycle" true (newSpot 0 0 1)) = "Motorcycle" ∨
    VehicleType (setConfig "Bicycle" true (newSpot 0 0 1)) = "Automobile")) ∨
  (IsActive (setConfig "Bicycle" true (newSpot 0 0 1)) = false ∧
   VehicleType (setConfig "Bicycle" true (newSpot 0 0 1)) = "").
Proof.
  apply (spot_configuration_invariant lotBC1 0 0 1).
  - apply lotBC1_reachable.
  - vm_compute. reflexivity.
Defined.

End Layout.

(** ** ConfigureSpot *)

Section Configure.
Import Errors.

Lemma spotAt_withSpots_update r upd f row col spot f' row' col' :
  spotAt r f row col = Some spot →
  spotAt (withSpots r (updateSpot upd f row col (spots r))) f' row' col' =
    if decide (f = f' ∧ row = row' ∧ col = col')
    then Some (upd spot) else spotAt r f' row' col'.
Proof.
  intros Hspot.
  by apply (spotAt_update r (withSpots r _) upd f row col spot).
Qed.

(** X6: on a valid location whose spot is not occupied, a recognized type
    code makes [ConfigureSpot] succeed: the spot gets the type and the
    active flag of the code ("B-1", "M-1", "A-1": active Bicycle,
    Motorcycle, Automobile; "X-0": inactive, no type) and keeps its other
    fields; no other spot and neither vehicle map changes; and when the
    code is an active one the spot is then free for that type. *)
Theorem configure_sets_type_and_flag r floor row column spotType
    vehicleType isActive spot :
  isValidLocation r floor row column = true →
  spotAt r floor row column = Some spot →
  IsOccupied spot = false →
  spotTypeOf spotType = Some (vehicleType, isActive) →
  ∃ r',
    Parking.ConfigureSpot floor row column spotType r = (r', Ok tt) ∧
    spotAt r' floor row column = Some (setConfig vehicleType isActive spot) ∧
    (∀ f' row' col', ¬ (floor = f' ∧ row = row' ∧ column = col') →
       spotAt r' f' row' col' = spotAt r f' row' col') ∧
    vehicleMap r' = vehicleMap r ∧ vehicleHistory r' = vehicleHistory r ∧
    (isActive = true → freeAt r' vehicleType floor row column).
Proof.
  intros Hval Hspot Hocc Hcode. eexists.
  rewrite Parking_ConfigureSpot_effect, Hval, Hspot, Hocc, Hcode.
  cbn [negb]. split; [done|].
  assert (spotAt (withSpots r (updateSpot (setConfig vehicleType isActive)
                     floor row column (spots r))) floor row column
          = Some (setConfig vehicleType isActive spot)) as Hnew.
  { rewrite (spotAt_withSpots_update r _ _ _ _ spot) by done.
    by rewrite decide_True. }
  split_and!; try done.
  - intros f' row' col' Hne.
    rewrite (spotAt_withSpots_update r _ _ _ _ spot) by done.
    by rewrite decide_False.
  - intros ->. eexists. split; [exact Hnew|]. by split_and!.
Qed.

Lemma configure_sets_type_and_flag_witness :
  ∃ r',
    Parking.ConfigureSpot 0 0 1 "X-0" lotBC1 = (r', Ok tt) ∧
    spotAt r' 0 0 1
      = Some (setConfig "" false (setConfig "Bicycle" true (newSpot 0 0 1))) ∧
    (∀ f' row' col', ¬ (0 = f' ∧ 0 = row' ∧ 1 = col') →
       spotAt r' f' row' col' = spotAt lotBC1 f' row' col') ∧
    vehicleMap r' = vehicleMap lotBC1 ∧
    vehicleHistory r' = vehicleHistory lotBC1 ∧
    (false = true → freeAt r' "" 0 0 1).
Proof.
  apply (configure_sets_type_and_flag lotBC1 0 0 1 "X-0" "" false);
    vm_compute; reflexivity.
Defined.

(** X7: [ConfigureSpot] checks the location first and the type code last:
    an invalid location gives [ErrInvalidLocation] whatever the code, and
    an unknown code gives [ErrInvalidSpotType] only for a valid location
    whose spot is not occupied; every call that does not succeed returns
    the repository unchanged. *)
Theorem configure_rejections r floor row column spotType :
  (isValidLocation r floor row column = false →
   Parking.ConfigureSpot floor row column spotType r
   = (r, Err ErrInvalidLocation)) ∧
  (∀ spot, isValidLocation r floor row column = true →
     spotAt r floor row column = Some spot → IsOccupied spot = false →
     spotTypeOf spotType = None →
     Parking.ConfigureSpot floor row column spotType r
     = (r, Err ErrInvalidSpotType)) ∧
  (∀ r' res, Parking.ConfigureSpot floor row column spotType r = (r', res) →
     res ≠ Ok tt → r' = r).
Proof.
  rewrite Parking_ConfigureSpot_effect. split_and!.
  - by intros ->.
  - intros spot -> -> -> ->. done.
  - intros r' res. repeat case_match; intros [= <- <-]; done.
Qed.

Lemma configure_rejections_witness :
  Parking.ConfigureSpot 0 0 2 "Z-9" lotBC1 = (lotBC1, Err ErrInvalidLocation).
Proof.
  apply (configure_rejections lotBC1 0 0 2 "Z-9"). vm_compute. reflexivity.
Defined.

(** X8: the repository's own [ConfigureSpot] has no occupancy guard: on
    every valid location it succeeds and overwrites type and active flag,
    leaving occupancy, the other spots and both maps as they are; applied
    to an occupied spot with [isActive = false] it therefore produces an
    inactive occupied spot. *)
Theorem repository_configure_has_no_guard r floor row column vehicleType
    isActive spot :
  isValidLocation r floor row column = true →
  spotAt r floor row column = Some spot →
  ∃ r',
    Repository.ConfigureSpot floor row column vehicleType isActive r
    = (r', Ok tt) ∧
    spotAt r' floor row column = Some (setConfig vehicleType isActive spot) ∧
    (∀ f' row' col', ¬ (floor = f' ∧ row = row' ∧ column = col') →
       spotAt r' f' row' col' = spotAt r f' row' col') ∧
    vehicleMap r' = vehicleMap r ∧ vehicleHistory r' = vehicleHistory r ∧
    (IsOccupied spot = true → isActive = false → ¬ gridOK r').
Proof.
  intros Hval Hspot. eexists. unfold Repository.ConfigureSpot.
  rewrite Hval, Hspot. cbn [negb]. split; [done|].
  assert (spotAt (withSpots r (updateSpot (setConfig vehicleType isActive)
                     floor row column (spots r))) floor row column
          = Some (setConfig vehicleType isActive spot)) as Hnew.
  { rewrite (spotAt_withSpots_update r _ _ _ _ spot) by done.
    by rewrite decide_True. }
  split_and!; try done.
  - intros f' row' col' Hne.
    rewrite (spotAt_withSpots_update r _ _ _ _ spot) by done.
    by rewrite decide_False.
  - intros Hocc -> Hgrid. destruct (Hgrid _ _ _ _ Hnew) as [_ Hinactive].
    cbn [setConfig IsActive IsOccupied] in Hinactive.
    rewrite Hocc in Hinactive. by specialize (Hinactive eq_refl).
Qed.

Lemma repository_configure_has_no_guard_witness :
  ∃ r',
    Repository.ConfigureSpot 0 0 0 "" false lotBC1 = (r', Ok tt) ∧
    spotAt r' 0 0 0
      = Some (setConfig "" false
                (setOccupant true "BC1"
                   (setConfig "Bicycle" true (newSpot 0 0 0)))) ∧
    (∀ f' row' col', ¬ (0 = f' ∧ 0 = row' ∧ 0 = col') →
       spotAt r' f' row' col' = spotAt lotBC1 f' row' col') ∧
    vehicleMap r' = vehicleMap lotBC1 ∧
    vehicleHistory r' = vehicleHistory lotBC1 ∧
    (IsOccupied (setOccupant true "BC1"
                   (setConfig "Bicycle" true (newSpot 0 0 0))) = true →
     false = false → ¬ gridOK r').
Proof.
  apply (repository_configure_has_no_guard lotBC1 0 0 0 "" false);
    vm_compute; reflexivity.
Defined.

End Configure.

(** ** Park *)

Section ParkFacts.
Import Errors.

Lemma validateVehicleType_spec vehicleType :
  validateVehicleType vehicleType = None ↔
  vehicleType = "Bicycle" ∨ vehicleType = "Motorcycle" ∨
  vehicleType = "Automobile".
Proof.
  unfold validateVehicleType, Bicycle, Motorcycle, Automobile.
  destruct (String.eqb_spec vehicleType "Bicycle"); [by split; auto|].
  destruct (String.eqb_spec vehicleType "Motorcycle"); [by split; auto|].
  destruct (String.eqb_spec vehicleType "Automobile"); [by split; auto|].
  cbn [orb]. split; [done|]. by intros [?|[?|?]].
Qed.

(** What a successful [Park] did, in every state. *)
Lemma Park_ok_inv vehicleType v r r' spotID :
  Parking.Park vehicleType v r = (r', Ok spotID) →
  validateVehicleType vehicleType = None ∧ v ≠ "" ∧
  vehicleMap r !! v = None ∧
  Repository.FindAvailableSpot r vehicleType = Ok spotID ∧
  vehicleMap r' = <[v := spotID]> (vehicleMap r) ∧
  vehicleHistory r' = vehicleHistory r.
Proof.
  unfold Parking.Park, Repository.IsVehicleParked, Repository.ParkVehicle.
  destruct (validateVehicleType vehicleType); [done|].
  destruct (validateVehicleNumber v) eqn:Hv; [done|].
  apply validateVehicleNumber_None in Hv.
  destruct (vehicleMap r !! v); [done|]. cbn iota.
  destruct (FindAvailableSpot r vehicleType) as [id| |]; [|done|done].
  destruct (parseSpotID r id) as [[[f row] col]| |]; [|done|done].
  destruct (spotAt r f row col); [|done].
  by intros [= <- <-].
Qed.

Lemma park_rejections_aux r vehicleType v :
  (vehicleType ≠ "Bicycle" → vehicleType ≠ "Motorcycle" →
   vehicleType ≠ "Automobile" →
   Parking.Park vehicleType v r = (r, Err ErrInvalidVehicleType)) ∧
  (validateVehicleType vehicleType = None →
   Parking.Park vehicleType "" r = (r, Err "vehicle number cannot be empty")) ∧
  (∀ cur, validateVehicleType vehicleType = None → v ≠ "" →
     vehicleMap r !! v = Some cur →
     Parking.Park vehicleType v r
     = (r, Err (ErrVehicleAlreadyParked ++ ": " ++ v ++ " at spot " ++ cur))) ∧
  (∀ r' res, Parking.Park vehicleType v r = (r', res) →
     (∀ spotID, res ≠ Ok spotID) → r' = r).
Proof.
  split_and!.
  - intros H1 H2 H3. unfold Parking.Park.
    destruct (validateVehicleType vehicleType) eqn:HT.
    + unfold validateVehicleType in HT. by destruct (_ || _); simplify_eq.
    + apply validateVehicleType_spec in HT. tauto.
  - intros HT. unfold Parking.Park. by rewrite HT.
  - intros cur HT Hv Hcur. unfold Parking.Park, Repository.IsVehicleParked.
    apply validateVehicleNumber_None in Hv. by rewrite HT, Hv, Hcur.
  - intros r' res.
    unfold Parking.Park, Repository.IsVehicleParked, Repository.ParkVehicle.
    destruct (validateVehicleType vehicleType); [by intros [= <- <-]|].
    destruct (validateVehicleNumber v); [by intros [= <- <-]|].
    destruct (vehicleMap r !! v); [by intros [= <- <-]|]. cbn iota.
    destruct (FindAvailableSpot r vehicleType) as [id| |];
      [|by intros [= <- <-]..].
    destruct (parseSpotID r id) as [[[f row] col]| |];
      [|by intros [= <- <-]..].
    destruct (spotAt r f row col); [|by intros [= <- <-]].
    intros [= <- <-] Hne. by destruct (Hne id).
Qed.

(** X9: [Park] checks the vehicle type first, then the vehicle number,
    then whether the vehicle is parked; a parked vehicle is rejected with
    [ErrVehicleAlreadyParked] naming its spot; and every call that does
    not succeed returns the repository unchanged.  This holds in every
    state. *)
Theorem park_rejections r vehicleType v :
  (vehicleType ≠ "Bicycle" → vehicleType ≠ "Motorcycle" →
   vehicleType ≠ "Automobile" →
   Parking.Park vehicleType v r = (r, Err ErrInvalidVehicleType)) ∧
  (validateVehicleType vehicleType = None →
   Parking.Park vehicleType "" r = (r, Err "vehicle number cannot be empty")) ∧
  (∀ cur, validateVehicleType vehicleType = None → v ≠ "" →
     vehicleMap r !! v = Some cur →
     Parking.Park vehicleType v r
     = (r, Err (ErrVehicleAlreadyParked ++ ": " ++ v ++ " at spot " ++ cur))) ∧
  (∀ r' res, Parking.Park vehicleType v r = (r', res) →
     (∀ spotID, res ≠ Ok spotID) → r' = r).
Proof. exact (park_rejections_aux r vehicleType v). Qed.

Lemma park_rejections_witness :
  Parking.Park "Bicycle" "BC1" lotBC1
  = (lotBC1, Err (ErrVehicleAlreadyParked ++ ": " ++ "BC1" ++ " at spot "
                    ++ "0-0-0")).
Proof.
  apply (park_rejections lotBC1 "Bicycle" "BC1"); [|done|];
    vm_compute; reflexivity.
Defined.

(** X10: after a successful [Park], a second [Park] for the same vehicle,
    with any valid type, fails with [ErrVehicleAlreadyParked] naming the
    spot just assigned and changes nothing.  This holds in every state. *)
Theorem park_twice_is_rejected r vehicleType v r' spotID vehicleType' :
  Parking.Park vehicleType v r = (r', Ok spotID) →
  validateVehicleType vehicleType' = None →
  Parking.Park vehicleType' v r'
  = (r', Err (ErrVehicleAlreadyParked ++ ": " ++ v ++ " at spot " ++ spotID)).
Proof.
  intros Hpark HT.
  apply Park_ok_inv in Hpark as (_ & Hv & _ & _ & Hmap & _).
  apply (park_rejections_aux r' vehicleType' v); try done.
  by rewrite Hmap, lookup_insert_eq.
Qed.

Lemma park_twice_is_rejected_witness :
  Parking.Park "Automobile" "BC1" lotBC1
  = (lotBC1, Err (ErrVehicleAlreadyParked ++ ": " ++ "BC1" ++ " at spot "
                    ++ "0-0-0")).
Proof.
  apply (park_twice_is_rejected lot "Bicycle" "BC1" lotBC1 "0-0-0");
    vm_compute; reflexivity.
Defined.

Lemma park_succeeds_iff_aux r vehicleType v :
  wellFormed r →
  ((∃ r' spotID, Parking.Park vehicleType v r = (r', Ok spotID)) ↔
   (vehicleType = "Bicycle" ∨ vehicleType = "Motorcycle" ∨
    vehicleType = "Automobile") ∧ v ≠ "" ∧ vehicleMap r !! v = None ∧
   ∃ f row col, isValidLocation r f row col = true ∧
                freeAt r vehicleType f row col) ∧
  ((vehicleType = "Bicycle" ∨ vehicleType = "Motorcycle" ∨
    vehicleType = "Automobile") → v ≠ "" → vehicleMap r !! v = None →
   (∀ f row col, isValidLocation r f row col = true →
                 ¬ freeAt r vehicleType f row col) →
   Parking.Park vehicleType v r = (r, Err ErrNoAvailableSpot)).
Proof.
  intros Hwf. split.
  - split.
    + intros (r' & id & Hpark).
      pose proof (Park_cases vehicleType v r Hwf) as H. rewrite Hpark in H.
      destruct H as [[_ Hne]|(f & row & col & spot & _ & HT & Hv & Hnone &
        Hval & Hspot & Hact & Htype & Hfree & _)]; [by destruct (Hne id)|].
      apply validateVehicleType_spec in HT. split_and!; try done.
      exists f, row, col. split; [done|]. by exists spot.
    + intros (HT & Hv & Hnone & f & row & col & Hval & Hfree).
      apply validateVehicleType_spec in HT.
      apply validateVehicleNumber_None in Hv.
      unfold Parking.Park, Repository.IsVehicleParked.
      rewrite HT, Hv, Hnone. cbn iota.
      destruct (FindAvailableSpot_cases r vehicleType Hwf)
        as [[_ Hno]|(f0 & row0 & col0 & Hval0 & -> & (spot & Hspot & _) & _)];
        [by destruct (Hno f row col)|].
      unfold Repository.ParkVehicle. rewrite parseSpotID_Sprintf by done.
      rewrite Hspot. by do 2 eexists.
  - intros HT Hv Hnone Hno.
    apply validateVehicleType_spec in HT.
    apply validateVehicleNumber_None in Hv.
    unfold Parking.Park, Repository.IsVehicleParked.
    rewrite HT, Hv, Hnone. cbn iota.
    destruct (FindAvailableSpot_cases r vehicleType Hwf)
      as [[-> _]|(f0 & row0 & col0 & Hval0 & _ & Hfree & _)]; [done|].
    by destruct (Hno f0 row0 col0).
Qed.

(** X11: on a well-formed repository [Park] succeeds exactly when the type
    is one of the three kinds, the number is not empty, the vehicle is
    not parked and some valid location has a free spot of the type; with
    the first three and no such spot it fails with [ErrNoAvailableSpot]. *)
Theorem park_succeeds_iff r vehicleType v :
  wellFormed r →
  ((∃ r' spotID, Parking.Park vehicleType v r = (r', Ok spotID)) ↔
   (vehicleType = "Bicycle" ∨ vehicleType = "Motorcycle" ∨
    vehicleType = "Automobile") ∧ v ≠ "" ∧ vehicleMap r !! v = None ∧
   ∃ f row col, isValidLocation r f row col = true ∧
                freeAt r vehicleType f row col) ∧
  ((vehicleType = "Bicycle" ∨ vehicleType = "Motorcycle" ∨
    vehicleType = "Automobile") → v ≠ "" → vehicleMap r !! v = None →
   (∀ f row col, isValidLocation r f row col = true →
                 ¬ freeAt r vehicleType f row col) →
   Parking.Park vehicleType v r = (r, Err ErrNoAvailableSpot)).
Proof. exact (park_succeeds_iff_aux r vehicleType v). Qed.

Lemma park_succeeds_iff_witness :
  ((∃ r' spotID, Parking.Park "Motorcycle" "M7" lotBC1 = (r', Ok spotID)) ↔
   ("Motorcycle" = "Bicycle" ∨ "Motorcycle" = "Motorcycle" ∨
    "Motorcycle" = "Automobile") ∧ "M7" ≠ "" ∧
   vehicleMap lotBC1 !! "M7" = None ∧
   ∃ f row col, isValidLocation lotBC1 f row col = true ∧
                freeAt lotBC1 "Motorcycle" f row col) ∧
  (("Motorcycle" = "Bicycle" ∨ "Motorcycle" = "Motorcycle" ∨
    "Motorcycle" = "Automobile") → "M7" ≠ "" →
   vehicleMap lotBC1 !! "M7" = None →
   (∀ f row col, isValidLocation lotBC1 f row col = true →
                 ¬ freeAt lotBC1 "Motorcycle" f row col) →
   Parking.Park "Motorcycle" "M7" lotBC1 = (lotBC1, Err ErrNoAvailableSpot)).
Proof.
  apply (park_succeeds_iff lotBC1 "Motorcycle" "M7").
  exact (inv_wf lotBC1 (reachable_invariant lotBC1 lotBC1_reachable)).
Defined.

End ParkFacts.

(** ** How the operations compose *)

Section Composition.
Import Errors.

Lemma list_alter_fix {A} (f : A → A) (l : list A) (i : nat) (x : A) :
  l !! i = Some x → f x = x → alter f i l = l.
Proof.
  intros Hi Hx. apply list_eq. intros j. rewrite list_lookup_alter.
  case_decide as Hd; [|done]. subst j. by rewrite Hi; cbn; rewrite Hx.
Qed.

(** Two writes to one spot that cancel leave the grid as it was. *)
Lemma updateSpot_cancel r upd1 upd2 f row col spot :
  spotAt r f row col = Some spot → upd2 (upd1 spot) = spot →
  updateSpot upd2 f row col (updateSpot upd1 f row col (spots r)) = spots r.
Proof.
  unfold spotAt, updateSpot. intros H Hupd.
  apply bind_Some in H as (fl & Hf & H).
  apply bind_Some in H as (rw & Hr & Hc).
  apply index_Some in Hf as [_ Hf]. apply index_Some in Hr as [_ Hr].
  apply index_Some in Hc as [_ Hc].
  rewrite list_alter_alter_eq. apply (list_alter_fix _ _ _ fl Hf).
  cbn [compose]. rewrite list_alter_alter_eq.
  apply (list_alter_fix _ _ _ rw Hr).
  cbn [compose]. rewrite list_alter_alter_eq.
  by apply (list_alter_fix _ _ _ spot Hc).
Qed.

(** X12: in a reachable state, parking a vehicle and unparking it from the
    spot it was given restores the grid and the map of current spots; the
    only trace is the entry of the vehicle in the history. *)
Theorem park_then_unpark_restores r vehicleType v r1 spotID :
  reachable r →
  Parking.Park vehicleType v r = (r1, Ok spotID) →
  ∃ r2,
    Parking.Unpark spotID v r1 = (r2, Ok tt) ∧
    floors r2 = floors r ∧ rows r2 = rows r ∧ columns r2 = columns r ∧
    spots r2 = spots r ∧
    vehicleMap r2 = vehicleMap r ∧
    vehicleHistory r2 = <[v := spotID]> (vehicleHistory r).
Proof.
  intros Hreach Hpark. apply reachable_invariant in Hreach as Hinv.
  pose proof (Park_invariant vehicleType v r Hinv) as Hinv1.
  pose proof (Park_cases vehicleType v r (inv_wf r Hinv)) as H.
  rewrite Hpark in H, Hinv1. cbn [fst] in Hinv1.
  destruct H as [[_ Hne]|(f & row & col & spot & [= ->] & _ & Hv & Hnone &
    Hval & Hspot & _ & _ & Hfree & _ & E1 & E2 & E3 & E4 & Emap & Ehist)];
    [by destruct (Hne spotID)|].
  pose proof (Unpark_cases (Fmt.Sprintf_d_d_d f row col) v r1 Hinv1) as H.
  destruct (Parking.Unpark (Fmt.Sprintf_d_d_d f row col) v r1) as [r2 res].
  destruct H as [(_ & _ & Hno)|(f' & row' & col' & spot' & -> & _ & _ & Heq &
    Hval' & _ & _ & _ & F1 & F2 & F3 & F4 & Fmap & Fhist)].
  { exfalso. apply Hno. by rewrite Emap, lookup_insert_eq. }
  assert (isValidLocation r1 f row col = true) as Hval1
    by (by rewrite (isValidLocation_update r r1)).
  destruct (Sprintf_valid_inj r1 _ _ _ _ _ _ (inv_wf _ Hinv1) Hval1 Hval' Heq)
    as (<- & <- & <-).
  exists r2. split_and!; [done|congruence|congruence|congruence| | |].
  - rewrite F4, E4. apply (updateSpot_cancel r _ _ _ _ _ spot Hspot).
    destruct (inv_grid r Hinv _ _ _ _ Hspot) as [Hiff _].
    destruct spot as [sf sr sc st sa so sn]. cbn in *. subst so.
    destruct (decide (sn = "")) as [->|Hn]; [done|].
    by apply Hiff in Hn.
  - rewrite Fmap, Emap. by apply delete_insert_id.
  - by rewrite Fhist, Ehist.
Qed.

Lemma park_then_unpark_restores_witness :
  ∃ r2,
    Parking.Unpark "0-0-0" "BC1" lotBC1 = (r2, Ok tt) ∧
    floors r2 = floors lot ∧ rows r2 = rows lot ∧ columns r2 = columns lot ∧
    spots r2 = spots lot ∧
    vehicleMap r2 = vehicleMap lot ∧
    vehicleHistory r2 = <["BC1" := "0-0-0"]> (vehicleHistory lot).
Proof.
  apply (park_then_unpark_restores lot "Bicycle" "BC1" lotBC1 "0-0-0").
  - apply lot_reachable.
  - vm_compute. reflexivity.
Defined.

(** X13: in a reachable state a successful [Unpark] leaves a free spot of
    the type the spot is configured with, so a [Park] of that type
    succeeds for every non-empty vehicle number that is not parked, the
    unparked vehicle included. *)
Theorem unpark_frees_a_spot r s v r' v' :
  reachable r →
  Parking.Unpark s v r = (r', Ok tt) →
  v' ≠ "" → vehicleMap r' !! v' = None →
  ∃ f row col spot r'' spotID,
    s = Fmt.Sprintf_d_d_d f row col ∧
    spotAt r f row col = Some spot ∧
    freeAt r' (VehicleType spot) f row col ∧
    Parking.Park (VehicleType spot) v' r' = (r'', Ok spotID).
Proof.
  intros Hreach Hunpark Hv' Hnone. apply reachable_invariant in Hreach as Hinv.
  pose proof (Unpark_invariant s v r Hinv) as Hinv'.
  pose proof (Unpark_cases s v r Hinv) as H. rewrite Hunpark in H, Hinv'.
  cbn [fst] in Hinv'.
  destruct H as [(_ & Hne & _)|(f & row & col & spot & _ & _ & _ & -> & Hval &
    Hspot & Hocc & _ & E1 & E2 & E3 & E4 & _)]; [done|].
  destruct (proj1 (reachable_layout r Hreach) _ _ _ _ Hspot)
    as (_ & _ & _ & _ & Hcfg).
  assert (IsActive spot = true) as Hact.
  { destruct (IsActive spot) eqn:Ha; [done|].
    destruct (inv_grid r Hinv _ _ _ _ Hspot) as [_ Hin].
    rewrite Hin in Hocc by done. done. }
  assert (freeAt r' (VehicleType spot) f row col) as Hfree.
  { exists (setOccupant false "" spot). split; [|done].
    rewrite (spotAt_update r r' _ f row col spot) by done.
    by rewrite decide_True. }
  assert (isValidLocation r' f row col = true) as Hval'
    by (by rewrite (isValidLocation_update r r')).
  destruct (proj2 (proj1 (park_succeeds_iff_aux r' (VehicleType spot) v'
                            (inv_wf _ Hinv')))) as (r'' & id & Hpark).
  { split_and!; try done.
    - destruct Hcfg as [[_ HT]|[Hin _]]; [done|congruence].
    - by exists f, row, col. }
  exists f, row, col, spot, r'', id. by split_and!.
Qed.

Lemma unpark_frees_a_spot_witness :
  ∃ f row col spot r'' spotID,
    "0-0-0" = Fmt.Sprintf_d_d_d f row col ∧
    spotAt lotBC1 f row col = Some spot ∧
    freeAt (fst (Parking.Unpark "0-0-0" "BC1" lotBC1))
      (VehicleType spot) f row col ∧
    Parking.Park (VehicleType spot) "BC3"
      (fst (Parking.Unpark "0-0-0" "BC1" lotBC1)) = (r'', Ok spotID).
Proof.
  apply (unpark_frees_a_spot lotBC1 "0-0-0" "BC1" _ "BC3").
  - apply lotBC1_reachable.
  - vm_compute. reflexivity.
  - done.
  - vm_compute. reflexivity.
Defined.

End Composition.

(** ** Searching vehicles *)

Section Search.
Import Errors.

(** The effect of every request on the two maps, in every state. *)
Lemma handle_maps q r :
  (vehicleMap (handle q r) = vehicleMap r ∧
   vehicleHistory (handle q r) = vehicleHistory r) ∨
  (∃ v spotID, vehicleOf q = Some v ∧
     vehicleMap (handle q r) = <[v := spotID]> (vehicleMap r) ∧
     vehicleHistory (handle q r) = vehicleHistory r) ∨
  (∃ v spotID, vehicleOf q = Some v ∧
     vehicleMap (handle q r) = delete v (vehicleMap r) ∧
     vehicleHistory (handle q r) = <[v := spotID]> (vehicleHistory r)).
Proof.
  destruct q as [f row col code|T v|s v| |]; cbn [handle vehicleOf];
    try by left.
  - left. rewrite Parking_ConfigureSpot_effect. by repeat case_match.
  - destruct (Parking.Park T v r) as [r' [id|e|]] eqn:Hpark.
    + apply Park_ok_inv in Hpark as (_ & _ & _ & _ & ? & ?).
      right; left. by exists v, id.
    + left. by rewrite (proj2 (proj2 (proj2 (park_rejections_aux r T v)))
                          r' (Err e) Hpark).
    + left. by rewrite (proj2 (proj2 (proj2 (park_rejections_aux r T v)))
                          r' Panic Hpark).
  - destruct (Parking.Unpark s v r) as [r' res] eqn:Hunpark. cbn [fst].
    revert Hunpark.
    unfold Parking.Unpark, Repository.IsVehicleParked,
      Repository.ParseSpotID, Repository.UnparkVehicle.
    destruct (validateVehicleNumber v); [intros [= <- <-]; by left|].
    destruct (vehicleMap r !! v) as [cur|]; cbn [negb];
      [|intros [= <- <-]; by left].
    destruct (String.eqb cur s); cbn [negb]; [|intros [= <- <-]; by left].
    destruct (parseSpotID r s) as [[[f row] col]| |];
      [|intros [= <- <-]; by left..].
    destruct (isValidLocation r f row col); cbn [negb];
      [|intros [= <- <-]; by left].
    destruct (spotAt r f row col) as [spot|]; [|intros [= <- <-]; by left].
    destruct (_ || _); [intros [= <- <-]; by left|].
    intros [= <- <-]. right; right. by eexists v, _.
Qed.

Lemma SearchVehicle_known r v :
  v ≠ "" → ((∃ res, Parking.SearchVehicle r v = Ok res) ↔ known r v).
Proof.
  intros Hv. apply validateVehicleNumber_None in Hv.
  unfold Parking.SearchVehicle, Repository.SearchVehicle, known.
  rewrite Hv. destruct (vehicleMap r !! v) as [s|].
  { split; [intros _; left; by eexists|intros _; by eexists]. }
  destruct (vehicleHistory r !! v) as [s|].
  { split; [intros _; right; by eexists|intros _; by eexists]. }
  split; [by intros [? ?]|]. by intros [[? ?]|[? ?]].
Qed.

(** X15: the repository never forgets a vehicle: once [SearchVehicle]
    answers for a vehicle, it answers after every further sequence of
    requests.  This holds in every state. *)
Theorem search_never_forgets r v qs :
  (∃ res, Parking.SearchVehicle r v = Ok res) →
  ∃ res, Parking.SearchVehicle (serve qs r) v = Ok res.
Proof.
  intros Hres.
  assert (v ≠ "") as Hv.
  { intros ->. by destruct Hres as [res Hres]. }
  apply SearchVehicle_known in Hres; [|done].
  apply SearchVehicle_known; [done|].
  revert r Hres. induction qs as [|q qs IH]; intros r Hres; [done|].
  change (serve (q :: qs) r) with (serve qs (handle q r)). apply IH.
  unfold known in *.
  destruct (handle_maps q r) as [[-> ->]|[(v0 & id & _ & -> & ->)|
                                          (v0 & id & _ & -> & ->)]];
    [done| |].
  - destruct Hres as [Hm|Hh]; [left|by right].
    rewrite lookup_insert_is_Some. destruct (decide (v0 = v)); auto.
  - destruct (decide (v0 = v)) as [->|Hne].
    + right. rewrite lookup_insert_eq. by eexists.
    + rewrite lookup_delete_ne by done.
      destruct Hres as [Hm|Hh]; [by left|right].
      by rewrite lookup_insert_ne.
Qed.

Lemma search_never_forgets_witness :
  ∃ res, Parking.SearchVehicle
           (serve [ReqUnpark "0-0-0" "BC1"; ReqPark "Bicycle" "BC2"] lotBC1)
           "BC1" = Ok res.
Proof.
  apply (search_never_forgets lotBC1 "BC1"). by eexists.
Defined.

(** X16: a request changes the answer of [SearchVehicle] only for the
    vehicle it names: configuring a spot and the queries change no answer,
    and parking or unparking one vehicle changes no answer for another.
    This holds in every state. *)
Theorem search_of_other_vehicles_unchanged q r v :
  vehicleOf q ≠ Some v →
  Parking.SearchVehicle (handle q r) v = Parking.SearchVehicle r v.
Proof.
  intros Hother. unfold Parking.SearchVehicle, Repository.SearchVehicle.
  destruct (handle_maps q r) as [[-> ->]|[(v0 & id & Hq & -> & ->)|
                                          (v0 & id & Hq & -> & ->)]];
    [done| |].
  - assert (v0 ≠ v) by congruence. by rewrite lookup_insert_ne.
  - assert (v0 ≠ v) by congruence.
    by rewrite lookup_delete_ne, lookup_insert_ne.
Qed.

Lemma search_of_other_vehicles_unchanged_witness :
  Parking.SearchVehicle (handle (ReqPark "Bicycle" "BC2") lotBC1) "BC1"
  = Parking.SearchVehicle lotBC1 "BC1".
Proof.
  apply (search_of_other_vehicles_unchanged (ReqPark "Bicycle" "BC2")).
  done.
Defined.

Lemma Sprintf_nonempty a b c : Fmt.Sprintf_d_d_d a b c ≠ "".
Proof.
  unfold Fmt.Sprintf_d_d_d. destruct (Fmt.formatInt a); step_append; [|done].
  change ("-" ++ ?x) with (String "-" x). done.
Qed.

(** Requests handled one at a time: in a state they reach every answer of
    [SearchVehicle] names a valid location by a non-empty identifier; when
    the answer says the vehicle is parked, the spot there is occupied by
    that vehicle, and when it says it is not, the vehicle occupies no
    spot. *)
Lemma sequential_search_answers_are_valid r v s isParked :
  reachable r →
  Parking.SearchVehicle r v = Ok (s, isParked) →
  s ≠ "" ∧
  ∃ f row col,
    s = Fmt.Sprintf_d_d_d f row col ∧ isValidLocation r f row col = true ∧
    (isParked = true → occupiedBy r f row col v) ∧
    (isParked = false → ∀ f' row' col', ¬ occupiedBy r f' row' col' v).
Proof.
  intros Hreach. destruct (reachable_layout r Hreach) as [_ Hhist].
  apply reachable_invariant in Hreach as [Hwf Hgrid Hcur].
  unfold Parking.SearchVehicle, Repository.SearchVehicle.
  destruct (validateVehicleNumber v); [done|].
  destruct (vehicleMap r !! v) as [cur|] eqn:Hm.
  - intros [= <- <-].
    apply Hcur in Hm as (f & row & col & -> & Hocc).
    split; [apply Sprintf_nonempty|]. exists f, row, col.
    split_and!; try done. by destruct Hocc.
  - destruct (vehicleHistory r !! v) as [last|] eqn:Hh; [|done].
    intros [= <- <-].
    destruct (Hhist v last Hh) as (f & row & col & -> & Hval).
    split; [apply Sprintf_nonempty|]. exists f, row, col.
    split_and!; try done. intros _ f' row' col' Hocc.
    assert (vehicleMap r !! v = Some (Fmt.Sprintf_d_d_d f' row' col'))
      as Hsome by (apply Hcur; eauto). congruence.
Qed.

End Search.

(** * Overlapping requests *)

Section Overlapping.
Import Errors.

Lemma sameLot_refl r : sameLot r r.
Proof. by split_and!. Qed.

Lemma goroutineOK_sameLot r r' g :
  sameLot r r' → goroutineOK r g → goroutineOK r' g.
Proof.
  intros (E1 & E2 & E3 & Hact).
  assert (∀ f row col, isValidLocation r' f row col
                       = isValidLocation r f row col) as Hval.
  { intros. unfold isValidLocation. by rewrite E1, E2, E3. }
  destruct g as [[| | |]|[| | |]]; cbn [goroutineOK]; try done.
  - intros (Hv & f & row & col & -> & Hloc & Ha). split; [done|].
    exists f, row, col. rewrite Hval. auto.
  - by rewrite Hval.
Qed.

(** A write of the occupancy fields of one spot. *)
Lemma setOccupant_servedOK r r' occupied v f row col spot0 :
  floors r' = floors r → rows r' = rows r → columns r' = columns r →
  spots r' = updateSpot (setOccupant occupied v) f row col (spots r) →
  spotAt r f row col = Some spot0 →
  spotOK (setOccupant occupied v spot0) →
  currentIDsOK r' → historyOK r' →
  servedOK r → servedOK r' ∧ sameLot r r'.
Proof.
  intros E1 E2 E3 E4 Hspot0 Hnew Hcur Hhist [Hwf Hgrid Hlay _ _]. split.
  - split; try done.
    + by apply (wellFormed_update r r' (setOccupant occupied v) f row col spot0).
    + by apply (gridOK_update r r' (setOccupant occupied v) f row col spot0).
    + apply (layoutOK_update r r' (setOccupant occupied v) f row col spot0);
        try done.
      by destruct (Hlay _ _ _ _ Hspot0) as (_ & _ & _ & _ & ?).
  - split_and!; try done. intros f' row' col' (spot & Hspot & Hact).
    unfold activeAt.
    rewrite (spotAt_update r r' (setOccupant occupied v) f row col spot0)
      by done.
    case_decide as Hd; [|by exists spot].
    destruct Hd as (<- & <- & <-). eexists. split; [done|].
    cbn [setOccupant IsActive]. congruence.
Qed.

Lemma parkStep_invariant t r t' r' :
  Concurrent.parkStep t r = (t', r') →
  servedOK r → goroutineOK r (Server.GoPark t) →
  servedOK r' ∧ goroutineOK r' (Server.GoPark t') ∧ sameLot r r'.
Proof.
  intros Hstep Hok Hg. pose proof (sameLot_refl r) as Hrefl.
  destruct t as [T v|T v|spotID v|res]; cbn [Concurrent.parkStep] in Hstep.
  - destruct (validateVehicleType T); [by injection Hstep as <- <-|].
    destruct (validateVehicleNumber v) eqn:Hv; [by injection Hstep as <- <-|].
    apply validateVehicleNumber_None in Hv.
    destruct (Repository.IsVehicleParked r v) as [[] cur];
      by injection Hstep as <- <-.
  - cbn [goroutineOK] in Hg.
    destruct (FindAvailableSpot_cases r T (served_wf r Hok))
      as [[Hres _]|(f & row & col & Hval & Hres & (spot & Hspot & Hact & _) & _)];
      rewrite Hres in Hstep; injection Hstep as <- <-; [done|].
    split_and!; try done. split; [done|]. exists f, row, col.
    split_and!; try done. by exists spot.
  - destruct Hg as (Hv & f & row & col & -> & Hval & spot & Hspot & Hact).
    unfold Repository.ParkVehicle in Hstep.
    rewrite (parseSpotID_Sprintf r f row col (served_wf r Hok) Hval) in Hstep.
    rewrite Hspot in Hstep. injection Hstep as <- <-.
    destruct (setOccupant_servedOK r
      {| floors := floors r; rows := rows r; columns := columns r;
         spots := updateSpot (setOccupant true v) f row col (spots r);
         gates := gates r;
         vehicleMap := <[v := Fmt.Sprintf_d_d_d f row col]> (vehicleMap r);
         vehicleHistory := vehicleHistory r |}
      true v f row col spot) as [Hok' Hsame]; try done.
    + split; [done|]. cbn [setOccupant IsActive]. congruence.
    + intros v' s'. cbn [vehicleMap].
      destruct (decide (v = v')) as [<-|Hne].
      * rewrite lookup_insert_eq. intros [= <-]. by exists f, row, col.
      * rewrite lookup_insert_ne by done. apply (served_current r Hok).
    + apply (served_history r Hok).
  - by injection Hstep as <- <-.
Qed.

Lemma unparkStep_invariant t r t' r' :
  Server.unparkStep t r = (t', r') →
  servedOK r → goroutineOK r (Server.GoUnpark t) →
  servedOK r' ∧ goroutineOK r' (Server.GoUnpark t') ∧ sameLot r r'.
Proof.
  intros Hstep Hok Hg. pose proof (sameLot_refl r) as Hrefl.
  destruct t as [s v|s v|f row col v|res]; cbn [Server.unparkStep] in Hstep.
  - destruct (validateVehicleNumber v); [by injection Hstep as <- <-|].
    destruct (Repository.IsVehicleParked r v) as [[] cur]; cbn [negb] in Hstep;
      [|by injection Hstep as <- <-].
    destruct (String.eqb cur s); by injection Hstep as <- <-.
  - unfold Repository.ParseSpotID, parseSpotID in Hstep.
    destruct (Fmt.Sscanf_d_d_d s) as [[[f row] col]|];
      [|by injection Hstep as <- <-].
    destruct (isValidLocation r f row col) eqn:Hval; cbn [negb] in Hstep;
      by injection Hstep as <- <-.
  - cbn [goroutineOK] in Hg. unfold Repository.UnparkVehicle in Hstep.
    rewrite Hg in Hstep. cbn [negb] in Hstep.
    destruct (wf_spots r (served_wf r Hok) f row col Hg) as [spot Hspot].
    rewrite Hspot in Hstep.
    destruct (_ || _); injection Hstep as <- <-; [done|].
    destruct (setOccupant_servedOK r
      {| floors := floors r; rows := rows r; columns := columns r;
         spots := updateSpot (setOccupant false "") f row col (spots r);
         gates := gates r;
         vehicleMap := delete v (vehicleMap r);
         vehicleHistory :=
           <[v := Fmt.Sprintf_d_d_d f row col]> (vehicleHistory r) |}
      false "" f row col spot) as [Hok' Hsame]; try done.
    + intros v' s'. cbn [vehicleMap]. intros Hlook.
      apply lookup_delete_Some in Hlook as [_ Hlook].
      apply (served_current r Hok v' s' Hlook).
    + intros v' s'. cbn [vehicleHistory].
      destruct (decide (v = v')) as [<-|Hne].
      * rewrite lookup_insert_eq. intros [= <-]. by exists f, row, col.
      * rewrite lookup_insert_ne by done. apply (served_history r Hok).
  - by injection Hstep as <- <-.
Qed.

Lemma step_invariant g r g' r' :
  Server.step g r = (g', r') →
  servedOK r → goroutineOK r g →
  servedOK r' ∧ goroutineOK r' g' ∧ sameLot r r'.
Proof.
  destruct g as [t|t]; cbn [Server.step].
  - destruct (Concurrent.parkStep t r) as [t' r''] eqn:Hstep.
    intros [= <- <-]. by apply (parkStep_invariant t r).
  - destruct (Server.unparkStep t r) as [t' r''] eqn:Hstep.
    intros [= <- <-]. by apply (unparkStep_invariant t r).
Qed.

Lemma run_invariant schedule pool r :
  servedOK r → Forall (goroutineOK r) pool →
  servedOK (snd (Server.run schedule (pool, r))) ∧
  floors (snd (Server.run schedule (pool, r))) = floors r ∧
  rows (snd (Server.run schedule (pool, r))) = rows r ∧
  columns (snd (Server.run schedule (pool, r))) = columns r.
Proof.
  revert pool r. induction schedule as [|i schedule IH]; intros pool r Hok Hpool;
    [done|].
  change (Server.run (i :: schedule) (pool, r))
    with (Server.run schedule (Server.schedStep (pool, r) i)).
  cbn [Server.schedStep].
  destruct (pool !! i) as [g|] eqn:Hi; [|by apply IH].
  destruct (Server.step g r) as [g' r'] eqn:Hstep.
  destruct (step_invariant g r g' r' Hstep Hok) as (Hok' & Hg' & Hsame).
  { by apply (Forall_lookup_1 _ _ _ _ Hpool Hi). }
  destruct (IH (<[i := g']> pool) r' Hok') as (? & -> & -> & ->).
  { apply Forall_insert; [|done].
    eapply Forall_impl; [exact Hpool|]. intros g0. by apply goroutineOK_sameLot. }
  by destruct Hsame as (-> & -> & -> & _).
Qed.

Lemma reachable_servedOK r : reachable r → servedOK r.
Proof.
  intros Hreach. destruct (reachable_layout r Hreach) as [Hlay Hhist].
  destruct (reachable_invariant r Hreach) as [Hwf Hgrid Hcur].
  split; try done. intros v s Hv.
  apply Hcur in Hv as (f & row & col & -> & Hval & _). by exists f, row, col.
Qed.

Lemma spawn_goroutineOK r qs : Forall (goroutineOK r) (omap Server.spawn qs).
Proof.
  induction qs as [|q qs IH]; [constructor|].
  destruct q; cbn [omap list_omap Server.spawn]; try done;
    by constructor.
Qed.

Lemma served_servedOK r : served r → servedOK r.
Proof.
  intros (r0 & qs & schedule & Hreach & ->).
  apply run_invariant; [by apply reachable_servedOK|apply spawn_goroutineOK].
Qed.

Lemma reachable_served r : reachable r → served r.
Proof. intros Hreach. by exists r, [], []. Qed.

Lemma lotRaced_served : served lotRaced.
Proof.
  exists lot, [ReqPark "Bicycle" "BC1"; ReqPark "Bicycle" "BC2"],
    [0; 1; 0; 1; 0; 1]%nat.
  split; [apply lot_reachable|]. vm_compute. reflexivity.
Qed.

(** X14: [IsSpotOccupied] reports [ErrInvalidLocation] outside the grid,
    in any state.  In every state the server reaches, also when [Park] and
    [Unpark] requests overlap, the grid has a spot exactly at the valid
    locations and [IsSpotOccupied] answers with its flag; each spot records
    its own location, is occupied exactly when it names a vehicle, is not
    occupied when it is inactive, and is configured in one of the four
    ways. *)
Theorem overlapping_requests_keep_grid r f row col :
  (isValidLocation r f row col = false →
   Repository.IsSpotOccupied r f row col = Err ErrInvalidLocation) ∧
  (served r →
   (isValidLocation r f row col = true →
    ∃ spot, spotAt r f row col = Some spot ∧
            Repository.IsSpotOccupied r f row col = Ok (IsOccupied spot)) ∧
   (∀ spot, spotAt r f row col = Some spot →
      isValidLocation r f row col = true ∧
      Floor spot = f ∧ Row spot = row ∧ Column spot = col ∧
      (IsOccupied spot = true ↔ VehicleNumber spot ≠ "") ∧
      (IsActive spot = false → IsOccupied spot = false) ∧
      ((IsActive spot = true ∧
        (VehicleType spot = "Bicycle" ∨ VehicleType spot = "Motorcycle" ∨
         VehicleType spot = "Automobile")) ∨
       (IsActive spot = false ∧ VehicleType spot = "")))).
Proof.
  unfold Repository.IsSpotOccupied. split; [by intros ->|].
  intros Hserved. apply served_servedOK in Hserved as [Hwf Hgrid Hlay _ _].
  split.
  - intros Hval. rewrite Hval. cbn [negb].
    destruct (wf_spots r Hwf f row col Hval) as [spot Hspot].
    exists spot. by rewrite Hspot.
  - intros spot Hspot.
    destruct (Hlay f row col spot Hspot) as (? & ? & ? & ? & ?).
    destruct (Hgrid f row col spot Hspot) as [? ?]. by split_and!.
Qed.

Lemma overlapping_requests_keep_grid_witness :
  (isValidLocation lotRaced 0 0 0 = true →
   ∃ spot, spotAt lotRaced 0 0 0 = Some spot ∧
           Repository.IsSpotOccupied lotRaced 0 0 0 = Ok (IsOccupied spot)) ∧
  (∀ spot, spotAt lotRaced 0 0 0 = Some spot →
     isValidLocation lotRaced 0 0 0 = true ∧
     Floor spot = 0 ∧ Row spot = 0 ∧ Column spot = 0 ∧
     (IsOccupied spot = true ↔ VehicleNumber spot ≠ "") ∧
     (IsActive spot = false → IsOccupied spot = false) ∧
     ((IsActive spot = true ∧
       (VehicleType spot = "Bicycle" ∨ VehicleType spot = "Motorcycle" ∨
        VehicleType spot = "Automobile")) ∨
      (IsActive spot = false ∧ VehicleType spot = ""))).
Proof.
  exact (proj2 (overlapping_requests_keep_grid lotRaced 0 0 0)
           lotRaced_served).
Defined.

(** X17: in every state the server reaches, also when [Park] and [Unpark]
    requests overlap, every answer of [SearchVehicle] carries a non-empty
    identifier, and it is the identifier of a valid location of the lot,
    at which the grid has a spot. *)
Theorem search_answers_name_valid_locations r v s isParked :
  served r →
  Parking.SearchVehicle r v = Ok (s, isParked) →
  s ≠ "" ∧
  ∃ f row col,
    s = Fmt.Sprintf_d_d_d f row col ∧ isValidLocation r f row col = true ∧
    is_Some (spotAt r f row col).
Proof.
  intros Hserved. apply served_servedOK in Hserved as [Hwf _ _ Hcur Hhist].
  unfold Parking.SearchVehicle, Repository.SearchVehicle.
  destruct (validateVehicleNumber v); [done|]. intros Hres.
  assert (∃ f row col, s = Fmt.Sprintf_d_d_d f row col ∧
                       isValidLocation r f row col = true)
    as (f & row & col & -> & Hval).
  { destruct (vehicleMap r !! v) as [cur|] eqn:Hm.
    - injection Hres as <- <-. by apply (Hcur v).
    - destruct (vehicleHistory r !! v) as [last|] eqn:Hh; [|done].
      injection Hres as <- <-. by apply (Hhist v). }
  split; [apply Sprintf_nonempty|]. exists f, row, col.
  split_and!; try done. by apply (wf_spots r Hwf).
Qed.

Lemma search_answers_name_valid_locations_witness :
  "0-0-0" ≠ "" ∧
  ∃ f row col,
    "0-0-0" = Fmt.Sprintf_d_d_d f row col ∧
    isValidLocation lotRaced f row col = true ∧
    is_Some (spotAt lotRaced f row col).
Proof.
  apply (search_answers_name_valid_locations lotRaced "BC1" "0-0-0" true).
  - apply lotRaced_served.
  - vm_compute. reflexivity.
Defined.

End Overlapping.

(** ** Listing the available spots *)

Section Available.
Import Errors.
Variable r : InMemoryParkingRepository.
Variable vehicleType : string.
Hypothesis Hwf : wellFormed r.

Lemma freeIDs_by_floor :
  freeIDs r vehicleType = seqZ 0 (floors r) ≫= freeIDsFloor r vehicleType.
Proof. reflexivity. Qed.

Lemma forEach_collect (g : Z → list string)
    (body : Z → list string → result (list string)) (l : list Z)
    (acc : list string) :
  (∀ i acc', i ∈ l → body i acc' = Ok (acc' ++ g i)%list) →
  forEach body l acc = Ok (acc ++ (l ≫= g))%list.
Proof.
  revert acc. induction l as [|x l IH]; intros acc Hbody.
  - cbn. by rewrite app_nil_r.
  - cbn [forEach]. rewrite Hbody by left.
    rewrite IH by (intros; apply Hbody; by right).
    cbn. by rewrite app_assoc.
Qed.

Lemma forReturn_head (g : Z → list string)
    (body : Z → result (option string)) (l : list Z) :
  (∀ i, i ∈ l → body i = Ok (head (g i))) →
  forReturn body l = Ok (head (l ≫= g)).
Proof.
  induction l as [|x l IH]; intros Hbody; [done|].
  cbn [forReturn]. rewrite Hbody by left.
  change ((x :: l) ≫= g) with (g x ++ (l ≫= g))%list.
  destruct (g x) as [|a ga]; [|done].
  cbn. apply IH. intros; apply Hbody; by right.
Qed.

Lemma elem_of_freeIDsAt spotID f row col :
  spotID ∈ freeIDsAt r vehicleType f row col ↔
  spotID = Fmt.Sprintf_d_d_d f row col ∧ freeAt r vehicleType f row col.
Proof.
  unfold freeIDsAt, freeAt.
  destruct (spotAt r f row col) as [spot|] eqn:Hspot.
  - destruct (available vehicleType spot) eqn:Hav.
    + rewrite list_elem_of_singleton. apply available_spec in Hav.
      split; [intros ->; eauto|tauto].
    + split; [by intros ?%elem_of_nil|].
      intros (_ & spot' & [= <-] & Hfree).
      apply available_spec in Hfree. congruence.
  - split; [by intros ?%elem_of_nil|]. by intros (_ & ? & ? & _).
Qed.

Lemma elem_of_freeIDs spotID :
  spotID ∈ freeIDs r vehicleType ↔
  ∃ f row col, spotID = Fmt.Sprintf_d_d_d f row col ∧
               isValidLocation r f row col = true ∧
               freeAt r vehicleType f row col.
Proof.
  rewrite freeIDs_by_floor. unfold freeIDsFloor, freeIDsRow.
  rewrite list_elem_of_bind. split.
  - intros (f & Hin & Hf). apply list_elem_of_bind in Hin as (row & Hin & Hrow).
    apply list_elem_of_bind in Hin as (col & Hin & Hcol).
    apply elem_of_freeIDsAt in Hin as [-> Hfree].
    apply elem_of_seqZ in Hf, Hrow, Hcol.
    exists f, row, col. split_and!; try done.
    apply isValidLocation_spec. lia.
  - intros (f & row & col & -> & Hval & Hfree).
    apply isValidLocation_spec in Hval.
    exists f. split; [|apply elem_of_seqZ; lia].
    apply list_elem_of_bind. exists row. split; [|apply elem_of_seqZ; lia].
    apply list_elem_of_bind. exists col. split; [|apply elem_of_seqZ; lia].
    by apply elem_of_freeIDsAt.
Qed.

Lemma NoDup_freeIDs : NoDup (freeIDs r vehicleType).
Proof.
  assert (∀ f row col id, f ∈ seqZ 0 (floors r) → row ∈ seqZ 0 (rows r) →
            col ∈ seqZ 0 (columns r) →
            id ∈ freeIDsAt r vehicleType f row col →
            id = Fmt.Sprintf_d_d_d f row col ∧
            isValidLocation r f row col = true) as Hcell.
  { intros f row col id Hf Hrow Hcol Hin.
    apply elem_of_freeIDsAt in Hin as [-> _].
    apply elem_of_seqZ in Hf, Hrow, Hcol. split; [done|].
    apply isValidLocation_spec. lia. }
  rewrite freeIDs_by_floor. apply NoDup_bind; [| |apply NoDup_seqZ].
  - intros f1 f2 id Hf1 Hf2 Hin1 Hin2.
    apply list_elem_of_bind in Hin1 as (row1 & Hin1 & Hrow1).
    apply list_elem_of_bind in Hin1 as (col1 & Hin1 & Hcol1).
    apply list_elem_of_bind in Hin2 as (row2 & Hin2 & Hrow2).
    apply list_elem_of_bind in Hin2 as (col2 & Hin2 & Hcol2).
    destruct (Hcell _ _ _ _ Hf1 Hrow1 Hcol1 Hin1) as [-> Hv1].
    destruct (Hcell _ _ _ _ Hf2 Hrow2 Hcol2 Hin2) as [Heq Hv2].
    by destruct (Sprintf_valid_inj r _ _ _ _ _ _ Hwf Hv1 Hv2 Heq).
  - intros f Hf. apply NoDup_bind; [| |apply NoDup_seqZ].
    + intros row1 row2 id Hrow1 Hrow2 Hin1 Hin2.
      apply list_elem_of_bind in Hin1 as (col1 & Hin1 & Hcol1).
      apply list_elem_of_bind in Hin2 as (col2 & Hin2 & Hcol2).
      destruct (Hcell _ _ _ _ Hf Hrow1 Hcol1 Hin1) as [-> Hv1].
      destruct (Hcell _ _ _ _ Hf Hrow2 Hcol2 Hin2) as [Heq Hv2].
      by destruct (Sprintf_valid_inj r _ _ _ _ _ _ Hwf Hv1 Hv2 Heq)
        as (_ & ? & _).
    + intros row Hrow. apply NoDup_bind; [| |apply NoDup_seqZ].
      * intros col1 col2 id Hcol1 Hcol2 Hin1 Hin2.
        destruct (Hcell _ _ _ _ Hf Hrow Hcol1 Hin1) as [-> Hv1].
        destruct (Hcell _ _ _ _ Hf Hrow Hcol2 Hin2) as [Heq Hv2].
        by destruct (Sprintf_valid_inj r _ _ _ _ _ _ Hwf Hv1 Hv2 Heq)
          as (_ & _ & ?).
      * intros col Hcol. unfold freeIDsAt. repeat case_match;
          [apply NoDup_singleton|apply NoDup_nil_2..].
Qed.

(** The loops of [GetAvailableSpots] collect [freeIDs]. *)
Lemma GetAvailableSpots_freeIDs :
  Repository.GetAvailableSpots r vehicleType =
    match freeIDs r vehicleType with
    | [] => Err (ErrNoAvailableSpot ++ ": " ++ vehicleType)
    | spotID :: rest => Ok (spotID :: rest)
    end.
Proof.
  unfold Repository.GetAvailableSpots.
  rewrite (forEach_collect (freeIDsFloor r vehicleType)).
  { rewrite app_nil_l, <- freeIDs_by_floor.
    by destruct (freeIDs r vehicleType). }
  intros f acc Hf. apply elem_of_seqZ in Hf.
  apply (forEach_collect (freeIDsRow r vehicleType f)).
  intros row acc' Hrow. apply elem_of_seqZ in Hrow.
  apply (forEach_collect (freeIDsAt r vehicleType f row)).
  intros col acc'' Hcol. apply elem_of_seqZ in Hcol.
  unfold freeIDsAt.
  destruct (wf_spots r Hwf f row col) as [spot ->].
  { apply isValidLocation_spec. lia. }
  destruct (available vehicleType spot); [done|by rewrite app_nil_r].
Qed.

(** The loops of [FindAvailableSpot] stop at the head of [freeIDs]. *)
Lemma FindAvailableSpot_freeIDs :
  Repository.FindAvailableSpot r vehicleType =
    match freeIDs r vehicleType with
    | [] => Err ErrNoAvailableSpot
    | spotID :: _ => Ok spotID
    end.
Proof.
  unfold Repository.FindAvailableSpot.
  rewrite (forReturn_head (freeIDsFloor r vehicleType)).
  { rewrite <- freeIDs_by_floor. by destruct (freeIDs r vehicleType). }
  intros f Hf. apply elem_of_seqZ in Hf.
  apply (forReturn_head (freeIDsRow r vehicleType f)).
  intros row Hrow. apply elem_of_seqZ in Hrow.
  apply (forReturn_head (freeIDsAt r vehicleType f row)).
  intros col Hcol. apply elem_of_seqZ in Hcol.
  unfold freeIDsAt.
  destruct (wf_spots r Hwf f row col) as [spot ->].
  { apply isValidLocation_spec. lia. }
  by destruct (available vehicleType spot).
Qed.

End Available.

Section AvailableClaims.
Import Errors.

Lemma listed_freeIDs r vehicleType spotID :
  wellFormed r →
  (listed r vehicleType spotID ↔ spotID ∈ freeIDs r vehicleType).
Proof.
  intros Hwf. unfold listed. rewrite GetAvailableSpots_freeIDs by done.
  destruct (freeIDs r vehicleType) as [|id rest].
  - split; [by intros (? & ? & _)|by intros ?%elem_of_nil].
  - split; [by intros (? & [= <-] & ?)|]. intros Hin. by eexists.
Qed.

(** X18: on a well-formed repository the service's [GetAvailableSpots]
    rejects a type that is not one of the three kinds; otherwise it
    returns the identifiers of the valid locations with a free spot of the
    type, each one once, in the order floor, row, column, and the list is
    never empty: when there is no free spot it fails with
    [ErrNoAvailableSpot] followed by the type. *)
Theorem getAvailableSpots_lists_free_spots r vehicleType :
  wellFormed r →
  (vehicleType ≠ "Bicycle" → vehicleType ≠ "Motorcycle" →
   vehicleType ≠ "Automobile" →
   Parking.GetAvailableSpots r vehicleType = Err ErrInvalidVehicleType) ∧
  (vehicleType = "Bicycle" ∨ vehicleType = "Motorcycle" ∨
   vehicleType = "Automobile" →
   match Parking.GetAvailableSpots r vehicleType with
   | Ok l =>
       l = freeIDs r vehicleType ∧ l ≠ [] ∧ NoDup l ∧
       ∀ spotID, spotID ∈ l ↔
         ∃ f row col, spotID = Fmt.Sprintf_d_d_d f row col ∧
                      isValidLocation r f row col = true ∧
                      freeAt r vehicleType f row col
   | Err e =>
       e = ErrNoAvailableSpot ++ ": " ++ vehicleType ∧
       ∀ f row col, isValidLocation r f row col = true →
                    ¬ freeAt r vehicleType f row col
   | Panic => False
   end).
Proof.
  intros Hwf. unfold Parking.GetAvailableSpots. split.
  - intros H1 H2 H3.
    destruct (validateVehicleType vehicleType) eqn:HT.
    + unfold validateVehicleType in HT. by destruct (_ || _); simplify_eq.
    + apply validateVehicleType_spec in HT. tauto.
  - intros HT. apply validateVehicleType_spec in HT. rewrite HT.
    rewrite GetAvailableSpots_freeIDs by done.
    pose proof (NoDup_freeIDs r vehicleType Hwf) as Hnodup.
    pose proof (elem_of_freeIDs r vehicleType) as Hin.
    destruct (freeIDs r vehicleType) as [|id rest].
    + split; [done|]. intros f row col Hval Hfree.
      eapply elem_of_nil, Hin. by exists f, row, col.
    + by split_and!.
Qed.

Lemma getAvailableSpots_lists_free_spots_witness :
  match Parking.GetAvailableSpots lotBC1 "Bicycle" with
  | Ok l =>
      l = freeIDs lotBC1 "Bicycle" ∧ l ≠ [] ∧ NoDup l ∧
      ∀ spotID, spotID ∈ l ↔
        ∃ f row col, spotID = Fmt.Sprintf_d_d_d f row col ∧
                     isValidLocation lotBC1 f row col = true ∧
                     freeAt lotBC1 "Bicycle" f row col
  | Err e =>
      e = ErrNoAvailableSpot ++ ": " ++ "Bicycle" ∧
      ∀ f row col, isValidLocation lotBC1 f row col = true →
                   ¬ freeAt lotBC1 "Bicycle" f row col
  | Panic => False
  end.
Proof.
  apply (getAvailableSpots_lists_free_spots lotBC1 "Bicycle").
  - exact (inv_wf lotBC1 (reachable_invariant lotBC1 lotBC1_reachable)).
  - by left.
Defined.

(** X19: the two scans agree: on a well-formed repository
    [FindAvailableSpot] returns the first element of the list of
    [GetAvailableSpots], and fails exactly when that call fails; so the
    spot a successful [Park] assigns is the head of the list. *)
Theorem find_returns_head_of_available r vehicleType :
  wellFormed r →
  match Repository.GetAvailableSpots r vehicleType with
  | Ok l => ∃ spotID rest, l = spotID :: rest ∧
                           FindAvailableSpot r vehicleType = Ok spotID
  | Err _ => FindAvailableSpot r vehicleType = Err ErrNoAvailableSpot
  | Panic => False
  end ∧
  (∀ v r' spotID, Parking.Park vehicleType v r = (r', Ok spotID) →
     ∃ rest, Repository.GetAvailableSpots r vehicleType = Ok (spotID :: rest)).
Proof.
  intros Hwf.
  rewrite GetAvailableSpots_freeIDs, FindAvailableSpot_freeIDs by done.
  split.
  - destruct (freeIDs r vehicleType) as [|id rest]; [done|]. by eexists _, _.
  - intros v r' id Hpark.
    apply Park_ok_inv in Hpark as (_ & _ & _ & Hfind & _).
    rewrite FindAvailableSpot_freeIDs in Hfind by done.
    destruct (freeIDs r vehicleType) as [|id' rest]; [done|].
    injection Hfind as ->. by eexists.
Qed.

Lemma find_returns_head_of_available_witness :
  match Repository.GetAvailableSpots lot "Bicycle" with
  | Ok l => ∃ spotID rest, l = spotID :: rest ∧
                           FindAvailableSpot lot "Bicycle" = Ok spotID
  | Err _ => FindAvailableSpot lot "Bicycle" = Err ErrNoAvailableSpot
  | Panic => False
  end ∧
  (∀ v r' spotID, Parking.Park "Bicycle" v lot = (r', Ok spotID) →
     ∃ rest, Repository.GetAvailableSpots lot "Bicycle" = Ok (spotID :: rest)).
Proof.
  apply (find_returns_head_of_available lot "Bicycle").
  exact (inv_wf lot (reachable_invariant lot lot_reachable)).
Defined.

(** X20: in a reachable state a successful [Park] takes exactly the
    assigned spot out of the lists of [GetAvailableSpots]: for every
    type, an identifier is listed afterwards exactly when it was listed
    before and is not the assigned one. *)
Theorem park_removes_spot_from_available r vehicleType v r' spotID
    vehicleType' spotID' :
  reachable r →
  Parking.Park vehicleType v r = (r', Ok spotID) →
  (listed r' vehicleType' spotID' ↔
   listed r vehicleType' spotID' ∧ spotID' ≠ spotID).
Proof.
  intros Hreach Hpark. apply reachable_invariant in Hreach as Hinv.
  pose proof (Park_invariant vehicleType v r Hinv) as Hinv'.
  pose proof (Park_cases vehicleType v r (inv_wf r Hinv)) as H.
  rewrite Hpark in H, Hinv'. cbn [fst] in Hinv'.
  destruct H as [[_ Hne]|(f & row & col & spot & [= ->] & _ & _ & _ &
    Hval & Hspot & _ & _ & _ & _ & E1 & E2 & E3 & E4 & _)];
    [by destruct (Hne spotID)|].
  rewrite !listed_freeIDs by (done || apply Hinv || apply Hinv').
  rewrite !elem_of_freeIDs. split.
  - intros (f' & row' & col' & -> & Hval' & spot' & Hspot' & Hfree).
    rewrite (isValidLocation_update r r') in Hval' by done.
    rewrite (spotAt_update r r' _ f row col spot) in Hspot' by done.
    case_decide as Hd.
    { injection Hspot' as <-. by destruct Hfree as (_ & _ & ?). }
    split.
    + exists f', row', col'. split_and!; try done. by exists spot'.
    + intros Heq. apply Hd.
      by destruct (Sprintf_valid_inj r _ _ _ _ _ _ (inv_wf r Hinv)
                     Hval Hval' (eq_sym Heq)) as (-> & -> & ->).
  - intros [(f' & row' & col' & -> & Hval' & spot' & Hspot' & Hfree) Hne].
    exists f', row', col'. split; [done|].
    rewrite (isValidLocation_update r r') by done. split; [done|].
    exists spot'. split; [|done].
    rewrite (spotAt_update r r' _ f row col spot) by done.
    rewrite decide_False; [done|]. by intros (-> & -> & ->).
Qed.

Lemma park_removes_spot_from_available_witness :
  listed lotBC1 "Bicycle" "0-0-1" ↔
  listed lot "Bicycle" "0-0-1" ∧ "0-0-1" ≠ "0-0-0".
Proof.
  apply (park_removes_spot_from_available lot "Bicycle" "BC1" lotBC1 "0-0-0").
  - apply lot_reachable.
  - vm_compute. reflexivity.
Defined.

End AvailableClaims.

(** ** The repository's own park and unpark *)

Section RepositoryWrites.
Import Errors.

(** X21: [ParkVehicle] checks the identifier only.  When it does not
    parse to a valid location the repository is returned unchanged with
    the error of the parse; otherwise the call succeeds whatever the
    state of the spot (occupied, inactive, of another type) and whatever
    the vehicle: the spot is marked occupied by the vehicle, the vehicle
    maps to the identifier as given, and nothing else changes, so a
    previous occupant keeps its entry in the map. *)
Theorem parkVehicle_checks_identifier_only r spotID v :
  wellFormed r →
  match parseSpotID r spotID with
  | Ok (f, row, col) =>
      ∃ spot r',
        spotAt r f row col = Some spot ∧
        Repository.ParkVehicle spotID v r = (r', Ok tt) ∧
        spotAt r' f row col = Some (setOccupant true v spot) ∧
        (∀ f' row' col', ¬ (f = f' ∧ row = row' ∧ col = col') →
           spotAt r' f' row' col' = spotAt r f' row' col') ∧
        vehicleMap r' = <[v := spotID]> (vehicleMap r) ∧
        vehicleHistory r' = vehicleHistory r ∧
        (∀ v0, v0 ≠ v → vehicleMap r' !! v0 = vehicleMap r !! v0)
  | Err e => Repository.ParkVehicle spotID v r = (r, Err e)
  | Panic => False
  end.
Proof.
  intros Hwf. unfold Repository.ParkVehicle.
  destruct (parseSpotID r spotID) as [[[f row] col]|e|] eqn:Hparse; [|done|].
  - assert (isValidLocation r f row col = true) as Hval.
    { revert Hparse. unfold parseSpotID.
      destruct (Fmt.Sscanf_d_d_d spotID) as [[[f0 row0] col0]|]; [|done].
      destruct (isValidLocation r f0 row0 col0) eqn:Hv; [|done].
      by intros [= <- <- <-]. }
    destruct (wf_spots r Hwf f row col Hval) as [spot Hspot].
    rewrite Hspot. eexists spot, _. split_and!; try done.
    + rewrite (spotAt_update r _ (setOccupant true v) f row col spot) by done.
      by rewrite decide_True.
    + intros f' row' col' Hne.
      rewrite (spotAt_update r _ (setOccupant true v) f row col spot) by done.
      by rewrite decide_False.
    + intros v0 Hne. cbn [vehicleMap]. by rewrite lookup_insert_ne.
  - revert Hparse. unfold parseSpotID. by repeat case_match.
Qed.

Lemma parkVehicle_checks_identifier_only_witness :
  match parseSpotID lotBC1 "0-0-0" with
  | Ok (f, row, col) =>
      ∃ spot r',
        spotAt lotBC1 f row col = Some spot ∧
        Repository.ParkVehicle "0-0-0" "BC2" lotBC1 = (r', Ok tt) ∧
        spotAt r' f row col = Some (setOccupant true "BC2" spot) ∧
        (∀ f' row' col', ¬ (f = f' ∧ row = row' ∧ col = col') →
           spotAt r' f' row' col' = spotAt lotBC1 f' row' col') ∧
        vehicleMap r' = <["BC2" := "0-0-0"]> (vehicleMap lotBC1) ∧
        vehicleHistory r' = vehicleHistory lotBC1 ∧
        (∀ v0, v0 ≠ "BC2" → vehicleMap r' !! v0 = vehicleMap lotBC1 !! v0)
  | Err e => Repository.ParkVehicle "0-0-0" "BC2" lotBC1 = (lotBC1, Err e)
  | Panic => False
  end.
Proof.
  apply (parkVehicle_checks_identifier_only lotBC1 "0-0-0" "BC2").
  exact (inv_wf lotBC1 (reachable_invariant lotBC1 lotBC1_reachable)).
Defined.

(** X22: [UnparkVehicle] fails with [ErrInvalidLocation] outside the grid
    and with [ErrVehicleNotAtSpot], naming the vehicle and the spot, when
    the spot is free or occupied by another vehicle, in both cases
    without any change; when the spot is occupied by the vehicle it
    clears the spot, deletes the vehicle from the map of current spots
    and records the printed identifier of the location as its last
    spot. *)
Theorem unparkVehicle_checks_occupant r floor row column v :
  (isValidLocation r floor row column = false →
   Repository.UnparkVehicle floor row column v r
   = (r, Err ErrInvalidLocation)) ∧
  (∀ spot, isValidLocation r floor row column = true →
     spotAt r floor row column = Some spot →
     IsOccupied spot = false ∨ VehicleNumber spot ≠ v →
     Repository.UnparkVehicle floor row column v r
     = (r, Err (ErrVehicleNotAtSpot ++ ": " ++ v ++ " at spot "
                  ++ Fmt.Sprintf_d_d_d floor row column))) ∧
  (∀ spot, isValidLocation r floor row column = true →
     spotAt r floor row column = Some spot →
     IsOccupied spot = true → VehicleNumber spot = v →
     ∃ r',
       Repository.UnparkVehicle floor row column v r = (r', Ok tt) ∧
       spotAt r' floor row column = Some (setOccupant false "" spot) ∧
       (∀ f' row' col', ¬ (floor = f' ∧ row = row' ∧ column = col') →
          spotAt r' f' row' col' = spotAt r f' row' col') ∧
       vehicleMap r' = delete v (vehicleMap r) ∧
       vehicleHistory r'
       = <[v := Fmt.Sprintf_d_d_d floor row column]> (vehicleHistory r)).
Proof.
  unfold Repository.UnparkVehicle. split_and!.
  - by intros ->.
  - intros spot -> -> [->|Hne]; cbn [negb orb]; [done|].
    destruct (String.eqb_spec (VehicleNumber spot) v); [done|].
    cbn [negb]. by rewrite orb_true_r.
  - intros spot -> Hspot Hocc <-. rewrite Hspot, Hocc, String.eqb_refl.
    cbn [negb orb]. eexists. split_and!; try done.
    + rewrite (spotAt_update r _ (setOccupant false "")
                 floor row column spot) by done.
      by rewrite decide_True.
    + intros f' row' col' Hne.
      rewrite (spotAt_update r _ (setOccupant false "")
                 floor row column spot) by done.
      by rewrite decide_False.
Qed.

Lemma unparkVehicle_checks_occupant_witness :
  Repository.UnparkVehicle 0 0 0 "BC2" lotBC1
  = (lotBC1, Err (ErrVehicleNotAtSpot ++ ": " ++ "BC2" ++ " at spot "
                    ++ Fmt.Sprintf_d_d_d 0 0 0)).
Proof.
  apply (proj1 (proj2 (unparkVehicle_checks_occupant lotBC1 0 0 0 "BC2"))
           (setOccupant true "BC1" (setConfig "Bicycle" true (newSpot 0 0 0))));
    [vm_compute; reflexivity..|].
  right. vm_compute. discriminate.
Defined.

End RepositoryWrites.

(** ** The HTTP handlers *)

Section Handlers.
Import Errors Dto Handler.

Lemma Unpark_not_ok_unchanged s v r r' res :
  Parking.Unpark s v r = (r', res) → res ≠ Ok tt → r' = r.
Proof.
  unfold Parking.Unpark, Repository.IsVehicleParked,
    Repository.ParseSpotID, Repository.UnparkVehicle.
  destruct (validateVehicleNumber v); [by intros [= <- <-]|].
  destruct (vehicleMap r !! v) as [cur|]; cbn [negb];
    [|by intros [= <- <-]].
  destruct (String.eqb cur s); cbn [negb]; [|by intros [= <- <-]].
  destruct (parseSpotID r s) as [[[f row] col]| |]; try by intros [= <- <-].
  destruct (isValidLocation r f row col); cbn [negb];
    [|by intros [= <- <-]].
  destruct (spotAt r f row col) as [spot|]; [|by intros [= <- <-]].
  destruct (_ || _); [by intros [= <- <-]|].
  by intros [= <- <-].
Qed.

Lemma sniffs_content_type h :
  is_Some (h !! "Content-Type") → sniffs h = false.
Proof.
  intros [t Ht]. unfold sniffs. by rewrite Ht, bool_decide_false.
Qed.

Lemma sniffs_bare h :
  h !! "Content-Type" = None → h !! "Content-Encoding" = None →
  h !! "Transfer-Encoding" = None → sniffs h = true.
Proof. intros H1 H2 H3. unfold sniffs. by rewrite H1, H2, H3. Qed.

Lemma Encode_fields v w :
  wroteHeader w = true →
  statusCode (Encode v w) = statusCode w ∧
  body (Encode v w) = (body w ++ [v])%list ∧
  header (Encode v w) = header w ∧
  sentHeader (Encode v w) =
    (if sniffs (sentHeader w)
     then <["Content-Type" := DetectContentType v]> (sentHeader w)
     else sentHeader w).
Proof. intros Hw. unfold Encode, WriteHeader. by rewrite Hw. Qed.

Lemma writeErrorResponse_sent code message w :
  wroteHeader w = false →
  statusCode (writeErrorResponse code message w) = code ∧
  sentHeader (writeErrorResponse code message w) !! "Content-Type"
    = Some "application/json" ∧
  body (writeErrorResponse code message w)
    = (body w ++ [ErrorMap message])%list.
Proof.
  intros Hw. unfold writeErrorResponse.
  destruct (Encode_fields (ErrorMap message)
              (WriteHeader code (HeaderSet "Content-Type" "application/json" w)))
    as (-> & -> & _ & ->);
    unfold WriteHeader, HeaderSet; cbn; rewrite Hw; [done|]. cbn.
  rewrite sniffs_content_type by (rewrite lookup_insert_eq; by eexists).
  by rewrite lookup_insert_eq.
Qed.

(** A response that sets the status before the header: the content type
    the handler sets afterwards is not sent, and the server sends the
    sniffed one in its place. *)
Lemma late_header_not_sent v w :
  wroteHeader w = false → header w !! "Content-Type" = None →
  header w !! "Content-Encoding" = None →
  header w !! "Transfer-Encoding" = None →
  let w' := Encode v (HeaderSet "Content-Type" "application/json"
                        (WriteHeader StatusBadRequest w)) in
  statusCode w' = 400 ∧
  sentHeader w' !! "Content-Type" = Some "text/plain; charset=utf-8" ∧
  header w' !! "Content-Type" = Some "application/json" ∧
  body w' = (body w ++ [v])%list.
Proof.
  intros Hw Hh Hce Hte w'. subst w'.
  destruct (Encode_fields v
              (HeaderSet "Content-Type" "application/json"
                 (WriteHeader StatusBadRequest w)))
    as (-> & -> & -> & ->);
    unfold WriteHeader, HeaderSet; cbn; rewrite Hw; [done|]. cbn.
  rewrite sniffs_bare by done.
  by rewrite !lookup_insert_eq.
Qed.

Lemma ok_response_sent v w :
  wroteHeader w = false →
  let w' := Encode v (HeaderSet "Content-Type" "application/json" w) in
  statusCode w' = 200 ∧ sentHeader w' !! "Content-Type" = Some "application/json" ∧
  body w' = (body w ++ [v])%list.
Proof.
  intros Hw. unfold Encode, WriteHeader, HeaderSet. cbn. rewrite Hw. cbn.
  rewrite sniffs_content_type by (rewrite lookup_insert_eq; by eexists).
  by rewrite lookup_insert_eq.
Qed.

(** X23: a request with the wrong method, a body that does not decode or
    a missing query parameter never reaches the service: the handler
    answers with status 405 or 400 and a JSON error object, sent with the
    JSON content type, and the repository is unchanged. *)
Theorem handlers_reject_malformed_requests w r method :
  wroteHeader w = false →
  (method ≠ "POST" →
   (∀ decoded, ∃ w', handlePark method decoded w r = Some (w', r) ∧
      statusCode w' = 405 ∧ sentHeader w' !! "Content-Type" = Some "application/json" ∧
      body w' = (body w ++ [ErrorMap "Only POST method is allowed"])%list) ∧
   (∀ decoded, ∃ w', handleUnpark method decoded w r = Some (w', r) ∧
      statusCode w' = 405 ∧ sentHeader w' !! "Content-Type" = Some "application/json" ∧
      body w' = (body w ++ [ErrorMap "Only POST method is allowed"])%list)) ∧
  (method ≠ "GET" →
   (∀ param, ∃ w', handleAvailableSpots method param w r = Some (w', r) ∧
      statusCode w' = 405 ∧ sentHeader w' !! "Content-Type" = Some "application/json" ∧
      body w' = (body w ++ [ErrorMap "Only GET method is allowed"])%list) ∧
   (∀ param, ∃ w', handleSearchVehicle method param w r = Some (w', r) ∧
      statusCode w' = 405 ∧ sentHeader w' !! "Content-Type" = Some "application/json" ∧
      body w' = (body w ++ [ErrorMap "Only GET method is allowed"])%list)) ∧
  (∀ err,
   (∃ w', handlePark "POST" (inl err) w r = Some (w', r) ∧
      statusCode w' = 400 ∧ sentHeader w' !! "Content-Type" = Some "application/json" ∧
      body w' = (body w ++ [ErrorMap ("Invalid JSON: " ++ err)])%list) ∧
   (∃ w', handleUnpark "POST" (inl err) w r = Some (w', r) ∧
      statusCode w' = 400 ∧ sentHeader w' !! "Content-Type" = Some "application/json" ∧
      body w' = (body w ++ [ErrorMap ("Invalid JSON: " ++ err)])%list)) ∧
  (∃ w', handleAvailableSpots "GET" "" w r = Some (w', r) ∧
     statusCode w' = 400 ∧ sentHeader w' !! "Content-Type" = Some "application/json" ∧
     body w' = (body w ++
                [ErrorMap "vehicleType query parameter is required"])%list) ∧
  (∃ w', handleSearchVehicle "GET" "" w r = Some (w', r) ∧
     statusCode w' = 400 ∧ sentHeader w' !! "Content-Type" = Some "application/json" ∧
     body w' = (body w ++
                [ErrorMap "vehicleNumber query parameter is required"])%list).
Proof.
  intros Hw. split_and!.
  - intros Hm. apply String.eqb_neq in Hm.
    split; intros decoded; eexists;
      unfold handlePark, handleUnpark, MethodPost; rewrite Hm; cbn [negb];
      (split; [done|]); by apply writeErrorResponse_sent.
  - intros Hm. apply String.eqb_neq in Hm.
    split; intros param; eexists;
      unfold handleAvailableSpots, handleSearchVehicle, MethodGet;
      rewrite Hm; cbn [negb];
      (split; [done|]); by apply writeErrorResponse_sent.
  - intros err. split; eexists; (split; [reflexivity|]);
      by apply writeErrorResponse_sent.
  - eexists. split; [reflexivity|]. by apply writeErrorResponse_sent.
  - eexists. split; [reflexivity|]. by apply writeErrorResponse_sent.
Qed.

Lemma handlers_reject_malformed_requests_witness :
  ∃ w', handleSearchVehicle "GET" "" NewResponseWriter lotBC1
        = Some (w', lotBC1) ∧
     statusCode w' = 400 ∧ sentHeader w' !! "Content-Type" = Some "application/json" ∧
     body w' = (body NewResponseWriter ++
                [ErrorMap "vehicleNumber query parameter is required"])%list.
Proof.
  apply (handlers_reject_malformed_requests NewResponseWriter lotBC1 "GET").
  reflexivity.
Defined.

(** X24: when the service reports an error, the four handlers call
    [WriteHeader] before they set the content type: the response has status
    400 and the error in its body, the JSON content type is set too late to
    be sent, and the server sends the sniffed type
    [text/plain; charset=utf-8] in its place; the repository is unchanged.
    A successful [Park] or [Unpark] is answered with status 200 and the
    JSON content type. *)
Theorem service_errors_sent_as_plain_text w r :
  wroteHeader w = false → header w !! "Content-Type" = None →
  header w !! "Content-Encoding" = None →
  header w !! "Transfer-Encoding" = None →
  (∀ req r' e,
     Parking.Park (ParkRequest_VehicleType req)
       (ParkRequest_VehicleNumber req) r = (r', Err e) →
     ∃ w', handlePark "POST" (inr req) w r = Some (w', r) ∧
       statusCode w' = 400 ∧
       sentHeader w' !! "Content-Type" = Some "text/plain; charset=utf-8" ∧
       body w' = (body w ++
                  [OfParkResponse {| ParkResponse_SpotID := "";
                                     ParkResponse_Error := e |}])%list) ∧
  (∀ req r' spotID,
     Parking.Park (ParkRequest_VehicleType req)
       (ParkRequest_VehicleNumber req) r = (r', Ok spotID) →
     ∃ w', handlePark "POST" (inr req) w r = Some (w', r') ∧
       statusCode w' = 200 ∧ sentHeader w' !! "Content-Type" = Some "application/json" ∧
       body w' = (body w ++
                  [OfParkResponse {| ParkResponse_SpotID := spotID;
                                     ParkResponse_Error := "" |}])%list) ∧
  (∀ req r' e,
     Parking.Unpark (UnparkRequest_SpotID req)
       (UnparkRequest_VehicleNumber req) r = (r', Err e) →
     ∃ w', handleUnpark "POST" (inr req) w r = Some (w', r) ∧
       statusCode w' = 400 ∧
       sentHeader w' !! "Content-Type" = Some "text/plain; charset=utf-8" ∧
       body w' = (body w ++
                  [OfUnparkResponse {| UnparkResponse_Success := false;
                                       UnparkResponse_Error := e |}])%list) ∧
  (∀ req r',
     Parking.Unpark (UnparkRequest_SpotID req)
       (UnparkRequest_VehicleNumber req) r = (r', Ok tt) →
     ∃ w', handleUnpark "POST" (inr req) w r = Some (w', r') ∧
       statusCode w' = 200 ∧ sentHeader w' !! "Content-Type" = Some "application/json" ∧
       body w' = (body w ++
                  [OfUnparkResponse {| UnparkResponse_Success := true;
                                       UnparkResponse_Error := "" |}])%list) ∧
  (∀ vehicleType e,
     vehicleType ≠ "" → Parking.GetAvailableSpots r vehicleType = Err e →
     ∃ w', handleAvailableSpots "GET" vehicleType w r = Some (w', r) ∧
       statusCode w' = 400 ∧
       sentHeader w' !! "Content-Type" = Some "text/plain; charset=utf-8" ∧
       body w' = (body w ++
                  [OfAvailableSpotResponse
                     {| AvailableSpotResponse_Spots := [];
                        AvailableSpotResponse_Error := e |}])%list) ∧
  (∀ v e,
     v ≠ "" → Parking.SearchVehicle r v = Err e →
     ∃ w', handleSearchVehicle "GET" v w r = Some (w', r) ∧
       statusCode w' = 400 ∧
       sentHeader w' !! "Content-Type" = Some "text/plain; charset=utf-8" ∧
       body w' = (body w ++
                  [OfSearchVehicleResponse
                     {| SearchVehicleResponse_SpotID := "";
                        SearchVehicleResponse_IsParked := false;
                        SearchVehicleResponse_WasParked := false;
                        SearchVehicleResponse_Error := e |}])%list).
Proof.
  intros Hw Hh Hce Hte. split_and!.
  - intros req r' e Hpark.
    assert (r' = r) as ->.
    { eapply (park_rejections_aux r); [exact Hpark|done]. }
    eexists. unfold handlePark. cbn [MethodPost String.eqb negb].
    rewrite Hpark. split; [reflexivity|].
    destruct (late_header_not_sent
                (OfParkResponse {| ParkResponse_SpotID := "";
                                   ParkResponse_Error := e |}) w Hw Hh Hce Hte)
      as (? & ? & _ & ?). done.
  - intros req r' id Hpark. eexists. unfold handlePark.
    cbn [MethodPost String.eqb negb]. rewrite Hpark.
    split; [reflexivity|]. by apply ok_response_sent.
  - intros req r' e Hunpark.
    assert (r' = r) as ->.
    { by eapply Unpark_not_ok_unchanged. }
    eexists. unfold handleUnpark. cbn [MethodPost String.eqb negb].
    rewrite Hunpark. split; [reflexivity|].
    destruct (late_header_not_sent
                (OfUnparkResponse {| UnparkResponse_Success := false;
                                     UnparkResponse_Error := e |}) w Hw Hh Hce Hte)
      as (? & ? & _ & ?). done.
  - intros req r' Hunpark. eexists. unfold handleUnpark.
    cbn [MethodPost String.eqb negb]. rewrite Hunpark.
    split; [reflexivity|]. by apply ok_response_sent.
  - intros vehicleType e Hne Hres. apply String.eqb_neq in Hne.
    eexists. unfold handleAvailableSpots. cbn [MethodGet].
    change (String.eqb "GET" "GET") with true. cbn [negb].
    rewrite Hne, Hres. split; [reflexivity|].
    destruct (late_header_not_sent
                (OfAvailableSpotResponse
                   {| AvailableSpotResponse_Spots := [];
                      AvailableSpotResponse_Error := e |}) w Hw Hh Hce Hte)
      as (? & ? & _ & ?). done.
  - intros v e Hne Hres. apply String.eqb_neq in Hne.
    eexists. unfold handleSearchVehicle. cbn [MethodGet].
    change (String.eqb "GET" "GET") with true. cbn [negb].
    rewrite Hne, Hres. split; [reflexivity|].
    destruct (late_header_not_sent
                (OfSearchVehicleResponse
                   {| SearchVehicleResponse_SpotID := "";
                      SearchVehicleResponse_IsParked := false;
                      SearchVehicleResponse_WasParked := false;
                      SearchVehicleResponse_Error := e |}) w Hw Hh Hce Hte)
      as (? & ? & _ & ?). done.
Qed.

Lemma service_errors_sent_as_plain_text_witness :
  ∃ w', handlePark "POST"
          (inr {| ParkRequest_VehicleType := "Bicycle";
                  ParkRequest_VehicleNumber := "BC1" |})
          NewResponseWriter lotBC1 = Some (w', lotBC1) ∧
    statusCode w' = 400 ∧
    sentHeader w' !! "Content-Type" = Some "text/plain; charset=utf-8" ∧
    body w' = (body NewResponseWriter ++
               [OfParkResponse
                  {| ParkResponse_SpotID := "";
                     ParkResponse_Error :=
                       ErrVehicleAlreadyParked ++ ": " ++ "BC1"
                       ++ " at spot " ++ "0-0-0" |}])%list.
Proof.
  apply (proj1 (service_errors_sent_as_plain_text
                  NewResponseWriter lotBC1 eq_refl eq_refl eq_refl eq_refl)
           {| ParkRequest_VehicleType := "Bicycle";
              ParkRequest_VehicleNumber := "BC1" |} lotBC1).
  vm_compute. reflexivity.
Defined.

End Handlers.

Section HandlersAndService.
Import Errors Dto Handler.

(** X25: in a reachable state [handleSearchVehicle] answers every GET
    request that names a vehicle, without changing the repository: for a
    vehicle that is or was parked with status 200, the spot, whether it
    is parked now, and [WasParked] set (it is never false in a successful
    answer); for any other vehicle with status 400 and the "never been
    parked" message. *)
Theorem handleSearchVehicle_answers w r v :
  reachable r → wroteHeader w = false → v ≠ "" →
  ∃ w', handleSearchVehicle "GET" v w r = Some (w', r) ∧
    (known r v →
     statusCode w' = 200 ∧
     ∃ s isParked,
       Parking.SearchVehicle r v = Ok (s, isParked) ∧
       body w' = (body w ++
         [OfSearchVehicleResponse
            {| SearchVehicleResponse_SpotID := s;
               SearchVehicleResponse_IsParked := isParked;
               SearchVehicleResponse_WasParked := true;
               SearchVehicleResponse_Error := "" |}])%list) ∧
    (¬ known r v →
     statusCode w' = 400 ∧
     body w' = (body w ++
       [OfSearchVehicleResponse
          {| SearchVehicleResponse_SpotID := "";
             SearchVehicleResponse_IsParked := false;
             SearchVehicleResponse_WasParked := false;
             SearchVehicleResponse_Error :=
               "vehicle " ++ v
               ++ " has never been parked in this parking lot" |}])%list).
Proof.
  intros Hreach Hw Hv. unfold handleSearchVehicle.
  cbn [MethodGet String.eqb negb Ascii.eqb].
  change (String.eqb "GET" "GET") with true. cbn [negb].
  apply String.eqb_neq in Hv as Hv'. rewrite Hv'.
  pose proof (SearchVehicle_known r v Hv) as Hknown.
  destruct (Parking.SearchVehicle r v) as [[s isParked]|e|] eqn:Hsearch.
  - destruct (sequential_search_answers_are_valid r v s isParked Hreach Hsearch)
      as [Hs _].
    apply String.eqb_neq in Hs. rewrite Hs. cbn [negb].
    eexists. split; [reflexivity|]. split.
    + intros _.
      destruct (ok_response_sent
        (OfSearchVehicleResponse
           {| SearchVehicleResponse_SpotID := s;
              SearchVehicleResponse_IsParked := isParked;
              SearchVehicleResponse_WasParked := true;
              SearchVehicleResponse_Error := "" |}) w Hw) as (? & _ & ?).
      split; [done|]. by exists s, isParked.
    + intros Hno. exfalso. apply Hno, Hknown. by eexists.
  - eexists. split; [reflexivity|]. split.
    + intros Hk. apply Hknown in Hk as [res Hres]. discriminate.
    + intros _. revert Hsearch.
      unfold Parking.SearchVehicle, Repository.SearchVehicle.
      apply validateVehicleNumber_None in Hv as ->.
      destruct (vehicleMap r !! v); [done|].
      destruct (vehicleHistory r !! v); [done|].
      intros [= <-].
      unfold Encode, WriteHeader, HeaderSet. cbn. rewrite Hw. by cbn.
  - exfalso. revert Hsearch.
    unfold Parking.SearchVehicle, Repository.SearchVehicle.
    by repeat case_match.
Qed.

Lemma handleSearchVehicle_answers_witness :
  ∃ w', handleSearchVehicle "GET" "BC1" NewResponseWriter lotBC1
        = Some (w', lotBC1) ∧
    (known lotBC1 "BC1" →
     statusCode w' = 200 ∧
     ∃ s isParked,
       Parking.SearchVehicle lotBC1 "BC1" = Ok (s, isParked) ∧
       body w' = (body NewResponseWriter ++
         [OfSearchVehicleResponse
            {| SearchVehicleResponse_SpotID := s;
               SearchVehicleResponse_IsParked := isParked;
               SearchVehicleResponse_WasParked := true;
               SearchVehicleResponse_Error := "" |}])%list) ∧
    (¬ known lotBC1 "BC1" →
     statusCode w' = 400 ∧
     body w' = (body NewResponseWriter ++
       [OfSearchVehicleResponse
          {| SearchVehicleResponse_SpotID := "";
             SearchVehicleResponse_IsParked := false;
             SearchVehicleResponse_WasParked := false;
             SearchVehicleResponse_Error :=
               "vehicle " ++ "BC1"
               ++ " has never been parked in this parking lot" |}])%list).
Proof.
  apply (handleSearchVehicle_answers NewResponseWriter lotBC1 "BC1").
  - apply lotBC1_reachable.
  - reflexivity.
  - done.
Defined.

(** X26: in a reachable state, when [handlePark] answers a request with
    status 200, its body carries a spot identifier, and a following
    [handleSearchVehicle] for the same vehicle number answers with status
    200, that identifier, and both [IsParked] and [WasParked] set. *)
Theorem handlePark_then_handleSearchVehicle w w2 r req w1 r1 :
  reachable r → wroteHeader w = false → wroteHeader w2 = false →
  handlePark "POST" (inr req) w r = Some (w1, r1) →
  statusCode w1 = 200 →
  ∃ spotID w3,
    body w1 = (body w ++
      [OfParkResponse {| ParkResponse_SpotID := spotID;
                         ParkResponse_Error := "" |}])%list ∧
    handleSearchVehicle "GET" (ParkRequest_VehicleNumber req) w2 r1
    = Some (w3, r1) ∧
    statusCode w3 = 200 ∧
    body w3 = (body w2 ++
      [OfSearchVehicleResponse
         {| SearchVehicleResponse_SpotID := spotID;
            SearchVehicleResponse_IsParked := true;
            SearchVehicleResponse_WasParked := true;
            SearchVehicleResponse_Error := "" |}])%list.
Proof.
  intros Hreach Hw Hw2. unfold handlePark.
  cbn [MethodPost]. change (String.eqb "POST" "POST") with true. cbn [negb].
  destruct (Parking.Park (ParkRequest_VehicleType req)
              (ParkRequest_VehicleNumber req) r) as [r' [id|e|]] eqn:Hpark;
    [|intros [= <- <-]|done].
  2:{ unfold Encode, WriteHeader, HeaderSet. cbn. rewrite Hw. by cbn. }
  intros [= <- <-] _.
  pose proof (Park_cases (ParkRequest_VehicleType req)
                (ParkRequest_VehicleNumber req) r
                (inv_wf r (reachable_invariant r Hreach))) as H.
  rewrite Hpark in H.
  destruct H as [[_ Hne]|(f & row & col & spot & [= ->] & _ & Hv & _ & _ & _ &
    _ & _ & _ & _ & _ & _ & _ & _ & Emap & _)]; [by destruct (Hne id)|].
  eexists _, _. split.
  { unfold Encode, WriteHeader, HeaderSet. cbn. rewrite Hw. by cbn. }
  unfold handleSearchVehicle, Parking.SearchVehicle, Repository.SearchVehicle.
  cbn [MethodGet]. change (String.eqb "GET" "GET") with true. cbn [negb].
  apply String.eqb_neq in Hv as Hv'. rewrite Hv'.
  apply validateVehicleNumber_None in Hv as ->.
  rewrite Emap, lookup_insert_eq.
  pose proof (Sprintf_nonempty f row col) as Hs.
  apply String.eqb_neq in Hs. rewrite Hs. cbn [negb].
  split; [reflexivity|].
  unfold Encode, WriteHeader, HeaderSet. cbn. rewrite Hw2. by cbn.
Qed.

Lemma handlePark_then_handleSearchVehicle_witness :
  ∃ spotID w3,
    body (Encode (OfParkResponse {| ParkResponse_SpotID := "0-0-0";
                                    ParkResponse_Error := "" |})
            (HeaderSet "Content-Type" "application/json" NewResponseWriter))
    = (body NewResponseWriter ++
       [OfParkResponse {| ParkResponse_SpotID := spotID;
                          ParkResponse_Error := "" |}])%list ∧
    handleSearchVehicle "GET"
      (ParkRequest_VehicleNumber
         {| ParkRequest_VehicleType := "Bicycle";
            ParkRequest_VehicleNumber := "BC1" |}) NewResponseWriter lotBC1
    = Some (w3, lotBC1) ∧
    statusCode w3 = 200 ∧
    body w3 = (body NewResponseWriter ++
      [OfSearchVehicleResponse
         {| SearchVehicleResponse_SpotID := spotID;
            SearchVehicleResponse_IsParked := true;
            SearchVehicleResponse_WasParked := true;
            SearchVehicleResponse_Error := "" |}])%list.
Proof.
  apply (handlePark_then_handleSearchVehicle NewResponseWriter
           NewResponseWriter lot
           {| ParkRequest_VehicleType := "Bicycle";
              ParkRequest_VehicleNumber := "BC1" |}).
  - apply lot_reachable.
  - reflexivity.
  - reflexivity.
  - vm_compute. reflexivity.
  - reflexivity.
Defined.

End HandlersAndService.
